(** * DocIndexer: a shallow embedding of [doc_indexer.py]

    The development follows the script top-down: text and characters,
    the backtracking regular-expression matcher that [re.search],
    [re.findall] and [re.sub] are read through, the patterns of the
    script, the indexer state with its effects (file store, standard
    output, exceptions), the methods of [DocIndexer], and [main].  The
    properties come second, in the order of the methods they concern.

    Text.  A Python [str] is a sequence of code points; here a text is a
    [string], each [ascii] standing for one code point below 256 (the
    Latin-1 range).  File contents are the decoded text that [f.read()]
    returns and [f.write()] receives, on a platform whose line separator
    is the line feed.

    Exceptions.  What the operations of the script raise are instances
    of [Exception]; an exception is kept as its message, and the wording
    of the messages of the libraries is not modelled.

    Collaborators.  The Markdown renderer, the HTML query and
    [os.path.relpath] are parameters of the model ([env]); the
    directory tree that [os.walk] reads holds regular files and readable
    directories. *)

From Stdlib Require Import Ascii String List Bool Arith Lia.
From stdpp Require Import base decidable option list strings gmap sorting pretty.

(** ** Characters *)

Definition LF : ascii := "010"%char.
Definition TAB : ascii := "009"%char.
Definition BSLASH : ascii := "092"%char.

Definition code (c : ascii) : nat := nat_of_ascii c.

Definition in_range (lo hi c : ascii) : bool :=
  (code lo <=? code c) && (code c <=? code hi).

Definition is_upper_az (c : ascii) : bool := in_range "A" "Z" c.
Definition is_lower_az (c : ascii) : bool := in_range "a" "z" c.
Definition is_digit (c : ascii) : bool := in_range "0" "9" c.
Definition is_ascii_letter (c : ascii) : bool := is_upper_az c || is_lower_az c.

(** [\w] of a [str] pattern: the alphanumeric code points and the
    underscore.  Below 256 these are the ASCII letters and digits, and
    the Latin-1 letters and numeric signs. *)
Definition is_word (c : ascii) : bool :=
  is_ascii_letter c || is_digit c || Ascii.eqb c "_"
  || (let n := code c in
      (n =? 170) || (n =? 178) || (n =? 179) || (n =? 181) || (n =? 185)
      || (n =? 186) || ((188 <=? n) && (n <=? 190))
      || ((192 <=? n) && (n <=? 214)) || ((216 <=? n) && (n <=? 246))
      || (248 <=? n)).

(** [str.isspace] below 256, the characters that [str.strip()] removes. *)
Definition is_space (c : ascii) : bool :=
  let n := code c in
  ((9 <=? n) && (n <=? 13)) || ((28 <=? n) && (n <=? 32))
  || (n =? 133) || (n =? 160).

(** [str.lower] on one code point below 256. *)
Definition lower_char (c : ascii) : ascii :=
  let n := code c in
  if is_upper_az c then ascii_of_nat (n + 32)
  else if ((192 <=? n) && (n <=? 214)) || ((216 <=? n) && (n <=? 222))
       then ascii_of_nat (n + 32)
       else c.

(** ** Text *)

Definition nl : string := String LF "".

Fixpoint str_map (f : ascii -> ascii) (s : string) : string :=
  match s with
  | "" => ""
  | String c s' => String (f c) (str_map f s')
  end.

Definition lower (s : string) : string := str_map lower_char s.

(** [s.replace(old, new)] for a one-character [old]. *)
Fixpoint replace (old : ascii) (new : string) (s : string) : string :=
  match s with
  | "" => ""
  | String c s' =>
      if Ascii.eqb c old then new +:+ replace old new s'
      else String c (replace old new s')
  end.

Fixpoint lstrip (s : string) : string :=
  match s with
  | String c s' => if is_space c then lstrip s' else s
  | "" => ""
  end.

Definition strip (s : string) : string :=
  String.rev (lstrip (String.rev (lstrip s))).

(** [s * n] *)
Fixpoint repeat_str (s : string) (n : nat) : string :=
  match n with
  | 0 => ""
  | S n' => s +:+ repeat_str s n'
  end.

(** ["".join(l)] *)
Definition join (l : list string) : string := fold_right String.append "" l.

(** [s[n:]] and [s[:n]] *)
Fixpoint drop_str (n : nat) (s : string) : string :=
  match n, s with
  | 0, _ => s
  | S n', String _ s' => drop_str n' s'
  | S _, "" => ""
  end.

Fixpoint take_str (n : nat) (s : string) : string :=
  match n, s with
  | 0, _ => ""
  | S n', String c s' => String c (take_str n' s')
  | S _, "" => ""
  end.

Fixpoint last_char (d : option ascii) (s : string) : option ascii :=
  match s with
  | "" => d
  | String c s' => last_char (Some c) s'
  end.

(** [s.endswith(suf)] *)
Definition endswith (s suf : string) : bool :=
  String.eqb (drop_str (String.length s - String.length suf) s) suf
  && (String.length suf <=? String.length s).

Definition startswith (s pre : string) : bool := String.prefix pre s.

(** ** Regular expressions

    The patterns of the script use literals, character sets, the dot,
    concatenation, alternation, the greedy repetitions [*], [+], [?],
    [{2,}], the anchors [^] and [$] under [re.MULTILINE], and [\b].  A
    pattern is matched the way the [re] module does it: by backtracking,
    trying the alternatives of a choice from left to right and the
    longer repetition first; the first success is the match. *)

Inductive regex : Type :=
  | REps
  | RChr (c : ascii)
  | RSet (negated : bool) (ranges : list (ascii * ascii))
  | RSeq (r1 r2 : regex)
  | RAlt (r1 r2 : regex)
  | RStar (r : regex)
  | RBol
  | REol
  | RWordB.

Definition RDot : regex := RSet true [(LF, LF)].
Definition RPlus (r : regex) : regex := RSeq r (RStar r).
Definition ROpt (r : regex) : regex := RAlt r REps.
Definition RAtLeast2 (r : regex) : regex := RSeq r (RSeq r (RStar r)).

Fixpoint RLit (s : string) : regex :=
  match s with
  | "" => REps
  | String c s' => RSeq (RChr c) (RLit s')
  end.

Definition in_set (negated : bool) (ranges : list (ascii * ascii)) (c : ascii) : bool :=
  xorb negated (existsb (fun r => in_range (fst r) (snd r) c) ranges).

(** A position in the subject: the character before it, if any, and the
    text after it. *)
Record cursor : Type := Cursor { before : option ascii; rest : string }.

Definition at_word_boundary (c : cursor) : bool :=
  let w1 := match before c with Some a => is_word a | None => false end in
  let w2 := match rest c with String a _ => is_word a | "" => false end in
  xorb w1 w2.

Definition at_line_start (c : cursor) : bool :=
  match before c with
  | None => true
  | Some a => Ascii.eqb a LF
  end.

Definition at_line_end (c : cursor) : bool :=
  match rest c with
  | "" => true
  | String a _ => Ascii.eqb a LF
  end.

Definition step_char (p : ascii -> bool) (c : cursor) : list cursor :=
  match rest c with
  | String a s' => if p a then [Cursor (Some a) s'] else []
  | "" => []
  end.

(** Greedy repetition: every way of iterating [step], more iterations
    first.  An iteration has to consume text; the fuel is the length of
    the remaining text plus one. *)
Fixpoint star_loop (step : cursor -> list cursor) (fuel : nat) (c : cursor)
  : list cursor :=
  match fuel with
  | 0 => [c]
  | S f =>
      flat_map
        (fun c' =>
           if String.length (rest c') <? String.length (rest c)
           then star_loop step f c' else [])
        (step c)
      ++ [c]
  end.

(** [matches r c]: the positions at which a match of [r] starting at [c]
    can end, in the order in which backtracking finds them. *)
Fixpoint matches (r : regex) (c : cursor) : list cursor :=
  match r with
  | REps => [c]
  | RChr a => step_char (Ascii.eqb a) c
  | RSet neg rs => step_char (in_set neg rs) c
  | RSeq r1 r2 => flat_map (matches r2) (matches r1 c)
  | RAlt r1 r2 => matches r1 c ++ matches r2 c
  | RStar r1 => star_loop (matches r1) (S (String.length (rest c))) c
  | RBol => if at_line_start c then [c] else []
  | REol => if at_line_end c then [c] else []
  | RWordB => if at_word_boundary c then [c] else []
  end.

(** The match of [r] at a position, if there is one: the text after it. *)
Definition match_at (r : regex) (c : cursor) : option string :=
  match matches r c with
  | c' :: _ => Some (rest c')
  | [] => None
  end.

(** The text a match starting at [s] and ending before [s'] covers. *)
Definition matched (s s' : string) : string :=
  take_str (String.length s - String.length s') s.

Definition advance (c : cursor) : option cursor :=
  match rest c with
  | String a s' => Some (Cursor (Some a) s')
  | "" => None
  end.

Definition cursor_after (c : cursor) (s' : string) : cursor :=
  Cursor (last_char (before c) (matched (rest c) s')) s'.

(** [re.search]: the leftmost match at or after a position, as the
    text before it, the matched text and the text after it. *)
Fixpoint search_from (r : regex) (b : option ascii) (s : string)
  : option (string * string * string) :=
  match match_at r (Cursor b s) with
  | Some s' => Some ("", matched s s', s')
  | None =>
      match s with
      | String a s1 =>
          match search_from r (Some a) s1 with
          | Some (pre, m, post) => Some (String a pre, m, post)
          | None => None
          end
      | "" => None
      end
  end.

Definition re_search (r : regex) (s : string) : option (string * string * string) :=
  search_from r None s.

(** [re.findall] for a pattern without groups: the matched texts from
    left to right, the scan resuming where a match ended (one character
    further after an empty match). *)
Fixpoint findall_from (r : regex) (fuel : nat) (c : cursor) : list string :=
  match fuel with
  | 0 => []
  | S f =>
      match match_at r c with
      | Some s' =>
          let m := matched (rest c) s' in
          if String.length s' <? String.length (rest c)
          then m :: findall_from r f (cursor_after c s')
          else m :: match advance c with
                    | Some c1 => findall_from r f c1
                    | None => []
                    end
      | None =>
          match advance c with
          | Some c1 => findall_from r f c1
          | None => []
          end
      end
  end.

Definition re_findall (r : regex) (s : string) : list string :=
  findall_from r (S (String.length s)) (Cursor None s).

(** Concatenation of several pieces, written as the pattern is read. *)
Definition RCat (l : list regex) : regex := fold_right RSeq REps l.

(** ** The patterns of the script *)

Definition set_AZ : regex := RSet false [("A", "Z")]%char.
Definition set_az : regex := RSet false [("a", "z")]%char.
Definition set_azAZ : regex := RSet false [("a", "z"); ("A", "Z")]%char.

(** [[A-Z][a-z]+[A-Z][a-z]+[a-zA-Z]*] *)
Definition camel_case : regex :=
  RCat [set_AZ; RPlus set_az; set_AZ; RPlus set_az; RStar set_azAZ].

(** [[a-z]+_[a-z]+(?:_[a-z]+)*] and the same with a hyphen *)
Definition joined_by (sep : ascii) : regex :=
  RCat [RPlus set_az; RChr sep; RPlus set_az;
        RStar (RSeq (RChr sep) (RPlus set_az))].

(** The pattern of [tech_terms] in [extract_terms_and_acronyms]. *)
Definition term_pattern : regex :=
  RCat [RWordB;
        RAlt camel_case (RAlt (joined_by "_") (joined_by "-"));
        RWordB].

(** [\b[A-Z]{2,}s?\b] *)
Definition acronym_pattern : regex :=
  RCat [RWordB; RAtLeast2 set_AZ; ROpt (RChr "s"); RWordB].

(** [[ \t]*-[^\n]*\n], one line of an existing table of contents *)
Definition toc_item_line : regex :=
  RCat [RStar (RSet false [(" ", " "); (TAB, TAB)]%char);
        RChr "-"; RStar (RSet true [(LF, LF)]); RChr LF].

(** The first line of a table of contents, [toc_lines[0]]. *)
Definition toc_title : string := "## Table of Contents" +:+ nl.

(** [toc_pattern] in [update_file_toc]:
    [## Table of Contents\n(?:[ \t]*-[^\n]*\n)*\n] *)
Definition toc_pattern : regex :=
  RCat [RLit toc_title; RStar toc_item_line; RChr LF].

(** [^#[^#].*$] with [re.MULTILINE] *)
Definition first_heading_pattern : regex :=
  RCat [RBol; RChr "#"; RSet true [("#", "#")]%char; RStar RDot; REol].

(** ** Replacement templates

    [re.sub] with a [str] replacement reads it as a template (the
    [parse_template] of the [re] module): a backslash starts an escape.
    The pattern of the script has no capturing group, so the only group
    a template can name is the whole match. *)

Inductive titem : Type :=
  | TLit (s : string)
  | TWhole.

Definition is_octal (c : ascii) : bool := in_range "0" "7" c.
Definition digit_val (c : ascii) : nat := code c - code "0".

(** The text up to the first [stop], and what follows it. *)
Fixpoint getuntil (stop : ascii) (s : string) : option (string * string) :=
  match s with
  | "" => None
  | String c s' =>
      if Ascii.eqb c stop then Some ("", s')
      else match getuntil stop s' with
           | Some (name, s'') => Some (String c name, s'')
           | None => None
           end
  end.

Fixpoint all_zero_digits (s : string) : bool :=
  match s with
  | "" => true
  | String c s' => Ascii.eqb c "0" && all_zero_digits s'
  end.

(** One escape, read after its backslash: the item it stands for and
    the text left, or [None] where [parse_template] raises.  A group
    name is accepted when it is a run of ASCII digits (Python 3.12). *)
Definition parse_escape (s : string) : option (titem * string) :=
  match s with
  | "" => None
  | String e s1 =>
      if Ascii.eqb e "g" then
        match s1 with
        | String "<" s2 =>
            match getuntil ">" s2 with
            | Some (name, s3) =>
                if negb (String.eqb name "") && all_zero_digits name
                then Some (TWhole, s3) else None
            | None => None
            end
        | _ => None
        end
      else if Ascii.eqb e "0" then
        match s1 with
        | String d1 s2 =>
            if is_octal d1 then
              match s2 with
              | String d2 s3 =>
                  if is_octal d2
                  then Some (TLit (String (ascii_of_nat (8 * digit_val d1 + digit_val d2)) ""), s3)
                  else Some (TLit (String (ascii_of_nat (digit_val d1)) ""), s2)
              | "" => Some (TLit (String (ascii_of_nat (digit_val d1)) ""), s2)
              end
            else Some (TLit (String (ascii_of_nat 0) ""), s1)
        | "" => Some (TLit (String (ascii_of_nat 0) ""), s1)
        end
      else if is_digit e then
        match s1 with
        | String d1 (String d2 s3) =>
            if is_octal e && is_octal d1 && is_octal d2 then
              let v := 64 * digit_val e + 8 * digit_val d1 + digit_val d2 in
              if v <=? 255 then Some (TLit (String (ascii_of_nat v) ""), s3)
              else None
            else None
        | _ => None
        end
      else if Ascii.eqb e "a" then Some (TLit (String (ascii_of_nat 7) ""), s1)
      else if Ascii.eqb e "b" then Some (TLit (String (ascii_of_nat 8) ""), s1)
      else if Ascii.eqb e "f" then Some (TLit (String (ascii_of_nat 12) ""), s1)
      else if Ascii.eqb e "n" then Some (TLit nl, s1)
      else if Ascii.eqb e "r" then Some (TLit (String (ascii_of_nat 13) ""), s1)
      else if Ascii.eqb e "t" then Some (TLit (String TAB ""), s1)
      else if Ascii.eqb e "v" then Some (TLit (String (ascii_of_nat 11) ""), s1)
      else if Ascii.eqb e BSLASH then Some (TLit (String BSLASH ""), s1)
      else if is_ascii_letter e then None
      else Some (TLit (String BSLASH (String e "")), s1)
  end.

Fixpoint parse_template_from (fuel : nat) (s : string) : option (list titem) :=
  match fuel with
  | 0 => Some []
  | S f =>
      match s with
      | "" => Some []
      | String c s1 =>
          if Ascii.eqb c BSLASH then
            match parse_escape s1 with
            | Some (it, s2) =>
                match parse_template_from f s2 with
                | Some its => Some (it :: its)
                | None => None
                end
            | None => None
            end
          else
            match parse_template_from f s1 with
            | Some its => Some (TLit (String c "") :: its)
            | None => None
            end
      end
  end.

Definition parse_template (repl : string) : option (list titem) :=
  parse_template_from (String.length repl) repl.

Definition expand (t : list titem) (whole : string) : string :=
  join (map (fun it => match it with TLit s => s | TWhole => whole end) t).

(** The scan of [re.sub]: every match, from left to right, is replaced
    by the expanded template. *)
Fixpoint sub_from (r : regex) (t : list titem) (fuel : nat) (c : cursor) : string :=
  match fuel with
  | 0 => rest c
  | S f =>
      let skip :=
        match rest c with
        | String a s1 => String a (sub_from r t f (Cursor (Some a) s1))
        | "" => ""
        end in
      match match_at r c with
      | Some s' =>
          let m := matched (rest c) s' in
          if String.length s' <? String.length (rest c)
          then expand t m +:+ sub_from r t f (cursor_after c s')
          else expand t m +:+ skip
      | None => skip
      end
  end.

(** [re.sub(pattern, repl, string)]; [None] when the template is
    refused, which raises [re.error] (or [IndexError]) before any
    replacement is made. *)
Definition re_sub (r : regex) (repl s : string) : option string :=
  match parse_template repl with
  | Some t => Some (sub_from r t (S (String.length s)) (Cursor None s))
  | None => None
  end.

(** ** Paths and directory trees *)

(** [os.path.join(a, b)] on a POSIX system *)
Definition path_join (a b : string) : string :=
  if startswith b "/" then b
  else if String.eqb a "" || endswith a "/" then a +:+ b
  else a +:+ "/" +:+ b.

(** An exception, with the message that [str(e)] gives. *)
Record exn : Type := Exn { exn_msg : string }.

(** A directory tree of regular files and directories, the entries of a
    directory in the order in which [os.scandir] lists them.  A file is
    given by what reading it as UTF-8 text yields. *)
#[warnings="-register-all"]
Inductive node : Type :=
  | File (data : exn + string)
  | Dir (entries : list (string * node)).

Definition is_dir (n : node) : bool :=
  match n with Dir _ => true | File _ => false end.

Definition dir_names (es : list (string * node)) : list string :=
  map fst (List.filter (fun e => is_dir (snd e)) es).

Definition file_names (es : list (string * node)) : list string :=
  map fst (List.filter (fun e => negb (is_dir (snd e))) es).

(** [os.walk(top)]: top-down, one triple [(root, dirs, files)] for every
    directory. *)
Fixpoint walk (top : string) (n : node) : list (string * list string * list string) :=
  match n with
  | File _ => []
  | Dir es =>
      (top, dir_names es, file_names es)
      :: flat_map (fun e => walk (path_join top (fst e)) (snd e)) es
  end.

(** Every file of a tree under the path [os.walk] reports it with. *)
Fixpoint tree_files (top : string) (n : node) : list (string * (exn + string)) :=
  match n with
  | File _ => []
  | Dir es =>
      flat_map (fun e => match snd e with
                         | File d => [(path_join top (fst e), d)]
                         | Dir _ => tree_files (path_join top (fst e)) (snd e)
                         end) es
  end.

(** ** The indexer and its world *)

(** One entry of a table of contents: [(level, text, anchor)]. *)
Definition heading : Type := nat * string * string.

(** What the script leaves to its environment: the root directory of
    the indexer, [os.path.relpath], and the heading elements that
    [markdown.markdown] and [BeautifulSoup.find_all] yield for a text,
    each as the digit of its tag name and its [.text]. *)
Record env : Type := Env {
  root_dir : string;
  relpath : string -> string -> string;
  render : string -> exn + list (nat * string)
}.

(** The fields of [DocIndexer], the file store, the paths that cannot
    be opened for writing, and the lines printed so far. *)
Record state : Type := State {
  terms : gmap string (gset string);
  acronyms : gmap string (gset string);
  toc : gmap string (list heading);
  files : gmap string (exn + string);
  locked : gmap string exn;
  stdout : list string
}.

Definition set_terms (f : gmap string (gset string) -> gmap string (gset string))
    (st : state) : state :=
  State (f (terms st)) (acronyms st) (toc st) (files st) (locked st) (stdout st).
Definition set_acronyms (f : gmap string (gset string) -> gmap string (gset string))
    (st : state) : state :=
  State (terms st) (f (acronyms st)) (toc st) (files st) (locked st) (stdout st).
Definition set_toc (f : gmap string (list heading) -> gmap string (list heading))
    (st : state) : state :=
  State (terms st) (acronyms st) (f (toc st)) (files st) (locked st) (stdout st).
Definition set_files (f : gmap string (exn + string) -> gmap string (exn + string))
    (st : state) : state :=
  State (terms st) (acronyms st) (toc st) (f (files st)) (locked st) (stdout st).
Definition set_stdout (f : list string -> list string) (st : state) : state :=
  State (terms st) (acronyms st) (toc st) (files st) (locked st) (f (stdout st)).

(** Computations that read and change the state and may raise. *)
Definition M (A : Type) : Type := state -> (exn + A) * state.

Definition ret {A} (a : A) : M A := fun st => (inr a, st).
Definition raise {A} (e : exn) : M A := fun st => (inl e, st).
Definition bind {A B} (m : M A) (k : A -> M B) : M B :=
  fun st => match m st with
            | (inr a, st') => k a st'
            | (inl e, st') => (inl e, st')
            end.
Definition modify (f : state -> state) : M unit := fun st => (inr tt, f st).
Definition lift {A} (r : exn + A) : M A :=
  match r with inr a => ret a | inl e => raise e end.

(** [try: body except Exception as e: handler(e)] *)
Definition try_except {A} (body : M A) (handler : exn -> M A) : M A :=
  fun st => match body st with
            | (inr a, st') => (inr a, st')
            | (inl e, st') => handler e st'
            end.

Notation "x <- m ;; k" := (bind m (fun x => k))
  (at level 100, m at next level, right associativity).
Notation "m ;;; k" := (bind m (fun _ => k))
  (at level 100, right associativity).

(** [for x in l: body x] *)
Fixpoint for_each {A} (l : list A) (body : A -> M unit) : M unit :=
  match l with
  | [] => ret tt
  | x :: l' => body x ;;; for_each l' body
  end.

Definition print (line : string) : M unit :=
  modify (set_stdout (fun out => out ++ [line])).

Definition no_such_file (path : string) : exn :=
  Exn ("[Errno 2] No such file or directory: '" +:+ path +:+ "'").

(** [with open(path, 'r', encoding='utf-8') as f: f.read()] *)
Definition read_file (path : string) : M string :=
  fun st => match files st !! path with
            | Some (inr content) => (inr content, st)
            | Some (inl e) => (inl e, st)
            | None => (inl (no_such_file path), st)
            end.

(** [with open(path, 'w', encoding='utf-8') as f: f.write(content)] *)
Definition write_file (path content : string) : M unit :=
  fun st => match locked st !! path with
            | Some e => (inl e, st)
            | None => (inr tt, set_files (fun fs => <[path := inr content]> fs) st)
            end.

(** [self.toc[key]] on a [defaultdict(list)]: a missing key is entered
    with the empty list. *)
Definition toc_item (key : string) : M (list heading) :=
  fun st => match toc st !! key with
            | Some hs => (inr hs, st)
            | None => (inr [], set_toc (fun m => <[key := []]> m) st)
            end.

(** [self.toc[key].append(h)] *)
Definition toc_append (key : string) (h : heading) : M unit :=
  hs <- toc_item key ;;
  modify (set_toc (fun m => <[key := hs ++ [h]]> m)).

(** [d[key].add(x)] on a [defaultdict(set)] *)
Definition dd_add (key x : string) (d : gmap string (gset string))
  : gmap string (gset string) :=
  <[key := default ∅ (d !! key) ∪ {[x]}]> d.

Section DocIndexer.
Variable E : env.

(** *** [find_markdown_files] *)

Definition is_markdown_name (file : string) : bool :=
  endswith file ".md" || endswith file ".markdown".

Definition find_markdown_files (tree : node) : list string :=
  flat_map (fun t => match t with
                     | (root, _, names) =>
                         map (path_join root) (List.filter is_markdown_name names)
                     end)
           (walk (root_dir E) tree).

(** *** [extract_headings] *)

(** [text.lower().replace(' ', '-').replace('.', '').replace('(', '').replace(')', '')] *)
Definition anchor_of (text : string) : string :=
  replace ")" "" (replace "(" "" (replace "." "" (replace " " "-" (lower text)))).

Definition heading_entry (h : nat * string) : heading :=
  let text := strip (snd h) in
  (fst h, text, anchor_of text).

Definition extract_headings (content file_path : string) : M unit :=
  headings <- lift (render E content) ;;
  for_each headings (fun h => toc_append file_path (heading_entry h)).

(** *** [extract_terms_and_acronyms] *)

Definition extract_terms_and_acronyms (content file_path : string) : M unit :=
  for_each (re_findall term_pattern content)
           (fun term => modify (set_terms (dd_add term file_path))) ;;;
  for_each (re_findall acronym_pattern content)
           (fun acronym => modify (set_acronyms (dd_add acronym file_path))).

(** *** [update_file_toc] *)

(** [f"{indent}- [{text}](#{anchor})\n"] *)
Definition toc_line (h : heading) : string :=
  match h with
  | (level, text, anchor) =>
      repeat_str "  " (level - 1) +:+ "- [" +:+ text +:+ "](#" +:+ anchor +:+ ")" +:+ nl
  end.

Definition toc_content (hs : list heading) : string :=
  join (toc_title :: map toc_line hs).

(** The text that [update_file_toc] writes, or the exception that
    [re.sub] raises on the replacement template. *)
Definition new_content (hs : list heading) (content : string) : exn + string :=
  match re_search toc_pattern content with
  | Some _ =>
      match re_sub toc_pattern (toc_content hs +:+ nl) content with
      | Some out => inr out
      | None => inl (Exn "bad escape in replacement template")
      end
  | None =>
      match re_search first_heading_pattern content with
      | Some (pre, m, post) =>
          inr ((pre +:+ m) +:+ nl +:+ nl +:+ toc_content hs +:+ nl +:+ post)
      | None => inr (toc_content hs +:+ nl +:+ content)
      end
  end.

Definition update_file_toc (file_path content : string) : M unit :=
  hs <- toc_item (relpath E file_path (root_dir E)) ;;
  out <- lift (new_content hs content) ;;
  write_file file_path out.

(** *** [process_file] *)

Definition process_file_body (file_path : string) : M unit :=
  content <- read_file file_path ;;
  let rel_path := relpath E file_path (root_dir E) in
  extract_headings content rel_path ;;;
  extract_terms_and_acronyms content rel_path ;;;
  hs <- toc_item rel_path ;;
  match hs with
  | [] => ret tt
  | _ :: _ => update_file_toc file_path content
  end.

Definition process_file (file_path : string) : M unit :=
  try_except (process_file_body file_path)
    (fun e => print ("Error processing " +:+ file_path +:+ ": " +:+ exn_msg e)).

(** *** [generate_index] *)

(** [sorted(d.items())] for a dictionary with string keys: the keys are
    distinct, so the pairs are ordered by their keys. *)
Definition key_le {V} (p q : string * V) : Prop := String.le (fst p) (fst q).

Definition sorted_items {V} (d : gmap string V) : list (string * V) :=
  merge_sort key_le (map_to_list d).

(** [sorted(files)] for a set of strings *)
Definition sorted_set (s : gset string) : list string :=
  merge_sort String.le (elements s).

Definition index_heading_line (file_path : string) (h : heading) : string :=
  match h with
  | (level, text, anchor) =>
      repeat_str "  " (level - 1) +:+ "- [" +:+ text +:+ "](" +:+ file_path
        +:+ "#" +:+ anchor +:+ ")" +:+ nl
  end.

Definition index_file_entry (item : string * list heading) : string :=
  "### " +:+ fst item +:+ nl +:+ nl
  +:+ join (map (index_heading_line (fst item)) (snd item)) +:+ nl.

Definition index_file_link (file_path : string) : string :=
  "  - [" +:+ file_path +:+ "](" +:+ file_path +:+ ")" +:+ nl.

Definition index_glossary_entry (item : string * gset string) : string :=
  "- **" +:+ fst item +:+ "**" +:+ nl
  +:+ join (map index_file_link (sorted_set (snd item))).

Definition index_content (st : state) : string :=
  join [ "# Documentation Index" +:+ nl +:+ nl;
         "## Files" +:+ nl +:+ nl;
         join (map index_file_entry (sorted_items (toc st)));
         "## Technical Terms" +:+ nl +:+ nl;
         join (map index_glossary_entry (sorted_items (terms st)));
         nl;
         "## Acronyms" +:+ nl +:+ nl;
         join (map index_glossary_entry (sorted_items (acronyms st))) ].

Definition index_path : string := path_join (root_dir E) "INDEX.md".

Definition generate_index : M unit :=
  st <- (fun st => (inr st, st)) ;;
  write_file index_path (index_content st).

(** *** [main] *)

Definition nat_to_string (n : nat) : string := pretty n.

Definition process_all (markdown_files : list string) : M unit :=
  for_each markdown_files
    (fun file_path => print ("Processing " +:+ file_path) ;;; process_file file_path).

Definition main_from (tree : node) : M unit :=
  print "Finding markdown files..." ;;;
  let markdown_files := find_markdown_files tree in
  print ("Processing " +:+ nat_to_string (length markdown_files) +:+ " files...") ;;;
  process_all markdown_files ;;;
  print "Generating main index..." ;;;
  generate_index ;;;
  print "Done! Check INDEX.md for the complete documentation index.".

Definition initial_state (tree : node) (ro : gmap string exn) : state :=
  State ∅ ∅ ∅ (list_to_map (tree_files (root_dir E) tree)) ro [].

(** A run of the script on a directory tree: the result of [main] and
    the state it leaves. *)
Definition main (tree : node) (ro : gmap string exn) : (exn + unit) * state :=
  main_from tree (initial_state tree ro).

End DocIndexer.

Arguments re_findall : simpl never.
Arguments re_search : simpl never.
Arguments re_sub : simpl never.
Arguments new_content : simpl never.
Arguments toc_content : simpl never.
Arguments index_content : simpl never.

(** ** A concrete environment

    The scenario of the specification needs the collaborators of the
    script on a few small documents. *)

(** The lines of a text, without their line feeds. *)
Fixpoint split_lines_from (cur : string) (s : string) : list string :=
  match s with
  | "" => [String.rev cur]
  | String c s' =>
      if Ascii.eqb c LF then String.rev cur :: split_lines_from "" s'
      else split_lines_from (String c cur) s'
  end.

Definition split_lines (s : string) : list string := split_lines_from "" s.

Fixpoint count_hashes (s : string) : nat :=
  match s with
  | String "#" s' => S (count_hashes s')
  | _ => 0
  end.

Definition rstrip_hashes (s : string) : string :=
  String.rev (drop_str (count_hashes (String.rev s)) (String.rev s)).

Definition atx_line (line : string) : option (nat * string) :=
  match count_hashes line with
  | 0 => None
  | S k =>
      let level := Nat.min (S k) 6 in
      Some (level, strip (rstrip_hashes (drop_str level line)))
  end.

(** Modelled from the spec: the Markdown renderer and the HTML query
    ([markdown.markdown], [BeautifulSoup.find_all]) are collaborators
    outside the repository; section 4.2 allows a heading-only parser.
    This one reads the ATX headings of a document made of paragraphs,
    lists and heading lines without inline markup: a line that starts
    with one to six [#] is a heading of that level, its text the rest of
    the line without closing [#]s and surrounding blanks. *)
Definition atx_headings (content : string) : exn + list (nat * string) :=
  inr (omap atx_line (split_lines content)).

(** [os.path.relpath(path, start)] for a path that [os.walk(start)]
    reports: the path without the leading [start] and separator. *)
Definition relpath_under (path start : string) : string :=
  if startswith path (start +:+ "/")
  then drop_str (String.length start + 1) path
  else path.

(** [DocIndexer()] run in the directory of the documents. *)
Definition here : env := Env "." relpath_under atx_headings.

Definition a_md : string :=
  "# Intro" +:+ nl +:+ nl +:+ "Some PYTHON_SCRIPT and camelCaseWord here.".
Definition b_md : string :=
  "## Section" +:+ nl +:+ nl +:+ "Another camelCaseWord.".

Definition two_files : node :=
  Dir [("a.md", File (inr a_md)); ("b.md", File (inr b_md))].

(** ** Specification-side notions *)

(** The anchor as the specification words it: the text in lower case,
    every space turned into a hyphen, and the characters [.], [(] and
    [)] left out. *)
Fixpoint spec_anchor (text : string) : string :=
  match text with
  | "" => ""
  | String c s =>
      let c' := lower_char c in
      if Ascii.eqb c' "." || Ascii.eqb c' "(" || Ascii.eqb c' ")"
      then spec_anchor s
      else String (if Ascii.eqb c' " " then "-"%char else c') (spec_anchor s)
  end.

(** [file_under tree names]: the tree has a file that is reached from
    its root through the directories [names] lists, the last name being
    the file's own. *)
Inductive file_under : node -> list string -> Prop :=
  | file_under_here es name d :
      In (name, File d) es -> file_under (Dir es) [name]
  | file_under_below es name child names :
      In (name, child) es -> file_under child names ->
      file_under (Dir es) (name :: names).

(** The path of a file: its names joined onto the root, one by one. *)
Definition path_of (top : string) (names : list string) : string :=
  fold_left path_join names top.

(** What [find_markdown_files] appends for one triple of the walk. *)
Definition listed (t : string * list string * list string) : list string :=
  match t with
  | (root, _, names) => map (path_join root) (List.filter is_markdown_name names)
  end.

(** ** The effect of one file, in closed form *)

(** [d[k].add(x)] for every [k] of a list, in turn. *)
Definition add_all (keys : list string) (x : string) (d : gmap string (gset string))
  : gmap string (gset string) :=
  fold_left (fun d k => dd_add k x d) keys d.

(** The headings on record for [key], none when the key is missing. *)
Definition recorded (key : string) (m : gmap string (list heading)) : list heading :=
  default [] (m !! key).

(** The state after the two extraction passes and the truth test on
    [self.toc[rel_path]], for a file whose text is [content] and whose
    heading elements are [raws]. *)
Definition extracted (E : env) (file_path content : string)
    (raws : list (nat * string)) (st : state) : state :=
  let rel_path := relpath E file_path (root_dir E) in
  State (add_all (re_findall term_pattern content) rel_path (terms st))
        (add_all (re_findall acronym_pattern content) rel_path (acronyms st))
        (<[rel_path := recorded rel_path (toc st) ++ map heading_entry raws]> (toc st))
        (files st) (locked st) (stdout st).

(** The line that the handler of [process_file] prints. *)
Definition error_line (file_path : string) (e : exn) : string :=
  "Error processing " +:+ file_path +:+ ": " +:+ exn_msg e.

Definition logged (file_path : string) (e : exn) (st : state) : state :=
  set_stdout (fun out => out ++ [error_line file_path e]) st.

(** The loop of [main], read as one state change per file. *)
Definition process_step (E : env) (st : state) (file_path : string) : state :=
  snd (process_file E file_path (snd (print ("Processing " +:+ file_path) st))).

(** The file set on record for a key, empty when the key is missing. *)
Definition files_of (key : string) (d : gmap string (gset string)) : gset string :=
  default ∅ (d !! key).

(** A file that was read and rendered: its text and heading elements. *)
Definition readable (E : env) (st : state) (file_path content : string)
    (raws : list (nat * string)) : Prop :=
  files st !! file_path = Some (inr content) /\ render E content = inr raws.

(** [indexed E pat st paths key r]: one of the files of [paths] was
    read and rendered, has the relative path [r], and [pat] matched the
    text [key] in it. *)
Definition indexed (E : env) (pat : regex) (st : state) (paths : list string)
    (key r : string) : Prop :=
  exists p content raws,
    p ∈ paths /\ relpath E p (root_dir E) = r
    /\ readable E st p content raws
    /\ key ∈ re_findall pat content.

(** Every key of a glossary has a file. *)
Definition keys_inhabited (d : gmap string (gset string)) : Prop :=
  forall k, is_Some (d !! k) -> exists r, r ∈ files_of k d.

(** ** The two patterns of [update_file_toc], as loops

    For the proofs the two patterns are also written as plain loops
    over the text; the section on matching proves that the matcher
    computes the same. *)

(** [s] without its prefix [pre], when it has it. *)
Fixpoint strip_prefix (pre s : string) : option string :=
  match pre, s with
  | "", _ => Some s
  | String a pre', String b s' => if Ascii.eqb a b then strip_prefix pre' s' else None
  | String _ _, "" => None
  end.

(** [s] without its longest prefix of characters that satisfy [p]. *)
Fixpoint skip_while (p : ascii -> bool) (s : string) : string :=
  match s with
  | String a s' => if p a then skip_while p s' else s
  | "" => ""
  end.

(** The cursor after the longest run of characters that satisfy [p]. *)
Definition skip_cursor (p : ascii -> bool) (c : cursor) : cursor :=
  Cursor (last_char (before c) (matched (rest c) (skip_while p (rest c))))
         (skip_while p (rest c)).

(** The sets [[ \t]] and [[^\n]] of [toc_pattern]. *)
Definition is_blank : ascii -> bool := in_set false [(" ", " "); (TAB, TAB)]%char.
Definition not_LF : ascii -> bool := in_set true [(LF, LF)].
Arguments is_blank : simpl never.
Arguments not_LF : simpl never.

(** The text after one line [[ \t]*-[^\n]*\n] at the start of [s]. *)
Definition item_line_end (s : string) : option string :=
  match skip_while is_blank s with
  | String a s1 =>
      if Ascii.eqb a "-" then
        match skip_while not_LF s1 with
        | String _ s2 => Some s2
        | "" => None
        end
      else None
  | "" => None
  end.

(** Where the scan of the item lines stands. *)
Inductive line_state : Type := LineStart | Indent | Body.

(** The text after [(?:[ \t]*-[^\n]*\n)*\n], read from the state [q]. *)
Fixpoint items_end (q : line_state) (s : string) : option string :=
  match s with
  | "" => None
  | String c s' =>
      match q with
      | LineStart =>
          if Ascii.eqb c LF then Some s'
          else if is_blank c then items_end Indent s'
          else if Ascii.eqb c "-" then items_end Body s'
          else None
      | Indent =>
          if is_blank c then items_end Indent s'
          else if Ascii.eqb c "-" then items_end Body s'
          else None
      | Body =>
          if Ascii.eqb c LF then items_end LineStart s' else items_end Body s'
      end
  end.

(** The text after a match of [toc_pattern] at the start of [s]. *)
Definition toc_block_end (s : string) : option string :=
  match strip_prefix toc_title s with
  | Some s' => items_end LineStart s'
  | None => None
  end.

(** The text after a match of [first_heading_pattern] at a position. *)
Definition heading_end (b : option ascii) (s : string) : option string :=
  match s with
  | String a (String c s') =>
      if at_line_start (Cursor b s) && Ascii.eqb a "#" && negb (Ascii.eqb c "#")
      then Some (skip_while not_LF s')
      else None
  | _ => None
  end.

(** ** The placement rule, in words *)

(** Every character of [s] satisfies [p]. *)
Fixpoint str_all (p : ascii -> bool) (s : string) : bool :=
  match s with
  | "" => true
  | String c s' => p c && str_all p s'
  end.

(** A list-item line: blanks, a hyphen, anything up to the line feed. *)
Definition item_line (l : string) : Prop :=
  exists w body,
    l = w +:+ "-" +:+ body +:+ nl
    /\ str_all is_blank w = true /\ str_all not_LF body = true.

(** An existing table of contents: the title line, any number of
    list-item lines, and an empty line. *)
Definition toc_block (b : string) : Prop :=
  exists ls, b = toc_title +:+ join ls +:+ nl /\ Forall item_line ls.

(** A block starts at the very beginning of [s]. *)
Definition block_starts (s : string) : Prop :=
  exists b r, toc_block b /\ s = b +:+ r.

Definition has_block (content : string) : Prop :=
  exists pre b post, toc_block b /\ content = pre +:+ b +:+ post.

Definition no_block (content : string) : Prop :=
  forall pre b post, toc_block b -> content <> pre +:+ b +:+ post.

(** [replaced R s out]: [out] is [s] with every block replaced by [R],
    going from left to right: where a block starts it is replaced and
    the scan resumes after it, elsewhere the character is kept. *)
Inductive replaced (R : string) : string -> string -> Prop :=
  | replaced_end : replaced R "" ""
  | replaced_block b r out :
      toc_block b -> replaced R r out -> replaced R (b +:+ r) (R +:+ out)
  | replaced_keep c s out :
      ~ block_starts (String c s) -> replaced R s out ->
      replaced R (String c s) (String c out).

Definition not_backslash (c : ascii) : bool := negb (Ascii.eqb c BSLASH).

(** Where a line starts: at the beginning of the text or after a line
    feed.  Where a line ends: at the end of the text or before one. *)
Definition at_start_of_line (pre : string) : Prop :=
  pre = "" \/ exists p, pre = p +:+ nl.

Definition at_end_of_line (post : string) : Prop :=
  post = "" \/ exists q, post = nl +:+ q.

(** A match of [^#[^#].*$]: a [#] at the start of a line, one
    character other than [#] (a line feed is one), and the rest of the
    line that character leaves. *)
Definition heading_match (pre h post : string) : Prop :=
  at_start_of_line pre
  /\ (exists c tail,
        h = String "#" (String c tail) /\ c <> "#"%char
        /\ str_all not_LF tail = true)
  /\ at_end_of_line post.

(** The first match of the heading pattern in a text. *)
Definition first_heading (content pre h post : string) : Prop :=
  content = pre +:+ h +:+ post
  /\ heading_match pre h post
  /\ forall pre' h' post',
       content = pre' +:+ h' +:+ post' -> heading_match pre' h' post' ->
       String.length pre <= String.length pre'.

Definition no_heading (content : string) : Prop :=
  forall pre h post, heading_match pre h post -> content <> pre +:+ h +:+ post.

(** Every character of the text and of the anchor of every heading
    satisfies [p]. *)
Definition headings_all (p : ascii -> bool) (hs : list heading) : bool :=
  forallb (fun h : heading =>
             match h with
             | (_, text, anchor) => str_all p text && str_all p anchor
             end) hs.

(** *** The rule as the specification words it

    A second reading of the placement rule, from the words of the
    specification alone: an existing block begins with the line
    [## Table of Contents], at the start of a line; a top-level heading
    is a line that starts with one [#] followed by a character of the
    line other than [#]. *)

(** The first block that starts a line: the text before it and the
    text after it. *)
Fixpoint spec_find_block (line_start : bool) (s : string) : option (string * string) :=
  match (if line_start then toc_block_end s else None) with
  | Some r => Some ("", r)
  | None =>
      match s with
      | String c s' =>
          match spec_find_block (Ascii.eqb c LF) s' with
          | Some (pre, r) => Some (String c pre, r)
          | None => None
          end
      | "" => None
      end
  end.

Definition spec_heading_line (s : string) : bool :=
  match s with
  | String a (String c _) =>
      Ascii.eqb a "#" && negb (Ascii.eqb c "#") && negb (Ascii.eqb c LF)
  | _ => false
  end.

(** The first top-level heading line: the text before the line, the
    line, and the text after it. *)
Fixpoint spec_find_heading (line_start : bool) (s : string)
  : option (string * string * string) :=
  if line_start && spec_heading_line s
  then Some ("", matched s (skip_while not_LF s), skip_while not_LF s)
  else match s with
       | String c s' =>
           match spec_find_heading (Ascii.eqb c LF) s' with
           | Some (pre, line, post) => Some (String c pre, line, post)
           | None => None
           end
       | "" => None
       end.

Definition spec_new_content (hs : list heading) (content : string) : string :=
  match spec_find_block true content with
  | Some (pre, post) => pre +:+ toc_content hs +:+ nl +:+ post
  | None =>
      match spec_find_heading true content with
      | Some (pre, line, post) =>
          pre +:+ line +:+ nl +:+ nl +:+ toc_content hs +:+ nl +:+ post
      | None => toc_content hs +:+ nl +:+ content
      end
  end.

(** A document with a subsection called Table of Contents, and its
    headings. *)
Definition doc_with_sub_toc : string :=
  "# Doc" +:+ nl +:+ nl +:+ "### Table of Contents" +:+ nl +:+ nl +:+ "text".

Definition doc_headings : list heading :=
  [(1, "Doc", "doc"); (3, "Table of Contents", "table-of-contents")].

(** *** Reading a block from the middle

    The scan for a block, started in any of its states: inside the
    title, with [k] of it still to come, or among the item lines. *)
Inductive scan_state : Type :=
  | InTitle (k : string)
  | InItems (q : line_state).

Definition scan (q : scan_state) (s : string) : option string :=
  match q with
  | InTitle k =>
      match strip_prefix k s with
      | Some s' => items_end LineStart s'
      | None => None
      end
  | InItems q => items_end q s
  end.

(** The states the scan for [toc_pattern] goes through. *)
Definition scan_reachable (q : scan_state) : Prop :=
  match q with
  | InTitle k => exists j, k = drop_str j toc_title
  | InItems _ => True
  end.

(** Two results of a scan that are both failures, or both successes
    with related remainders. *)
Definition both (X : string -> string -> Prop) (o1 o2 : option string) : Prop :=
  match o1, o2 with
  | None, None => True
  | Some a, Some b => X a b
  | _, _ => False
  end.

(** The title line of a table of contents, without its line feed. *)
Definition toc_heading : string := "## Table of Contents".

(** [t] occurs in [s]. *)
Definition occurs (t s : string) : Prop :=
  exists pre post, s = pre +:+ t +:+ post.

(** No backslash and no line feed. *)
Definition plain_char (c : ascii) : bool := not_backslash c && not_LF c.

(** A new [DocIndexer] over a file store. *)
Definition fresh_indexer (fs : gmap string (exn + string)) : state :=
  State ∅ ∅ ∅ fs ∅ [].

(** The text of [a.md] after one run, and after a second, fresh run. *)
Definition a_md_once : string :=
  "# Intro" +:+ nl +:+ nl
  +:+ "## Table of Contents" +:+ nl
  +:+ "- [Intro](#intro)" +:+ nl
  +:+ nl +:+ nl +:+ nl
  +:+ "Some PYTHON_SCRIPT and camelCaseWord here.".

Definition a_md_twice : string :=
  "# Intro" +:+ nl +:+ nl
  +:+ "## Table of Contents" +:+ nl
  +:+ "- [Intro](#intro)" +:+ nl
  +:+ "  - [Table of Contents](#table-of-contents)" +:+ nl
  +:+ nl +:+ nl +:+ nl
  +:+ "Some PYTHON_SCRIPT and camelCaseWord here.".

Definition b_md_once : string :=
  "## Table of Contents" +:+ nl
  +:+ "  - [Section](#section)" +:+ nl
  +:+ nl
  +:+ "## Section" +:+ nl +:+ nl +:+ "Another camelCaseWord.".

(** [INDEX.md] after a run on the two files of the scenario. *)
Definition scenario_index : string :=
  "# Documentation Index" +:+ nl +:+ nl
  +:+ "## Files" +:+ nl +:+ nl
  +:+ "### a.md" +:+ nl +:+ nl
  +:+ "- [Intro](a.md#intro)" +:+ nl +:+ nl
  +:+ "### b.md" +:+ nl +:+ nl
  +:+ "  - [Section](b.md#section)" +:+ nl +:+ nl
  +:+ "## Technical Terms" +:+ nl +:+ nl
  +:+ nl
  +:+ "## Acronyms" +:+ nl +:+ nl.

Definition three_files : node :=
  Dir [("a.md", File (inr a_md));
       ("notes.md", File (inr "plain text"));
       ("b.md", File (inr b_md))].

(** ** Further notions for the properties of the methods *)

(** What a character of an anchor is: its own lower case, and none of
    the space, the period and the two parentheses. *)
Definition anchor_char (c : ascii) : bool :=
  Ascii.eqb (lower_char c) c
  && negb (Ascii.eqb c " ") && negb (Ascii.eqb c ".")
  && negb (Ascii.eqb c "(") && negb (Ascii.eqb c ")").

(** The first character of a text is not white space (an empty text
    has none), and the same for the last one. *)
Definition starts_without_space (s : string) : Prop :=
  match s with String c _ => is_space c = false | "" => True end.

Definition ends_without_space (s : string) : Prop :=
  match last_char None s with Some c => is_space c = false | None => True end.

(** The texts a pattern can match, its anchors aside: what the
    characters, choices and repetitions of the pattern spell. *)
Inductive lang : regex -> string -> Prop :=
  | lang_eps : lang REps ""
  | lang_chr a : lang (RChr a) (String a "")
  | lang_set neg rs x : in_set neg rs x = true -> lang (RSet neg rs) (String x "")
  | lang_seq r1 r2 m1 m2 : lang r1 m1 -> lang r2 m2 -> lang (RSeq r1 r2) (m1 +:+ m2)
  | lang_alt_l r1 r2 m : lang r1 m -> lang (RAlt r1 r2) m
  | lang_alt_r r1 r2 m : lang r2 m -> lang (RAlt r1 r2) m
  | lang_star_nil r : lang (RStar r) ""
  | lang_star_cons r m1 m2 : lang r m1 -> lang (RStar r) m2 -> lang (RStar r) (m1 +:+ m2)
  | lang_bol : lang RBol ""
  | lang_eol : lang REol ""
  | lang_wordb : lang RWordB "".

(** Every character that the pattern can consume satisfies [P]. *)
Fixpoint atoms_in (P : ascii -> bool) (r : regex) : Prop :=
  match r with
  | RChr a => P a = true
  | RSet neg rs => forall x, in_set neg rs x = true -> P x = true
  | RSeq r1 r2 | RAlt r1 r2 => atoms_in P r1 /\ atoms_in P r2
  | RStar r1 => atoms_in P r1
  | REps | RBol | REol | RWordB => True
  end.

(** The character before a text is no word character, and the
    character after it is none: the text stands as a whole word. *)
Definition no_word_before (pre : string) : Prop :=
  match last_char None pre with Some c => is_word c = false | None => True end.

Definition no_word_after (post : string) : Prop :=
  match post with String c _ => is_word c = false | "" => True end.

(** The characters of a technical term: ASCII letters, the underscore
    and the hyphen. *)
Definition term_char (c : ascii) : bool :=
  is_ascii_letter c || Ascii.eqb c "_" || Ascii.eqb c "-".

(** What joins the parts of a technical term: a capital letter, an
    underscore or a hyphen. *)
Definition joint_char (c : ascii) : bool :=
  is_upper_az c || Ascii.eqb c "_" || Ascii.eqb c "-".

(** The words of a text: its maximal runs of word characters, from
    left to right.  [cur] is the word being read. *)
Definition emit_word (cur : string) : list string :=
  match cur with "" => [] | String _ _ => [cur] end.

Fixpoint words_from (cur : string) (s : string) : list string :=
  match s with
  | "" => emit_word cur
  | String a s' =>
      if is_word a then words_from (cur +:+ String a "") s'
      else emit_word cur ++ words_from "" s'
  end.

Definition words (s : string) : list string := words_from "" s.

(** A whole text of the form [[A-Z]{2,}s?]: after its capital letters,
    of which there are two or more, comes nothing or one [s]. *)
Definition is_acronym (w : string) : bool :=
  let u := skip_while is_upper_az w in
  (2 <=? String.length w - String.length u)
  && (String.eqb u "" || String.eqb u "s").

(** The end of the acronym pattern, [s?\b]. *)
Definition acronym_tail : regex := RSeq (ROpt (RChr "s")) (RSeq RWordB REps).

(** The character before a position is a word character. *)
Definition word_before (b : option ascii) : Prop :=
  exists c, b = Some c /\ is_word c = true.

(** The character before a position is none. *)
Definition no_word_here (b : option ascii) : Prop :=
  match b with Some c => is_word c = false | None => True end.

(** ** The effect of one file, apart from what is printed *)

(** A state without its printed lines. *)
Definition quiet (st : state) : state := set_stdout (fun _ => []) st.

(** What processing [file_path] adds to the tables and writes: the
    terms and acronyms found, the headings then on record for the
    file, and the new text of the file when it is rewritten; [None]
    when the file cannot be read or rendered. *)
Definition outcome (E : env) (file_path : string) (st : state)
  : option (list string * list string * list heading * option string) :=
  match files st !! file_path with
  | Some (inr content) =>
      match render E content with
      | inr raws =>
          let hs := recorded (relpath E file_path (root_dir E)) (toc st)
                    ++ map heading_entry raws in
          Some (re_findall term_pattern content,
                re_findall acronym_pattern content,
                hs,
                match hs with
                | [] => None
                | _ :: _ =>
                    match new_content hs content with
                    | inl _ => None
                    | inr out =>
                        match locked st !! file_path with
                        | Some _ => None
                        | None => Some out
                        end
                    end
                end)
      | inl _ => None
      end
  | _ => None
  end.

Definition apply_outcome (E : env) (file_path : string)
    (o : option (list string * list string * list heading * option string))
    (st : state) : state :=
  match o with
  | None => st
  | Some (ts, acs, hs, written) =>
      let rel_path := relpath E file_path (root_dir E) in
      State (add_all ts rel_path (terms st))
            (add_all acs rel_path (acronyms st))
            (<[rel_path := hs]> (toc st))
            (match written with
             | Some out => <[file_path := inr out]> (files st)
             | None => files st
             end)
            (locked st) (stdout st)
  end.

(** A letter that starts no escape of a replacement template: an ASCII
    letter other than [a], [b], [f], [g], [n], [r], [t] and [v]. *)
Definition bad_escape_letter (e : ascii) : bool :=
  is_ascii_letter e
  && negb (existsb (Ascii.eqb e) ["a"; "b"; "f"; "g"; "n"; "r"; "t"; "v"]%char).

(** A file whose first heading has a backslash escape that [re.sub]
    refuses, and that has a table of contents already. *)
Definition regex_notes : string :=
  "# Match \d+" +:+ nl +:+ nl +:+ "## Table of Contents" +:+ nl +:+ nl +:+ "text".

(** ** The run of [main], step by step *)

(** The state in which the loop of [main] starts: a new indexer, and
    the two lines printed before the loop. *)
Definition announced (E : env) (tree : node) (ro : gmap string exn) : state :=
  set_stdout
    (fun out =>
       out ++ ["Finding markdown files...";
               "Processing " +:+ nat_to_string (length (find_markdown_files E tree))
                 +:+ " files..."])
    (initial_state E tree ro).

(** The state in which the loop of [main] ends. *)
Definition loop_state (E : env) (tree : node) (ro : gmap string exn) : state :=
  fold_left (process_step E) (find_markdown_files E tree) (announced E tree ro).

Definition done_line : string :=
  "Done! Check INDEX.md for the complete documentation index.".

(** The index of a run that found nothing. *)
Definition empty_index : string :=
  "# Documentation Index" +:+ nl +:+ nl
  +:+ "## Files" +:+ nl +:+ nl
  +:+ "## Technical Terms" +:+ nl +:+ nl
  +:+ nl
  +:+ "## Acronyms" +:+ nl +:+ nl.

(** A directory without any Markdown file. *)
Definition no_documents : node := Dir [("notes.txt", File (inr "plain text"))].

(** A directory in which the script has run before. *)
Definition indexed_before : list (string * node) :=
  [("a.md", File (inr a_md_once)); ("INDEX.md", File (inr empty_index))].

(** ** Directory trees as a file system has them *)

Definition no_slash (c : ascii) : bool := negb (Ascii.eqb c "/").

(** A name of a directory entry: not empty, and without a slash. *)
Definition valid_name (name : string) : Prop :=
  name <> "" /\ str_all no_slash name = true.

(** The entries of every directory have valid names, each name once. *)
#[warnings="-register-all"]
Inductive wf_tree : node -> Prop :=
  | wf_file d : wf_tree (File d)
  | wf_dir es :
      NoDup (map fst es) ->
      Forall (fun e => valid_name (fst e) /\ wf_tree (snd e)) es ->
      wf_tree (Dir es).

(** What [os.path.join] puts in front of a name that is joined to
    [top]. *)
Definition join_prefix (top : string) : string :=
  if String.eqb top "" || endswith top "/" then top else top +:+ "/".

(** What the loop of [main] prints for one file: the line that
    announces it and, if processing it raised, the error line. *)
Definition log_entry (file_path : string) (raised : option exn) : list string :=
  ("Processing " +:+ file_path)
  :: match raised with Some e => [error_line file_path e] | None => [] end.

(** ** Inputs on which the placement of the table of contents goes wrong *)

(** A document whose second line follows a lone [#], and its one
    heading, the empty one. *)
Definition doc_with_bare_hash : string := "#" +:+ nl +:+ "foo" +:+ nl +:+ "bar".

Definition bare_hash_headings : list heading := [(1, "", "")].

(** A state with one document and a heading on record for it. *)
Definition one_document : state :=
  State ∅ ∅ {["d.md" := [(1, "C:\dir", "c:\dir")]]}
        {["./d.md" := inr "# Doc"]} ∅ [].

(** * Properties *)

(** ** Text *)

Lemma app_cons_str (c : ascii) (a b : string) :
  String c a +:+ b = String c (a +:+ b).
Proof. reflexivity. Qed.

Lemma app_nil_l_str (s : string) : "" +:+ s = s.
Proof. reflexivity. Qed.

Lemma app_nil_r_str (s : string) : s +:+ "" = s.
Proof.
  induction s as [|c s IH]; [reflexivity|].
  now rewrite app_cons_str, IH.
Qed.

Lemma app_assoc_str (a b c : string) : (a +:+ b) +:+ c = a +:+ (b +:+ c).
Proof.
  induction a as [|x a IH]; [reflexivity|].
  now rewrite !app_cons_str, IH.
Qed.

Lemma length_app_str (a b : string) :
  String.length (a +:+ b) = String.length a + String.length b.
Proof.
  induction a as [|x a IH]; [reflexivity|].
  rewrite app_cons_str. cbn. now rewrite IH.
Qed.

(** ** Anchors *)

Lemma replace_cons (old : ascii) (new : string) (c : ascii) (s : string) :
  replace old new (String c s) =
  if Ascii.eqb c old then new +:+ replace old new s
  else String c (replace old new s).
Proof. reflexivity. Qed.


Lemma anchor_of_cons (c : ascii) (s : string) :
  anchor_of (String c s) =
  let c' := lower_char c in
  if Ascii.eqb c' "." || Ascii.eqb c' "(" || Ascii.eqb c' ")"
  then anchor_of s
  else String (if Ascii.eqb c' " " then "-"%char else c') (anchor_of s).
Proof.
  unfold anchor_of, lower. cbn [str_map].
  set (c' := lower_char c). cbn zeta.
  rewrite replace_cons.
  destruct (Ascii.eqb_spec c' " ") as [->|Hsp].
  - reflexivity.
  - rewrite replace_cons.
    destruct (Ascii.eqb_spec c' ".") as [->|Hdot]; [reflexivity|].
    rewrite replace_cons.
    destruct (Ascii.eqb_spec c' "(") as [->|Hop]; [reflexivity|].
    rewrite replace_cons.
    destruct (Ascii.eqb_spec c' ")") as [->|Hcl]; reflexivity.
Qed.

Lemma anchor_of_spec (text : string) : anchor_of text = spec_anchor text.
Proof.
  induction text as [|c s IH]; [reflexivity|].
  rewrite anchor_of_cons. cbn [spec_anchor]. now rewrite IH.
Qed.

(** C3.  The anchor is a function of the heading text alone. For every
    heading element the recorded entry is the level, the stripped text
    and the anchor of that text; the anchor is the text in lower case
    with spaces turned into hyphens and every [.], [(] and [)] removed;
    and "Getting Started (Quickly)" gives "getting-started-quickly". *)
Theorem anchor_derivation :
  (forall h : nat * string,
      heading_entry h = (fst h, strip (snd h), anchor_of (strip (snd h))))
  /\ (forall text : string, anchor_of text = spec_anchor text)
  /\ anchor_of "Getting Started (Quickly)" = "getting-started-quickly".
Proof.
  split; [reflexivity|]. split; [exact anchor_of_spec|]. vm_compute. reflexivity.
Qed.

(** ** Discovery *)

(** Induction on a directory tree, with the hypothesis for every entry
    of a directory. *)
Lemma node_entries_ind (P : node -> Prop) :
  (forall d, P (File d)) ->
  (forall es, Forall (fun e => P (snd e)) es -> P (Dir es)) ->
  forall n, P n.
Proof.
  intros HF HD. fix IH 1. intros [d|es]; [apply HF|].
  apply HD. induction es as [|[name child] es IHes]; constructor; [apply IH|exact IHes].
Qed.

Lemma file_under_nonempty (n : node) (names : list string) :
  file_under n names -> names <> [].
Proof. destruct 1; discriminate. Qed.


Lemma in_file_names (es : list (string * node)) (name : string) :
  In name (file_names es) <-> exists d, In (name, File d) es.
Proof.
  unfold file_names. rewrite in_map_iff. split.
  - intros [[nm [d|es']] [Heq Hin]]; apply filter_In in Hin as [Hin Hf];
      cbn in *; subst; [eauto|discriminate].
  - intros [d Hin]. exists (name, File d). split; [reflexivity|].
    apply filter_In. split; [exact Hin|reflexivity].
Qed.

Lemma walk_lists_files (n : node) :
  forall top p,
    In p (flat_map listed (walk top n)) <->
    exists names, file_under n names
                  /\ is_markdown_name (List.last names "") = true
                  /\ p = path_of top names.
Proof.
  induction n as [d|es IH] using node_entries_ind; intros top p.
  - cbn. split; [tauto|]. intros (names & Hu & _). inversion Hu.
  - cbn [walk flat_map]. rewrite in_app_iff. split.
    + intros [Hhere|Hbelow].
      * cbn [listed] in Hhere. apply in_map_iff in Hhere as (name & <- & Hin).
        apply filter_In in Hin as [Hin Hmd].
        apply in_file_names in Hin as [d Hin].
        exists [name]. split; [econstructor; eassumption|]. split; [exact Hmd|reflexivity].
      * apply in_flat_map in Hbelow as (t & Ht & Hp).
        apply in_flat_map in Ht as ([name child] & Hin & Ht).
        rewrite List.Forall_forall in IH. specialize (IH _ Hin). cbn [fst snd] in *.
        assert (Hp' : In p (flat_map listed (walk (path_join top name) child))).
        { apply in_flat_map. eauto. }
        apply IH in Hp' as (names & Hu & Hmd & ->).
        exists (name :: names). split; [econstructor; eassumption|].
        split; [|reflexivity].
        destruct names as [|x names]; [now apply file_under_nonempty in Hu|exact Hmd].
    + intros (names & Hu & Hmd & ->). inversion Hu as [es' name d Hin|es' name child names' Hin Hu']; subst.
      * left. cbn [listed]. apply in_map_iff. exists name. split; [reflexivity|].
        apply filter_In. split; [|exact Hmd]. apply in_file_names. eauto.
      * right. rewrite List.Forall_forall in IH. specialize (IH _ Hin). cbn [fst snd] in IH.
        assert (Hp : In (path_of top (name :: names')) (flat_map listed (walk (path_join top name) child))).
        { apply IH. exists names'. split; [exact Hu'|]. split; [|reflexivity].
          destruct names' as [|x names']; [now apply file_under_nonempty in Hu'|exact Hmd]. }
        apply in_flat_map in Hp as (t & Ht & Hp).
        apply in_flat_map. exists t. split; [|exact Hp].
        apply in_flat_map. exists (name, child). split; [exact Hin|exact Ht].
Qed.

(** C8.  The File Discoverer returns exactly the paths of the files
    under the tree, at any depth, whose name ends in [.md] or
    [.markdown]: every such file is listed under the path that joins
    its directory names onto the root, whatever those directories are
    called, and nothing else is listed. *)
Theorem find_markdown_files_exact (E : env) (tree : node) (p : string) :
  In p (find_markdown_files E tree) <->
  exists names,
    file_under tree names
    /\ (endswith (List.last names "") ".md" = true
        \/ endswith (List.last names "") ".markdown" = true)
    /\ p = path_of (root_dir E) names.
Proof.
  unfold find_markdown_files. fold listed. rewrite walk_lists_files.
  split; intros (names & Hu & Hmd & Hp); exists names; (split; [exact Hu|]); (split; [|exact Hp]).
  - unfold is_markdown_name in Hmd. now apply orb_true_iff in Hmd.
  - unfold is_markdown_name. now apply orb_true_iff.
Qed.

(** ** The index *)

Section Sorted_items.
Context {V : Type}.

#[local] Instance key_le_total : Total (@key_le V).
Proof. intros p q. unfold key_le. apply total, _. Qed.

#[local] Instance key_le_trans : Transitive (@key_le V).
Proof. intros p q r. unfold key_le. apply transitivity. Qed.

Lemma sorted_items_perm (d : gmap string V) : sorted_items d ≡ₚ map_to_list d.
Proof. apply merge_sort_Permutation. Qed.

Lemma strongly_sorted_keys (l : list (string * V)) :
  StronglySorted key_le l -> StronglySorted String.le (map fst l).
Proof.
  induction 1 as [|p l Hl IH Hall]; cbn; constructor; [exact IH|].
  rewrite List.Forall_forall in *. intros k Hk.
  apply in_map_iff in Hk as (q & <- & Hq). now apply Hall.
Qed.

Lemma sorted_items_keys (d : gmap string V) :
  StronglySorted String.le (map fst (sorted_items d))
  /\ NoDup (map fst (sorted_items d)).
Proof.
  split.
  - apply strongly_sorted_keys, StronglySorted_merge_sort; apply _.
  - rewrite sorted_items_perm. apply NoDup_fst_map_to_list.
Qed.

End Sorted_items.

Lemma sorted_set_spec (s : gset string) :
  sorted_set s ≡ₚ elements s
  /\ StronglySorted String.le (sorted_set s)
  /\ NoDup (sorted_set s).
Proof.
  split; [apply merge_sort_Permutation|]. split.
  - apply StronglySorted_merge_sort; apply _.
  - unfold sorted_set. rewrite merge_sort_Permutation. apply NoDup_elements.
Qed.

(** The text of the index is, in this order, the title, the Files section,
    the Technical Terms section and the Acronyms section.  The Files
    section has one entry for every file of the table-of-contents
    mapping, the paths in increasing lexicographic order; each glossary
    has one entry for every key of its mapping, the keys in increasing
    lexicographic order; and under a key its files are linked in
    increasing lexicographic order, each once. *)
Theorem index_layout (st : state) :
  exists (fl : list (string * list heading)) (tl al : list (string * gset string)),
    index_content st =
      ("# Documentation Index" +:+ nl +:+ nl)
      +:+ ("## Files" +:+ nl +:+ nl)
      +:+ join (map index_file_entry fl)
      +:+ ("## Technical Terms" +:+ nl +:+ nl)
      +:+ join (map index_glossary_entry tl)
      +:+ nl
      +:+ ("## Acronyms" +:+ nl +:+ nl)
      +:+ join (map index_glossary_entry al)
    /\ (fl ≡ₚ map_to_list (toc st)
        /\ StronglySorted String.le (map fst fl) /\ NoDup (map fst fl))
    /\ (tl ≡ₚ map_to_list (terms st)
        /\ StronglySorted String.le (map fst tl) /\ NoDup (map fst tl))
    /\ (al ≡ₚ map_to_list (acronyms st)
        /\ StronglySorted String.le (map fst al) /\ NoDup (map fst al))
    /\ (forall item : string * gset string,
          exists linked : list string,
            index_glossary_entry item =
              ("- **" +:+ fst item +:+ "**" +:+ nl)
              +:+ join (map index_file_link linked)
            /\ linked ≡ₚ elements (snd item)
            /\ StronglySorted String.le linked /\ NoDup linked).
Proof.
  exists (sorted_items (toc st)), (sorted_items (terms st)), (sorted_items (acronyms st)).
  split.
  { unfold index_content, join. cbn [fold_right]. now rewrite app_nil_r_str. }
  split; [split; [apply sorted_items_perm|apply sorted_items_keys]|].
  split; [split; [apply sorted_items_perm|apply sorted_items_keys]|].
  split; [split; [apply sorted_items_perm|apply sorted_items_keys]|].
  intros item. exists (sorted_set (snd item)). split.
  - unfold index_glossary_entry. now rewrite !app_assoc_str.
  - apply sorted_set_spec.
Qed.

(** ** The state monad *)

Lemma state_eta (st : state) :
  State (terms st) (acronyms st) (toc st) (files st) (locked st) (stdout st) = st.
Proof. now destruct st. Qed.

Lemma for_each_modify {A} (l : list A) (f : A -> state -> state) (st : state) :
  for_each l (fun x => modify (f x)) st = (inr tt, fold_left (fun s x => f x s) l st).
Proof.
  revert st. induction l as [|x l IH]; intros st; [reflexivity|].
  cbn [for_each fold_left]. unfold bind at 1. cbn. apply IH.
Qed.

Lemma for_each_map {A B} (f : A -> B) (l : list A) (body : B -> M unit) :
  for_each l (fun x => body (f x)) = for_each (map f l) body.
Proof. induction l as [|x l IH]; [reflexivity|]. cbn. now rewrite IH. Qed.

Lemma fold_set_terms (keys : list string) (x : string) (st : state) :
  fold_left (fun s k => set_terms (dd_add k x) s) keys st
  = set_terms (add_all keys x) st.
Proof.
  revert st. induction keys as [|k keys IH]; intros st.
  - unfold set_terms, add_all. cbn. now rewrite state_eta.
  - cbn [fold_left]. rewrite IH. reflexivity.
Qed.

Lemma fold_set_acronyms (keys : list string) (x : string) (st : state) :
  fold_left (fun s k => set_acronyms (dd_add k x) s) keys st
  = set_acronyms (add_all keys x) st.
Proof.
  revert st. induction keys as [|k keys IH]; intros st.
  - unfold set_acronyms, add_all. cbn. now rewrite state_eta.
  - cbn [fold_left]. rewrite IH. reflexivity.
Qed.

Lemma extract_terms_and_acronyms_run (content rel : string) (st : state) :
  extract_terms_and_acronyms content rel st
  = (inr tt, set_acronyms (add_all (re_findall acronym_pattern content) rel)
               (set_terms (add_all (re_findall term_pattern content) rel) st)).
Proof.
  unfold extract_terms_and_acronyms, bind.
  rewrite for_each_modify, fold_set_terms. cbn.
  now rewrite for_each_modify, fold_set_acronyms.
Qed.

(** The appends of [extract_headings]: nothing is touched when there is
    no heading, otherwise the new entries follow those on record. *)
Lemma for_each_toc_append (rel : string) (hs : list heading) (st : state) :
  for_each hs (toc_append rel) st
  = (inr tt,
     match hs with
     | [] => st
     | _ :: _ => set_toc (fun m => <[rel := recorded rel m ++ hs]> m) st
     end).
Proof.
  revert st. induction hs as [|h hs IH]; intros st; [reflexivity|].
  cbn [for_each]. unfold bind at 1.
  assert (Hstep : toc_append rel h st
                  = (inr tt, set_toc (fun m => <[rel := recorded rel m ++ [h]]> m) st)).
  { unfold toc_append, bind, toc_item, recorded, modify.
    destruct st as [t a m f l o]. cbn.
    destruct (m !! rel) as [old|] eqn:Hm; unfold set_toc; cbn; rewrite ?Hm; cbn;
      [reflexivity|].
    now rewrite insert_insert_eq. }
  rewrite Hstep, IH. f_equal.
  destruct st as [t a m f l o]. unfold set_toc, recorded. cbn.
  destruct hs as [|h' hs]; [reflexivity|]. cbn.
  rewrite lookup_insert_eq, insert_insert_eq. cbn.
  now rewrite <- app_assoc.
Qed.

Section Process.
Variable E : env.

Lemma extract_headings_run (content rel : string) (st : state) :
  extract_headings E content rel st
  = match render E content with
    | inl e => (inl e, st)
    | inr raws =>
        (inr tt,
         match raws with
         | [] => st
         | _ :: _ =>
             set_toc (fun m => <[rel := recorded rel m ++ map heading_entry raws]> m) st
         end)
    end.
Proof.
  unfold extract_headings, bind, lift.
  destruct (render E content) as [e|raws]; [reflexivity|]. cbn.
  rewrite for_each_map, for_each_toc_append. destruct raws; reflexivity.
Qed.

(** What [process_file] does inside its [try], case by case. *)
Lemma process_file_body_run (file_path : string) (st : state) :
  process_file_body E file_path st
  = match files st !! file_path with
    | None => (inl (no_such_file file_path), st)
    | Some (inl e) => (inl e, st)
    | Some (inr content) =>
        match render E content with
        | inl e => (inl e, st)
        | inr raws =>
            let st' := extracted E file_path content raws st in
            match recorded (relpath E file_path (root_dir E)) (toc st)
                  ++ map heading_entry raws with
            | [] => (inr tt, st')
            | (_ :: _) as hs =>
                match new_content hs content with
                | inl e => (inl e, st')
                | inr out =>
                    match locked st !! file_path with
                    | Some e => (inl e, st')
                    | None =>
                        (inr tt, set_files (fun fs => <[file_path := inr out]> fs) st')
                    end
                end
            end
        end
    end.
Proof.
  unfold process_file_body, bind at 1, read_file.
  destruct (files st !! file_path) as [[e|content]|]; [reflexivity| |reflexivity].
  unfold bind at 1. rewrite extract_headings_run.
  destruct (render E content) as [e|raws]; [reflexivity|].
  set (rel := relpath E file_path (root_dir E)).
  unfold bind at 1. rewrite extract_terms_and_acronyms_run.
  cbn zeta.
  assert (Hst : forall st0,
    bind (toc_item rel) (fun hs => match hs with
                                   | [] => ret tt
                                   | _ :: _ => update_file_toc E file_path content
                                   end) st0
    = let st1 := set_toc (fun m => <[rel := recorded rel m]> m) st0 in
      match recorded rel (toc st0) with
      | [] => (inr tt, st1)
      | (_ :: _) as hs =>
          match new_content hs content with
          | inl e => (inl e, st1)
          | inr out =>
              match locked st0 !! file_path with
              | Some e => (inl e, st1)
              | None => (inr tt, set_files (fun fs => <[file_path := inr out]> fs) st1)
              end
          end
      end).
  { intros [t a m f l o]. unfold bind, toc_item, recorded, set_toc. cbn.
    destruct (m !! rel) as [[|h hs]|] eqn:Hm; cbn.
    - now rewrite insert_id.
    - unfold update_file_toc, bind, toc_item. fold rel. cbn. rewrite Hm.
      rewrite (insert_id m rel (h :: hs)) by exact Hm.
      unfold lift. destruct (new_content (h :: hs) content) as [e|out]; [reflexivity|].
      cbn. unfold write_file. cbn. destruct (l !! file_path); reflexivity.
    - reflexivity. }
  rewrite Hst. clear Hst. unfold extracted. fold rel.
  destruct st as [t a m f l o]. destruct raws as [|r raws].
  - unfold set_acronyms, set_terms, set_toc, recorded. cbn [toc map locked].
    rewrite app_nil_r. reflexivity.
  - unfold set_acronyms, set_terms, set_toc, recorded. cbn [toc locked].
    rewrite !lookup_insert_eq. cbn [default]. rewrite insert_insert_eq.
    reflexivity.
Qed.

End Process.

Section Containment.
Variable E : env.

Lemma process_file_run (file_path : string) (st : state) :
  process_file E file_path st
  = match process_file_body E file_path st with
    | (inl e, st1) => (inr tt, logged file_path e st1)
    | (inr tt, st1) => (inr tt, st1)
    end.
Proof.
  unfold process_file, try_except.
  destruct (process_file_body E file_path st) as [[e|[]] st1]; reflexivity.
Qed.

Lemma process_file_returns (file_path : string) (st : state) :
  fst (process_file E file_path st) = inr tt.
Proof.
  rewrite process_file_run.
  destruct (process_file_body E file_path st) as [[e|[]] st1]; reflexivity.
Qed.

Lemma process_all_run (paths : list string) (st : state) :
  process_all E paths st = (inr tt, fold_left (process_step E) paths st).
Proof.
  revert st. induction paths as [|p paths IH]; intros st; [reflexivity|].
  unfold process_all in *. cbn [for_each fold_left]. unfold bind at 1.
  unfold bind at 1. unfold print at 1, modify at 1.
  pose proof (process_file_returns p (set_stdout (fun out => out ++ ["Processing " +:+ p]) st)) as Hret.
  unfold process_step at 2. unfold print, modify. cbn [snd].
  destruct (process_file E p _) as [r st1]. cbn in Hret. subst r.
  apply IH.
Qed.

(** C5.  Whatever exception the body of [process_file] raises,
    [process_file] catches it, prints one line made of the file path
    and the message of the exception, and returns normally; when
    nothing is raised it returns the state of the body.  This covers
    the exceptions of reading (a file that is missing or cannot be
    decoded), of extracting (the renderer raising) and of rewriting
    ([re.sub] refusing the replacement, the file not opening for
    writing).  The loop over the files therefore never stops early: it
    returns normally, having gone through every file in turn. *)
Theorem process_file_contains_errors (file_path : string) (st : state) :
  (match process_file_body E file_path st with
   | (inl e, st1) =>
       process_file E file_path st =
       (inr tt,
        set_stdout
          (fun out => out ++ ["Error processing " +:+ file_path +:+ ": " +:+ exn_msg e])
          st1)
   | (inr tt, st1) => process_file E file_path st = (inr tt, st1)
   end)
  /\ (files st !! file_path = None ->
      process_file E file_path st
      = (inr tt, logged file_path (no_such_file file_path) st))
  /\ (forall e, files st !! file_path = Some (inl e) ->
      process_file E file_path st = (inr tt, logged file_path e st))
  /\ (forall content e,
        files st !! file_path = Some (inr content) ->
        render E content = inl e ->
        process_file E file_path st = (inr tt, logged file_path e st))
  /\ (forall content raws e,
        files st !! file_path = Some (inr content) ->
        render E content = inr raws ->
        let st' := extracted E file_path content raws st in
        let hs := recorded (relpath E file_path (root_dir E)) (toc st)
                  ++ map heading_entry raws in
        hs <> [] ->
        new_content hs content = inl e
        \/ (exists out, new_content hs content = inr out)
           /\ locked st !! file_path = Some e ->
        process_file E file_path st = (inr tt, logged file_path e st'))
  /\ fst (process_file E file_path st) = inr tt
  /\ (forall paths : list string,
        process_all E paths st = (inr tt, fold_left (process_step E) paths st)).
Proof.
  split; [|split; [|split; [|split; [|split; [|split]]]]].
  - rewrite process_file_run.
    destruct (process_file_body E file_path st) as [[e|[]] st1]; reflexivity.
  - intros Hf. now rewrite process_file_run, process_file_body_run, Hf.
  - intros e Hf. now rewrite process_file_run, process_file_body_run, Hf.
  - intros content e Hf Hr. now rewrite process_file_run, process_file_body_run, Hf, Hr.
  - intros content raws e Hf Hr st' hs Hhs Hraise.
    rewrite process_file_run, process_file_body_run, Hf, Hr. cbn zeta.
    fold st'. fold hs. destruct hs as [|h hs]; [congruence|].
    destruct Hraise as [->|[[out ->] Hl]]; [reflexivity|]. now rewrite Hl.
  - apply process_file_returns.
  - intros paths. apply process_all_run.
Qed.

End Containment.

(** ** What one file changes *)

Lemma add_all_lookup (keys : list string) (x k : string) (d : gmap string (gset string)) :
  add_all keys x d !! k =
  if decide (k ∈ keys) then Some (files_of k d ∪ {[x]}) else d !! k.
Proof.
  unfold add_all, files_of. revert d. induction keys as [|k' keys IH]; intros d.
  - cbn. now rewrite decide_False by apply not_elem_of_nil.
  - cbn [fold_left]. rewrite IH. unfold dd_add.
    destruct (decide (k = k')) as [->|Hne].
    + rewrite lookup_insert_eq. cbn.
      rewrite (decide_True (P := k' ∈ k' :: keys)) by (apply elem_of_cons; now left).
      destruct (decide (k' ∈ keys)); [|reflexivity].
      now rewrite <- (assoc_L (∪)), (idemp_L (∪) {[x]}).
    + rewrite lookup_insert_ne by congruence.
      destruct (decide (k ∈ keys)) as [Hin|Hnin].
      * now rewrite decide_True by (apply elem_of_cons; now right).
      * rewrite decide_False; [reflexivity|].
        intros Hin. apply elem_of_cons in Hin as [?|?]; congruence.
Qed.

Lemma files_of_add_all (keys : list string) (x k : string) (d : gmap string (gset string)) :
  files_of k (add_all keys x d) =
  if decide (k ∈ keys) then files_of k d ∪ {[x]} else files_of k d.
Proof.
  unfold files_of at 1. rewrite add_all_lookup.
  destruct (decide (k ∈ keys)); reflexivity.
Qed.

Section Process_facts.
Variable E : env.

(** The state [process_file] leaves, field by field. *)
Lemma process_file_fields (p : string) (st : state) :
  let st' := snd (process_file E p st) in
  locked st' = locked st
  /\ (forall q, q <> p -> files st' !! q = files st !! q)
  /\ (match files st !! p with
      | Some (inr content) =>
          match render E content with
          | inr raws =>
              terms st' = add_all (re_findall term_pattern content) (relpath E p (root_dir E)) (terms st)
              /\ acronyms st' =
                   add_all (re_findall acronym_pattern content) (relpath E p (root_dir E)) (acronyms st)
              /\ toc st' =
                   <[relpath E p (root_dir E) := recorded (relpath E p (root_dir E)) (toc st) ++ map heading_entry raws]> (toc st)
              /\ (recorded (relpath E p (root_dir E)) (toc st) ++ map heading_entry raws = [] ->
                  files st' = files st /\ stdout st' = stdout st)
          | inl _ => terms st' = terms st /\ acronyms st' = acronyms st
                     /\ toc st' = toc st /\ files st' = files st
          end
      | _ => terms st' = terms st /\ acronyms st' = acronyms st
             /\ toc st' = toc st /\ files st' = files st
      end).
Proof.
  cbn zeta. rewrite process_file_run, process_file_body_run.
  destruct (files st !! p) as [[e|content]|] eqn:Hf; cbn [snd]; try tauto.
  destruct (render E content) as [e|raws] eqn:Hr; cbn [snd]; try tauto.
  cbn zeta.
  destruct (recorded (relpath E p (root_dir E)) (toc st) ++ map heading_entry raws)
    as [|h hs] eqn:Hall.
  { unfold extracted. rewrite Hall. cbn. repeat split; auto. }
  destruct (new_content (h :: hs) content) as [e|out].
  { unfold extracted. rewrite Hall. cbn. repeat split; auto; discriminate. }
  destruct (locked st !! p) as [e|] eqn:Hl.
  { unfold extracted. rewrite Hall. cbn. repeat split; auto; discriminate. }
  unfold extracted. rewrite Hall. cbn. repeat split; auto; try discriminate.
  intros q Hq. now rewrite lookup_insert_ne by congruence.
Qed.

(** A file in which no heading is found, and for which none is on
    record, is not written: processing it returns normally and leaves
    the whole file store as it was; nothing is printed either. *)
Lemma process_file_no_heading (file_path content : string) (st : state) :
  files st !! file_path = Some (inr content) ->
  render E content = inr [] ->
  recorded (relpath E file_path (root_dir E)) (toc st) = [] ->
  let st' := snd (process_file E file_path st) in
  fst (process_file E file_path st) = inr tt
  /\ files st' = files st
  /\ stdout st' = stdout st.
Proof.
  intros Hf Hr Hrec st'.
  pose proof (process_file_fields file_path st) as (_ & _ & H).
  rewrite Hf, Hr, Hrec in H. cbn in H. destruct H as (_ & _ & _ & H).
  destruct (H eq_refl) as [Hfiles Hout]. fold st' in Hfiles, Hout.
  split; [apply process_file_returns|]. split; [exact Hfiles|exact Hout].
Qed.

(** The same for one turn of the loop of [main]. *)
Lemma process_step_fields (p : string) (st : state) :
  let st' := process_step E st p in
  locked st' = locked st
  /\ (forall q, q <> p -> files st' !! q = files st !! q)
  /\ (match files st !! p with
      | Some (inr content) =>
          match render E content with
          | inr raws =>
              terms st' = add_all (re_findall term_pattern content)
                            (relpath E p (root_dir E)) (terms st)
              /\ acronyms st' = add_all (re_findall acronym_pattern content)
                                  (relpath E p (root_dir E)) (acronyms st)
              /\ toc st' =
                   <[relpath E p (root_dir E) :=
                       recorded (relpath E p (root_dir E)) (toc st)
                       ++ map heading_entry raws]> (toc st)
          | inl _ => terms st' = terms st /\ acronyms st' = acronyms st
                     /\ toc st' = toc st
          end
      | _ => terms st' = terms st /\ acronyms st' = acronyms st
             /\ toc st' = toc st
      end).
Proof.
  cbn zeta. unfold process_step, print, modify. cbn [snd].
  set (st1 := set_stdout _ st).
  pose proof (process_file_fields p st1) as (Hl & Hq & H).
  change (files st1) with (files st) in *. change (toc st1) with (toc st) in *.
  change (terms st1) with (terms st) in *. change (acronyms st1) with (acronyms st) in *.
  change (locked st1) with (locked st) in *.
  split; [exact Hl|]. split; [exact Hq|].
  destruct (files st !! p) as [[e|content]|]; try tauto.
  destruct (render E content) as [e|raws]; tauto.
Qed.

End Process_facts.

(** ** The glossaries *)

Lemma keys_inhabited_empty : keys_inhabited ∅.
Proof. intros k [S HS]. now rewrite lookup_empty in HS. Qed.

Lemma keys_inhabited_add_all (keys : list string) (x : string) (d : gmap string (gset string)) :
  keys_inhabited d -> keys_inhabited (add_all keys x d).
Proof.
  intros Hd k Hk. rewrite files_of_add_all. rewrite add_all_lookup in Hk.
  destruct (decide (k ∈ keys)); [exists x; set_solver|now apply Hd].
Qed.

Lemma add_all_grows (keys : list string) (x k : string) (d : gmap string (gset string)) :
  files_of k d ⊆ files_of k (add_all keys x d)
  /\ (is_Some (d !! k) -> is_Some (add_all keys x d !! k)).
Proof.
  rewrite files_of_add_all, add_all_lookup.
  destruct (decide (k ∈ keys)); split; eauto; set_solver.
Qed.

Section Glossary.
Variable E : env.
Variable get : state -> gmap string (gset string).
Variable pat : regex.
Hypothesis get_step : forall st p,
  get (process_step E st p) =
  match files st !! p with
  | Some (inr content) =>
      match render E content with
      | inr _ => add_all (re_findall pat content) (relpath E p (root_dir E)) (get st)
      | inl _ => get st
      end
  | _ => get st
  end.

Lemma step_grows (st : state) (p k : string) :
  files_of k (get st) ⊆ files_of k (get (process_step E st p))
  /\ (is_Some (get st !! k) -> is_Some (get (process_step E st p) !! k)).
Proof.
  rewrite get_step.
  destruct (files st !! p) as [[e|content]|]; [easy| |easy].
  destruct (render E content); [easy|]. apply add_all_grows.
Qed.

Lemma step_keys_inhabited (st : state) (p : string) :
  keys_inhabited (get st) -> keys_inhabited (get (process_step E st p)).
Proof.
  rewrite get_step.
  destruct (files st !! p) as [[e|content]|]; [easy| |easy].
  destruct (render E content); [easy|]. apply keys_inhabited_add_all.
Qed.

Lemma step_files_of (st : state) (p k r : string) :
  r ∈ files_of k (get (process_step E st p)) <->
  r ∈ files_of k (get st) \/ indexed E pat st [p] k r.
Proof.
  rewrite get_step. unfold indexed, readable. split.
  - destruct (files st !! p) as [[e|content]|] eqn:Hf; [auto| |auto].
    destruct (render E content) as [e|raws] eqn:Hr; [auto|].
    rewrite files_of_add_all. destruct (decide (k ∈ re_findall pat content)); [|auto].
    rewrite elem_of_union, elem_of_singleton. intros [?| ->]; [auto|].
    right. exists p, content, raws. rewrite list_elem_of_singleton. auto.
  - intros [Hin|(q & content & raws & Hq & <- & [Hf Hr] & Hk)].
    + destruct (files st !! p) as [[e|content]|]; [easy| |easy].
      destruct (render E content); [easy|]. now apply add_all_grows.
    + apply list_elem_of_singleton in Hq as ->. rewrite Hf, Hr, files_of_add_all.
      rewrite decide_True by exact Hk. set_solver.
Qed.

Lemma indexed_cons (st : state) (p : string) (paths : list string) (k r : string) :
  indexed E pat st (p :: paths) k r <->
  indexed E pat st [p] k r \/ indexed E pat st paths k r.
Proof.
  unfold indexed. split.
  - intros (q & content & raws & Hq & H). apply elem_of_cons in Hq as [->|Hq].
    + left. exists p, content, raws. rewrite list_elem_of_singleton. auto.
    + right. exists q, content, raws. auto.
  - intros [(q & content & raws & Hq & H)|(q & content & raws & Hq & H)];
      exists q, content, raws; (split; [|exact H]); apply elem_of_cons.
    + apply list_elem_of_singleton in Hq. auto.
    + auto.
Qed.

Lemma indexed_same_files (st st' : state) (paths : list string) (k r : string) :
  (forall q, q ∈ paths -> files st' !! q = files st !! q) ->
  indexed E pat st' paths k r <-> indexed E pat st paths k r.
Proof.
  intros Hsame. unfold indexed, readable.
  split; intros (q & content & raws & Hq & Hr & [Hf Hren] & Hk);
    exists q, content, raws; repeat split; auto.
  - now rewrite <- Hsame.
  - now rewrite Hsame.
Qed.

Lemma fold_files_of (paths : list string) :
  NoDup paths ->
  forall (st : state) (k r : string),
    r ∈ files_of k (get (fold_left (process_step E) paths st)) <->
    r ∈ files_of k (get st) \/ indexed E pat st paths k r.
Proof.
  induction 1 as [|p paths Hp Hnd IH]; intros st k r.
  - cbn. split; [auto|]. intros [?|(q & ? & ? & Hq & _)]; [easy|].
    now apply elem_of_nil in Hq.
  - cbn [fold_left]. rewrite IH, step_files_of, (indexed_cons st p paths).
    rewrite (indexed_same_files st (process_step E st p)); [tauto|].
    intros q Hq. apply process_step_fields. intros ->. contradiction.
Qed.

Lemma fold_keys_inhabited (paths : list string) (st : state) :
  keys_inhabited (get st) -> keys_inhabited (get (fold_left (process_step E) paths st)).
Proof.
  revert st. induction paths as [|p paths IH]; intros st Hst; [exact Hst|].
  cbn [fold_left]. apply IH, step_keys_inhabited, Hst.
Qed.

End Glossary.

Lemma terms_step (E : env) (st : state) (p : string) :
  terms (process_step E st p) =
  match files st !! p with
  | Some (inr content) =>
      match render E content with
      | inr _ => add_all (re_findall term_pattern content)
                   (relpath E p (root_dir E)) (terms st)
      | inl _ => terms st
      end
  | _ => terms st
  end.
Proof.
  pose proof (process_step_fields E p st) as (_ & _ & H). cbn zeta in H.
  destruct (files st !! p) as [[e|content]|]; try tauto.
  destruct (render E content); tauto.
Qed.

Lemma acronyms_step (E : env) (st : state) (p : string) :
  acronyms (process_step E st p) =
  match files st !! p with
  | Some (inr content) =>
      match render E content with
      | inr _ => add_all (re_findall acronym_pattern content)
                   (relpath E p (root_dir E)) (acronyms st)
      | inl _ => acronyms st
      end
  | _ => acronyms st
  end.
Proof.
  pose proof (process_step_fields E p st) as (_ & _ & H). cbn zeta in H.
  destruct (files st !! p) as [[e|content]|]; try tauto.
  destruct (render E content); tauto.
Qed.

Lemma process_file_grows (E : env) (st : state) (p key : string) :
  (files_of key (terms st) ⊆ files_of key (terms (snd (process_file E p st)))
   /\ (is_Some (terms st !! key) ->
       is_Some (terms (snd (process_file E p st)) !! key)))
  /\ (files_of key (acronyms st) ⊆ files_of key (acronyms (snd (process_file E p st)))
      /\ (is_Some (acronyms st !! key) ->
          is_Some (acronyms (snd (process_file E p st)) !! key))).
Proof.
  pose proof (process_file_fields E p st) as (_ & _ & H). cbn zeta in H.
  destruct (files st !! p) as [[e|content]|].
  - destruct H as (-> & -> & _). easy.
  - destruct (render E content).
    + destruct H as (-> & -> & _). easy.
    + destruct H as (-> & -> & _). split; apply add_all_grows.
  - destruct H as (-> & -> & _). easy.
Qed.

(** C7.  After the files of a run have been processed, starting from
    empty glossaries, the file set of a key of the term glossary is
    exactly the set of the relative paths of the processed files in
    whose text the term pattern matched that very string, and likewise
    for the acronym glossary; every key has at least one file.  Along
    the way the glossaries only grow: processing a file removes no key
    and no file of a key. *)
Theorem glossary_exact (E : env) (paths : list string) (st : state) :
  NoDup paths ->
  terms st = ∅ ->
  acronyms st = ∅ ->
  let st' := snd (process_all E paths st) in
  (forall key r,
      r ∈ files_of key (terms st') <-> indexed E term_pattern st paths key r)
  /\ (forall key r,
        r ∈ files_of key (acronyms st') <-> indexed E acronym_pattern st paths key r)
  /\ (forall key, is_Some (terms st' !! key) -> exists r, r ∈ files_of key (terms st'))
  /\ (forall key, is_Some (acronyms st' !! key) ->
                  exists r, r ∈ files_of key (acronyms st'))
  /\ (forall (s : state) (p key : string),
        (files_of key (terms s) ⊆ files_of key (terms (snd (process_file E p s)))
         /\ (is_Some (terms s !! key) ->
             is_Some (terms (snd (process_file E p s)) !! key)))
        /\ (files_of key (acronyms s)
              ⊆ files_of key (acronyms (snd (process_file E p s)))
            /\ (is_Some (acronyms s !! key) ->
                is_Some (acronyms (snd (process_file E p s)) !! key)))).
Proof.
  intros Hnd Ht Ha st'. unfold st'. rewrite process_all_run. cbn [snd].
  split; [|split; [|split; [|split]]].
  - intros key r. rewrite (fold_files_of E terms term_pattern (terms_step E) paths Hnd).
    unfold files_of at 1. rewrite Ht, lookup_empty. cbn [default].
    rewrite elem_of_empty. tauto.
  - intros key r.
    rewrite (fold_files_of E acronyms acronym_pattern (acronyms_step E) paths Hnd).
    unfold files_of at 1. rewrite Ha, lookup_empty. cbn [default].
    rewrite elem_of_empty. tauto.
  - apply (fold_keys_inhabited E terms term_pattern (terms_step E)).
    rewrite Ht. apply keys_inhabited_empty.
  - apply (fold_keys_inhabited E acronyms acronym_pattern (acronyms_step E)).
    rewrite Ha. apply keys_inhabited_empty.
  - intros s p key. apply process_file_grows.
Qed.

(** C7, on the two files of the scenario. *)
Lemma glossary_exact_witness :
  NoDup ["./a.md"; "./b.md"]
  /\ forall key r,
       r ∈ files_of key
             (terms (snd (process_all here ["./a.md"; "./b.md"]
                            (initial_state here two_files ∅))))
       <-> indexed here term_pattern (initial_state here two_files ∅)
             ["./a.md"; "./b.md"] key r.
Proof.
  assert (Hnd : NoDup ["./a.md"; "./b.md"]).
  { apply NoDup_cons. split; [|apply NoDup_singleton].
    rewrite list_elem_of_singleton. discriminate. }
  split; [exact Hnd|].
  exact (proj1 (glossary_exact here ["./a.md"; "./b.md"]
                  (initial_state here two_files ∅) Hnd eq_refl eq_refl)).
Defined.

(** ** Files without headings in the index *)

Lemma join_app (l1 l2 : list string) : join (l1 ++ l2) = join l1 +:+ join l2.
Proof.
  induction l1 as [|x l1 IH]; [reflexivity|].
  cbn [app]. unfold join in *. cbn [fold_right]. now rewrite IH, app_assoc_str.
Qed.

Lemma join_cons (x : string) (l : list string) : join (x :: l) = x +:+ join l.
Proof. reflexivity. Qed.

Lemma sorted_items_elem {V} (d : gmap string V) (k : string) (v : V) :
  (k, v) ∈ sorted_items d <-> d !! k = Some v.
Proof.
  unfold sorted_items. rewrite merge_sort_Permutation. apply elem_of_map_to_list.
Qed.

Lemma fold_toc_other (E : env) (rel : string) (paths : list string) (st : state) :
  (forall q, q ∈ paths -> relpath E q (root_dir E) <> rel) ->
  toc (fold_left (process_step E) paths st) !! rel = toc st !! rel.
Proof.
  revert st. induction paths as [|p paths IH]; intros st Hne; [reflexivity|].
  cbn [fold_left]. rewrite IH by (intros q Hq; apply Hne, elem_of_cons; auto).
  assert (Hp : relpath E p (root_dir E) <> rel) by (apply Hne, elem_of_cons; auto).
  pose proof (process_step_fields E p st) as (_ & _ & H). cbn zeta in H.
  destruct (files st !! p) as [[e|content]|].
  - now destruct H as (_ & _ & ->).
  - destruct (render E content).
    + now destruct H as (_ & _ & ->).
    + destruct H as (_ & _ & ->). now rewrite lookup_insert_ne.
  - now destruct H as (_ & _ & ->).
Qed.

(** A file that is read and rendered without any heading, and has no
    entry yet, gets one all the same; the entry stays while files with
    other relative paths are processed, and shows in the index. *)
Lemma empty_entry_kept (E : env) (file_path content : string)
    (later : list string) (st : state) :
  files st !! file_path = Some (inr content) ->
  render E content = inr [] ->
  toc st !! relpath E file_path (root_dir E) = None ->
  (forall q, q ∈ later ->
             relpath E q (root_dir E) <> relpath E file_path (root_dir E)) ->
  let rel_path := relpath E file_path (root_dir E) in
  let st1 := snd (process_file E file_path st) in
  let st2 := snd (process_all E later st1) in
  toc st1 = <[rel_path := []]> (toc st)
  /\ toc st2 !! rel_path = Some []
  /\ exists before after,
       sorted_items (toc st2) = before ++ (rel_path, []) :: after
       /\ index_content st2 =
            ("# Documentation Index" +:+ nl +:+ nl)
            +:+ ("## Files" +:+ nl +:+ nl)
            +:+ join (map index_file_entry before)
            +:+ ("### " +:+ rel_path +:+ nl +:+ nl +:+ nl)
            +:+ join (map index_file_entry after)
            +:+ ("## Technical Terms" +:+ nl +:+ nl)
            +:+ join (map index_glossary_entry (sorted_items (terms st2)))
            +:+ nl
            +:+ ("## Acronyms" +:+ nl +:+ nl)
            +:+ join (map index_glossary_entry (sorted_items (acronyms st2))).
Proof.
  intros Hf Hr Hnone Hother rel_path st1 st2.
  assert (Htoc1 : toc st1 = <[rel_path := []]> (toc st)).
  { pose proof (process_file_fields E file_path st) as (_ & _ & H). cbn zeta in H.
    rewrite Hf, Hr in H. destruct H as (_ & _ & H & _).
    unfold st1, rel_path. rewrite H. unfold recorded. now rewrite Hnone. }
  assert (Htoc2 : toc st2 !! rel_path = Some []).
  { unfold st2. rewrite process_all_run. cbn [snd].
    rewrite fold_toc_other by exact Hother. rewrite Htoc1. apply lookup_insert_eq. }
  split; [exact Htoc1|]. split; [exact Htoc2|].
  apply sorted_items_elem, list_elem_of_split in Htoc2 as (before & after & Hsplit).
  exists before, after. split; [exact Hsplit|].
  unfold index_content. rewrite Hsplit, map_app, join_app. cbn [map].
  rewrite !join_cons. unfold index_file_entry at 2. cbn [fst snd map].
  change (join []) with "". rewrite !app_nil_r_str, !app_nil_l_str.
  now rewrite !app_assoc_str.
Qed.

(** ** Matching *)

Lemma flat_map_single {A B} (f : A -> list B) (x : A) : flat_map f [x] = f x.
Proof. cbn. apply app_nil_r. Qed.

Lemma matches_seq_assoc (r1 r2 r3 : regex) (c : cursor) :
  matches (RSeq (RSeq r1 r2) r3) c = matches (RSeq r1 (RSeq r2 r3)) c.
Proof.
  cbn [matches]. induction (matches r1 c) as [|c1 l IH]; [reflexivity|].
  cbn [flat_map]. now rewrite flat_map_app, IH.
Qed.

Lemma matches_chr_seq (a : ascii) (r : regex) (b : option ascii) (s : string) :
  matches (RSeq (RChr a) r) (Cursor b s) =
  match s with
  | String x s' => if Ascii.eqb a x then matches r (Cursor (Some x) s') else []
  | "" => []
  end.
Proof.
  cbn [matches]. unfold step_char. cbn [rest].
  destruct s as [|x s']; [reflexivity|].
  destruct (Ascii.eqb a x); [apply flat_map_single|reflexivity].
Qed.

Lemma matches_set_seq (neg : bool) (rs : list (ascii * ascii)) (r : regex)
    (b : option ascii) (s : string) :
  matches (RSeq (RSet neg rs) r) (Cursor b s) =
  match s with
  | String x s' => if in_set neg rs x then matches r (Cursor (Some x) s') else []
  | "" => []
  end.
Proof.
  cbn [matches]. unfold step_char. cbn [rest].
  destruct s as [|x s']; [reflexivity|].
  destruct (in_set neg rs x); [apply flat_map_single|reflexivity].
Qed.

(** A literal in front of a pattern. *)
Lemma matches_lit_seq (t : string) (r : regex) :
  forall (b : option ascii) (s : string),
    matches (RSeq (RLit t) r) (Cursor b s) =
    match strip_prefix t s with
    | Some s' => matches r (Cursor (last_char b t) s')
    | None => []
    end.
Proof.
  induction t as [|a t IH]; intros b s.
  - cbn [RLit matches flat_map strip_prefix last_char]. apply app_nil_r.
  - cbn [RLit]. rewrite matches_seq_assoc, matches_chr_seq.
    destruct s as [|x s']; [reflexivity|]. cbn [strip_prefix last_char].
    destruct (Ascii.eqb_spec a x) as [->|Hne]; [apply IH|reflexivity].
Qed.

Lemma length_skip_while (p : ascii -> bool) (s : string) :
  String.length (skip_while p s) <= String.length s.
Proof.
  induction s as [|a s IH]; [reflexivity|]. cbn [skip_while].
  destruct (p a); cbn [String.length]; lia.
Qed.

Lemma matched_cons (a : ascii) (s s' : string) :
  String.length s' <= String.length s ->
  matched (String a s) s' = String a (matched s s').
Proof.
  intros Hle. unfold matched. cbn [String.length].
  replace (S (String.length s) - String.length s') with (S (String.length s - String.length s')) by lia.
  reflexivity.
Qed.

Lemma matched_self (s : string) : matched s s = "".
Proof. unfold matched. rewrite Nat.sub_diag. now destruct s. Qed.

(** A greedy run over a character set, followed by something that
    cannot start with a character of the set: only the longest run is
    followed up. *)
Lemma star_set_then (p : ascii -> bool) (k : cursor -> list cursor) :
  (forall b a s, p a = true -> k (Cursor b (String a s)) = []) ->
  forall (fuel : nat) (b : option ascii) (s : string),
    String.length s < fuel ->
    flat_map k (star_loop (step_char p) fuel (Cursor b s))
    = k (skip_cursor p (Cursor b s)).
Proof.
  intros Hk. induction fuel as [|f IH]; intros b s Hlen; [lia|].
  cbn [star_loop]. destruct s as [|a s'].
  - cbn. unfold skip_cursor. cbn. apply app_nil_r.
  - unfold skip_cursor. cbn [rest before skip_while].
    change (step_char p (Cursor b (String a s')))
      with (if p a then [Cursor (Some a) s'] else []).
    destruct (p a) eqn:Hp.
    + cbn [flat_map rest]. cbn [String.length] in *.
      rewrite (proj2 (Nat.ltb_lt _ _)) by lia.
      rewrite app_nil_r, flat_map_app, IH by lia. cbn [flat_map].
      rewrite (Hk b a s' Hp). rewrite !app_nil_r.
      unfold skip_cursor. cbn [before rest].
      rewrite matched_cons by apply length_skip_while. reflexivity.
    + cbn [flat_map app]. rewrite app_nil_r, matched_self. reflexivity.
Qed.

Lemma matches_star_set_seq (neg : bool) (rs : list (ascii * ascii)) (r : regex) :
  (forall b a s, in_set neg rs a = true -> matches r (Cursor b (String a s)) = []) ->
  forall c, matches (RSeq (RStar (RSet neg rs)) r) c
            = matches r (skip_cursor (in_set neg rs) c).
Proof.
  intros Hr [b s]. cbn [matches rest].
  change (fun c => step_char (in_set neg rs) c) with (step_char (in_set neg rs)).
  apply (star_set_then (in_set neg rs) (matches r) Hr). lia.
Qed.

Lemma is_blank_spec (c : ascii) :
  is_blank c = Ascii.eqb c " " || Ascii.eqb c TAB.
Proof. destruct c as [[] [] [] [] [] [] [] []]; reflexivity. Qed.

Lemma not_LF_spec (c : ascii) : not_LF c = negb (Ascii.eqb c LF).
Proof. destruct c as [[] [] [] [] [] [] [] []]; reflexivity. Qed.

Lemma not_hash_spec (c : ascii) :
  in_set true [("#", "#")]%char c = negb (Ascii.eqb c "#").
Proof. destruct c as [[] [] [] [] [] [] [] []]; reflexivity. Qed.

Lemma skip_not_LF_head (s : string) (x : ascii) (s2 : string) :
  skip_while not_LF s = String x s2 -> x = LF.
Proof.
  induction s as [|a s IH]; [discriminate|]. cbn [skip_while].
  destruct (not_LF a) eqn:Ha; [exact IH|].
  intros [= <- <-]. rewrite not_LF_spec in Ha.
  apply negb_false_iff in Ha. now apply Ascii.eqb_eq in Ha.
Qed.

(** One item line: the matcher finds at most one way to read it. *)
Lemma matches_item_line (b : option ascii) (s : string) :
  matches toc_item_line (Cursor b s) =
  match item_line_end s with
  | Some s2 => [Cursor (Some LF) s2]
  | None => []
  end.
Proof.
  unfold toc_item_line, RCat. cbn [fold_right].
  rewrite matches_star_set_seq.
  2:{ intros b0 a s0 Ha. rewrite matches_chr_seq.
      change (in_set false [(" ", " "); (TAB, TAB)]%char) with is_blank in Ha.
      rewrite is_blank_spec in Ha.
      destruct (Ascii.eqb_spec "-" a) as [<-|]; [discriminate|reflexivity]. }
  change (in_set false [(" ", " "); (TAB, TAB)]%char) with is_blank.
  unfold skip_cursor, item_line_end. cbn [rest before].
  rewrite matches_chr_seq.
  destruct (skip_while is_blank s) as [|a s1]; [reflexivity|].
  rewrite (Ascii.eqb_sym a "-").
  destruct (Ascii.eqb "-" a); [|reflexivity].
  rewrite matches_star_set_seq.
  2:{ intros b0 x s0 Hx. rewrite matches_chr_seq.
      change (in_set true [(LF, LF)]) with not_LF in Hx. rewrite not_LF_spec in Hx.
      destruct (Ascii.eqb_spec LF x) as [<-|]; [discriminate|reflexivity]. }
  change (in_set true [(LF, LF)]) with not_LF.
  unfold skip_cursor. cbn [rest before]. rewrite matches_chr_seq.
  destruct (skip_while not_LF s1) as [|x s2] eqn:Hskip; [reflexivity|].
  apply skip_not_LF_head in Hskip as ->. rewrite Ascii.eqb_refl.
  reflexivity.
Qed.

Lemma items_end_body (s : string) :
  items_end Body s =
  match skip_while not_LF s with
  | String _ s2 => items_end LineStart s2
  | "" => None
  end.
Proof.
  induction s as [|c s IH]; [reflexivity|]. cbn [items_end skip_while].
  rewrite not_LF_spec. destruct (Ascii.eqb c LF); cbn [negb]; [reflexivity|exact IH].
Qed.

Lemma items_end_indent (s : string) :
  items_end Indent s =
  match skip_while is_blank s with
  | String a s1 => if Ascii.eqb a "-" then items_end Body s1 else None
  | "" => None
  end.
Proof.
  induction s as [|c s IH]; [reflexivity|]. cbn [items_end skip_while].
  destruct (is_blank c); [exact IH|reflexivity].
Qed.

(** The scan of the item lines, one whole line at a time. *)
Lemma items_end_line (s : string) :
  items_end LineStart s =
  match item_line_end s with
  | Some s2 => items_end LineStart s2
  | None =>
      match s with
      | String c s' => if Ascii.eqb c LF then Some s' else None
      | "" => None
      end
  end.
Proof.
  destruct s as [|c s]; [reflexivity|].
  unfold item_line_end. cbn [items_end skip_while].
  destruct (Ascii.eqb_spec c LF) as [->|Hlf]; [reflexivity|].
  destruct (is_blank c) eqn:Hb.
  - rewrite items_end_indent.
    destruct (skip_while is_blank s) as [|a s1]; [reflexivity|].
    destruct (Ascii.eqb a "-"); [|reflexivity].
    rewrite items_end_body. now destruct (skip_while not_LF s1).
  - destruct (Ascii.eqb c "-"); [|reflexivity].
    rewrite items_end_body. now destruct (skip_while not_LF s).
Qed.

Lemma length_skip_cons (p : ascii -> bool) (s : string) (a : ascii) (s' : string) :
  skip_while p s = String a s' -> String.length s' < String.length s.
Proof.
  intros H. pose proof (length_skip_while p s) as Hle. rewrite H in Hle.
  cbn [String.length] in Hle. lia.
Qed.

Lemma item_line_end_shorter (s s2 : string) :
  item_line_end s = Some s2 ->
  String.length s2 < String.length s
  /\ exists a s', s = String a s' /\ a <> LF.
Proof.
  unfold item_line_end.
  destruct (skip_while is_blank s) as [|a s1] eqn:H1; [discriminate|].
  destruct (Ascii.eqb_spec a "-") as [->|]; [|discriminate].
  destruct (skip_while not_LF s1) as [|x s3] eqn:H3; [discriminate|].
  intros [= <-]. pose proof (length_skip_cons _ _ _ _ H1) as L1.
  pose proof (length_skip_cons _ _ _ _ H3) as L3. split; [lia|].
  destruct s as [|c s]; [discriminate|]. exists c, s. split; [reflexivity|].
  intros ->. cbn [skip_while] in H1. change (is_blank LF) with false in H1.
  discriminate.
Qed.

(** The greedy repetition of item lines followed by the blank line. *)
Lemma star_items_then (fuel : nat) :
  forall (b : option ascii) (s : string),
    String.length s < fuel ->
    flat_map (matches (RSeq (RChr LF) REps))
             (star_loop (matches toc_item_line) fuel (Cursor b s))
    = match items_end LineStart s with
      | Some r => [Cursor (Some LF) r]
      | None => []
      end.
Proof.
  induction fuel as [|f IH]; intros b s Hlen; [lia|].
  cbn [star_loop]. rewrite flat_map_app, flat_map_single.
  rewrite matches_item_line, items_end_line, matches_chr_seq.
  destruct (item_line_end s) as [s2|] eqn:Hline.
  - apply item_line_end_shorter in Hline as (Hlt & a & s' & -> & Ha).
    rewrite flat_map_single. cbn [rest].
    rewrite (proj2 (Nat.ltb_lt (String.length s2) (String.length (String a s'))) Hlt).
    change (String.length (String a s')) with (S (String.length s')) in Hlt, Hlen.
    rewrite IH by lia.
    destruct (Ascii.eqb_spec LF a) as [<-|_]; [contradiction|]. apply app_nil_r.
  - cbn [flat_map app]. destruct s as [|x s']; [reflexivity|].
    rewrite (Ascii.eqb_sym x LF). now destruct (Ascii.eqb_spec LF x) as [<-|].
Qed.

Lemma matches_toc_pattern (b : option ascii) (s : string) :
  matches toc_pattern (Cursor b s) =
  match toc_block_end s with
  | Some r => [Cursor (Some LF) r]
  | None => []
  end.
Proof.
  unfold toc_pattern, RCat, toc_block_end. cbn [fold_right].
  rewrite matches_lit_seq. destruct (strip_prefix toc_title s) as [s'|]; [|reflexivity].
  cbn [matches rest]. apply star_items_then. lia.
Qed.

(** The matcher and the loop agree on [toc_pattern]. *)
Lemma match_at_toc_pattern (c : cursor) :
  match_at toc_pattern c = toc_block_end (rest c).
Proof.
  destruct c as [b s]. unfold match_at. rewrite matches_toc_pattern. cbn [rest].
  now destruct (toc_block_end s).
Qed.

Lemma skip_not_LF_line_end (b : option ascii) (s : string) :
  at_line_end (Cursor b (skip_while not_LF s)) = true.
Proof.
  unfold at_line_end. cbn [rest].
  destruct (skip_while not_LF s) as [|x s2] eqn:H; [reflexivity|].
  apply skip_not_LF_head in H as ->. apply Ascii.eqb_refl.
Qed.

(** The matcher and the loop agree on [first_heading_pattern]. *)
Lemma match_at_first_heading (b : option ascii) (s : string) :
  match_at first_heading_pattern (Cursor b s) = heading_end b s.
Proof.
  unfold match_at, first_heading_pattern, RCat, heading_end. cbn [fold_right].
  cbn [matches]. destruct (at_line_start (Cursor b s)) eqn:Hstart.
  2:{ cbn. now destruct s as [|a [|c s']]. }
  rewrite flat_map_single.
  change (flat_map ?f (step_char (Ascii.eqb "#") (Cursor b s)))
    with (matches (RSeq (RChr "#")
            (RSeq (RSet true [("#", "#")]%char) (RSeq (RStar RDot) (RSeq REol REps))))
            (Cursor b s)).
  rewrite matches_chr_seq. destruct s as [|a s1]; [reflexivity|].
  rewrite (Ascii.eqb_sym a "#"). destruct (Ascii.eqb "#" a); cbn [andb].
  2:{ now destruct s1. }
  rewrite matches_set_seq. destruct s1 as [|c s']; [reflexivity|].
  rewrite not_hash_spec. destruct (negb (Ascii.eqb c "#")); [|reflexivity].
  unfold RDot. rewrite matches_star_set_seq.
  2:{ intros b0 x s0 Hx. cbn [matches]. unfold at_line_end. cbn [rest].
      change (in_set true [(LF, LF)]) with not_LF in Hx. rewrite not_LF_spec in Hx.
      destruct (Ascii.eqb x LF); [discriminate|reflexivity]. }
  change (in_set true [(LF, LF)]) with not_LF.
  cbn [matches]. unfold skip_cursor at 1. cbn [rest before].
  rewrite skip_not_LF_line_end. reflexivity.
Qed.

(** ** Blocks *)

Lemma strip_prefix_app (t s : string) : strip_prefix t (t +:+ s) = Some s.
Proof.
  induction t as [|a t IH]; [reflexivity|].
  rewrite app_cons_str. cbn [strip_prefix]. now rewrite Ascii.eqb_refl.
Qed.

Lemma strip_prefix_some (t s s' : string) :
  strip_prefix t s = Some s' -> s = t +:+ s'.
Proof.
  revert s. induction t as [|a t IH]; intros s H.
  - now injection H as ->.
  - destruct s as [|x s]; [discriminate|]. cbn [strip_prefix] in H.
    destruct (Ascii.eqb_spec a x) as [->|]; [|discriminate].
    rewrite app_cons_str. f_equal. now apply IH.
Qed.

Lemma str_all_app (p : ascii -> bool) (a b : string) :
  str_all p (a +:+ b) = str_all p a && str_all p b.
Proof.
  induction a as [|c a IH]; [reflexivity|].
  rewrite app_cons_str. cbn [str_all]. now rewrite IH, andb_assoc.
Qed.

Lemma skip_while_split (p : ascii -> bool) (s : string) :
  exists w, s = w +:+ skip_while p s /\ str_all p w = true.
Proof.
  induction s as [|c s (w & Hs & Hw)]; [now exists ""|].
  cbn [skip_while]. destruct (p c) eqn:Hc.
  - exists (String c w). rewrite app_cons_str, <- Hs. cbn [str_all].
    now rewrite Hc, Hw.
  - now exists "".
Qed.

Lemma skip_while_app (p : ascii -> bool) (w x : string) :
  str_all p w = true ->
  match x with String c _ => p c = false | "" => True end ->
  skip_while p (w +:+ x) = x.
Proof.
  intros Hw Hx. induction w as [|c w IH].
  - rewrite app_nil_l_str. destruct x as [|c x]; [reflexivity|].
    cbn [skip_while]. now rewrite Hx.
  - cbn [str_all] in Hw. apply andb_true_iff in Hw as [Hc Hw].
    rewrite app_cons_str. cbn [skip_while]. rewrite Hc. now apply IH.
Qed.

Lemma item_line_end_app (l x : string) :
  item_line l -> item_line_end (l +:+ x) = Some x.
Proof.
  intros (w & body & -> & Hw & Hb). unfold item_line_end.
  rewrite !app_assoc_str. rewrite (skip_while_app is_blank w) by (exact Hw || reflexivity).
  rewrite app_cons_str, app_nil_l_str. rewrite Ascii.eqb_refl.
  rewrite (skip_while_app not_LF body) by (exact Hb || reflexivity).
  reflexivity.
Qed.

Lemma item_line_end_some (s r : string) :
  item_line_end s = Some r -> exists l, item_line l /\ s = l +:+ r.
Proof.
  unfold item_line_end. intros H.
  destruct (skip_while_split is_blank s) as (w & Hs & Hw).
  destruct (skip_while is_blank s) as [|a s1]; [discriminate|].
  destruct (Ascii.eqb_spec a "-") as [->|]; [|discriminate].
  destruct (skip_while_split not_LF s1) as (body & Hs1 & Hb).
  destruct (skip_while not_LF s1) as [|x s2] eqn:Hskip; [discriminate|].
  injection H as ->. apply skip_not_LF_head in Hskip as ->.
  exists (w +:+ "-" +:+ body +:+ nl). split.
  - exists w, body. auto.
  - rewrite Hs, Hs1. now rewrite !app_assoc_str.
Qed.

Lemma items_end_app (ls : list string) (r : string) :
  Forall item_line ls -> items_end LineStart (join ls +:+ nl +:+ r) = Some r.
Proof.
  induction 1 as [|l ls Hl Hls IH].
  - reflexivity.
  - rewrite join_cons, app_assoc_str, items_end_line, item_line_end_app by exact Hl.
    exact IH.
Qed.

Lemma items_end_some (n : nat) :
  forall s r, String.length s < n ->
    items_end LineStart s = Some r ->
    exists ls, Forall item_line ls /\ s = join ls +:+ nl +:+ r.
Proof.
  induction n as [|n IH]; intros s r Hlen H; [lia|].
  rewrite items_end_line in H.
  destruct (item_line_end s) as [s2|] eqn:Hline.
  - pose proof (item_line_end_shorter _ _ Hline) as [Hlt _].
    apply item_line_end_some in Hline as (l & Hl & ->).
    apply IH in H as (ls & Hls & ->); [|lia].
    exists (l :: ls). split; [now constructor|].
    now rewrite join_cons, app_assoc_str.
  - destruct s as [|c s']; [discriminate|].
    destruct (Ascii.eqb_spec c LF) as [->|]; [|discriminate].
    injection H as ->. now exists [].
Qed.

(** The loop for [toc_pattern] finds exactly the blocks. *)
Lemma toc_block_end_spec (s r : string) :
  toc_block_end s = Some r <-> exists b, toc_block b /\ s = b +:+ r.
Proof.
  unfold toc_block_end. split.
  - destruct (strip_prefix toc_title s) as [s'|] eqn:Hs; [|discriminate].
    intros H. apply strip_prefix_some in Hs as ->.
    apply (items_end_some (S (String.length s'))) in H as (ls & Hls & ->); [|lia].
    exists (toc_title +:+ join ls +:+ nl). split; [now exists ls|].
    now rewrite !app_assoc_str.
  - intros (b & (ls & -> & Hls) & ->).
    rewrite !app_assoc_str, strip_prefix_app. now apply items_end_app.
Qed.

Lemma block_starts_spec (s : string) :
  block_starts s <-> is_Some (toc_block_end s).
Proof.
  split.
  - intros (b & r & Hb & ->). exists r. apply toc_block_end_spec. eauto.
  - intros [r Hr]. apply toc_block_end_spec in Hr as (b & Hb & ->).
    now exists b, r.
Qed.

(** ** Search and substitution for [toc_pattern] *)

Lemma take_str_app (m r : string) : take_str (String.length m) (m +:+ r) = m.
Proof.
  induction m as [|c m IH]; [now destruct r|].
  rewrite app_cons_str. cbn [String.length take_str]. now rewrite IH.
Qed.

Lemma matched_app (m r : string) : matched (m +:+ r) r = m.
Proof.
  unfold matched. rewrite length_app_str.
  replace (String.length m + String.length r - String.length r)
    with (String.length m) by lia.
  apply take_str_app.
Qed.

Lemma toc_block_nonempty (b : string) : toc_block b -> 0 < String.length b.
Proof.
  intros (ls & -> & _). unfold toc_title. rewrite !length_app_str.
  cbn [String.length]. lia.
Qed.

Lemma toc_block_end_shorter (s r : string) :
  toc_block_end s = Some r -> String.length r < String.length s.
Proof.
  intros H. apply toc_block_end_spec in H as (b & Hb & ->).
  apply toc_block_nonempty in Hb. rewrite length_app_str. lia.
Qed.

Lemma toc_block_end_nil : toc_block_end "" = None.
Proof. reflexivity. Qed.

Lemma search_toc_unfold (b : option ascii) (s : string) :
  search_from toc_pattern b s =
  match toc_block_end s with
  | Some r => Some ("", matched s r, r)
  | None =>
      match s with
      | String a s1 =>
          match search_from toc_pattern (Some a) s1 with
          | Some (pre, m, post) => Some (String a pre, m, post)
          | None => None
          end
      | "" => None
      end
  end.
Proof.
  destruct s as [|a s1]; cbn [search_from]; now rewrite match_at_toc_pattern.
Qed.

Lemma no_block_cons (c : ascii) (s : string) :
  no_block (String c s) <-> ~ block_starts (String c s) /\ no_block s.
Proof.
  unfold no_block, block_starts. split.
  - intros H. split.
    + intros (b & r & Hb & Hs). apply (H "" b r Hb). now rewrite app_nil_l_str.
    + intros pre b post Hb ->. apply (H (String c pre) b post Hb).
      now rewrite app_cons_str.
  - intros [Hstart Htail] [|a pre] b post Hb Hs.
    + apply Hstart. exists b, post. now rewrite app_nil_l_str in Hs.
    + rewrite app_cons_str in Hs. injection Hs as -> Hs. now apply (Htail pre b post).
Qed.

Lemma no_block_nil : no_block "".
Proof.
  intros pre b post Hb Hs. apply toc_block_nonempty in Hb.
  apply (f_equal String.length) in Hs. rewrite !length_app_str in Hs.
  cbn [String.length] in Hs. lia.
Qed.

(** [re.search(toc_pattern, content)] fails exactly when the content
    has no block. *)
Lemma search_toc_none (s : string) :
  forall b, search_from toc_pattern b s = None <-> no_block s.
Proof.
  induction s as [|c s IH]; intros b; rewrite search_toc_unfold.
  - rewrite toc_block_end_nil. split; [intros _; apply no_block_nil|reflexivity].
  - rewrite no_block_cons, block_starts_spec.
    destruct (toc_block_end (String c s)) as [r|] eqn:Hend.
    + split; [discriminate|]. intros [H _]. exfalso. apply H. now exists r.
    + specialize (IH (Some c)).
      destruct (search_from toc_pattern (Some c) s) as [[[pre m] post]|].
      * split; [discriminate|]. intros [_ H]. now apply IH in H.
      * split; [|reflexivity]. intros _. split; [now intros [r Hr]|now apply IH].
Qed.

Lemma has_block_or_not (content : string) : has_block content \/ no_block content.
Proof.
  destruct (search_from toc_pattern None content) as [[[pre m] post]|] eqn:H.
  - left. revert pre m post H. generalize (@None ascii).
    induction content as [|c s IH]; intros b pre m post H;
      rewrite search_toc_unfold in H.
    + now rewrite toc_block_end_nil in H.
    + destruct (toc_block_end (String c s)) as [r|] eqn:Hend.
      * apply toc_block_end_spec in Hend as (blk & Hb & Hs).
        exists "", blk, r. now rewrite app_nil_l_str.
      * destruct (search_from toc_pattern (Some c) s) as [[[pre' m'] post']|] eqn:H';
          [|discriminate].
        destruct (IH _ _ _ _ H') as (p & blk & q & Hb & ->).
        exists (String c p), blk, q. now rewrite app_cons_str.
  - right. now apply (search_toc_none content None).
Qed.

Lemma has_block_not_no_block (content : string) :
  has_block content -> no_block content -> False.
Proof. intros (pre & b & post & Hb & Hs) Hno. exact (Hno pre b post Hb Hs). Qed.

(** What [re.sub] computes for a replacement that expands to [R]. *)
Lemma sub_from_replaced (t : list titem) (R : string) :
  (forall m, expand t m = R) ->
  forall (fuel : nat) (b : option ascii) (s : string),
    String.length s < fuel ->
    replaced R s (sub_from toc_pattern t fuel (Cursor b s)).
Proof.
  intros Ht. induction fuel as [|f IH]; intros b s Hlen; [lia|].
  cbn [sub_from]. rewrite match_at_toc_pattern. cbn [rest].
  destruct (toc_block_end s) as [r|] eqn:Hend.
  - pose proof (toc_block_end_shorter _ _ Hend) as Hlt.
    rewrite (proj2 (Nat.ltb_lt _ _) Hlt), Ht.
    apply toc_block_end_spec in Hend as (blk & Hb & ->).
    apply replaced_block; [exact Hb|]. apply IH. lia.
  - destruct s as [|c s'].
    + constructor.
    + apply replaced_keep.
      * rewrite block_starts_spec, Hend. now intros [r Hr].
      * apply IH. cbn [String.length] in Hlen. lia.
Qed.

(** A replacement without backslash is taken literally. *)
Lemma parse_template_plain (fuel : nat) :
  forall s, String.length s <= fuel -> str_all not_backslash s = true ->
    exists t, parse_template_from fuel s = Some t /\ forall m, expand t m = s.
Proof.
  induction fuel as [|f IH]; intros s Hlen Hs.
  - destruct s; [|cbn in Hlen; lia]. now exists [].
  - destruct s as [|c s]; [now exists []|].
    cbn [str_all] in Hs. apply andb_true_iff in Hs as [Hc Hs].
    cbn [parse_template_from]. unfold not_backslash in Hc.
    apply negb_true_iff in Hc. rewrite Hc.
    destruct (IH s) as (t & -> & Ht); [cbn in Hlen; lia|exact Hs|].
    exists (TLit (String c "") :: t). split; [reflexivity|].
    intros m. unfold expand in *. cbn [map]. rewrite join_cons, Ht. reflexivity.
Qed.

Lemma re_sub_toc_plain (R s : string) :
  str_all not_backslash R = true ->
  exists out, re_sub toc_pattern R s = Some out /\ replaced R s out.
Proof.
  intros HR. unfold re_sub, parse_template.
  destruct (parse_template_plain (String.length R) R) as (t & -> & Ht); [lia|exact HR|].
  eexists. split; [reflexivity|]. apply sub_from_replaced; [exact Ht|lia].
Qed.

(** ** Search for [first_heading_pattern] *)

Lemma last_char_app (d : option ascii) (p : string) (c : ascii) :
  last_char d (p +:+ String c "") = Some c.
Proof.
  revert d. induction p as [|x p IH]; intros d; [reflexivity|].
  rewrite app_cons_str. cbn [last_char]. apply IH.
Qed.

Lemma last_char_some (s : string) (d : option ascii) (c : ascii) :
  last_char d s = Some c -> (s = "" /\ d = Some c) \/ exists p, s = p +:+ String c "".
Proof.
  revert d. induction s as [|x s IH]; intros d H; [now left|].
  right. cbn [last_char] in H. apply IH in H as [[-> [= ->]]|[p ->]].
  - now exists "".
  - exists (String x p). now rewrite app_cons_str.
Qed.

Lemma last_char_default (s : string) (x : ascii) :
  exists c, last_char (Some x) s = Some c.
Proof.
  revert x. induction s as [|y s IH]; intros x; [now exists x|]. apply IH.
Qed.

Lemma last_char_none (s : string) : last_char None s = None -> s = "".
Proof.
  destruct s as [|x s]; [reflexivity|]. cbn [last_char].
  destruct (last_char_default s x) as [c ->]. discriminate.
Qed.

Lemma line_start_spec (ctx s : string) :
  at_line_start (Cursor (last_char None ctx) s) = true <-> at_start_of_line ctx.
Proof.
  unfold at_line_start, at_start_of_line. cbn [before]. split.
  - destruct (last_char None ctx) as [a|] eqn:Hlast.
    + intros Ha. apply Ascii.eqb_eq in Ha as ->.
      apply last_char_some in Hlast as [[_ [=]]|[p ->]]. right. now exists p.
    + intros _. left. now apply last_char_none.
  - intros [->|[p ->]]; [reflexivity|].
    unfold nl. rewrite last_char_app. apply Ascii.eqb_refl.
Qed.

Lemma skip_while_stop (p : ascii -> bool) (s : string) :
  match skip_while p s with String c _ => p c = false | "" => True end.
Proof.
  induction s as [|c s IH]; [exact I|]. cbn [skip_while].
  destruct (p c) eqn:Hc; [exact IH|exact Hc].
Qed.

Lemma at_end_of_line_spec (post : string) :
  at_end_of_line post <->
  match post with String c _ => not_LF c = false | "" => True end.
Proof.
  unfold at_end_of_line. destruct post as [|c q].
  - split; [intros _; exact I|now left].
  - rewrite not_LF_spec, negb_false_iff, Ascii.eqb_eq. split.
    + intros [|[q' H]]; [discriminate|]. unfold nl in H. rewrite app_cons_str in H.
      now injection H.
    + intros ->. right. now exists q.
Qed.

(** The loop for the heading pattern finds exactly its matches. *)
Lemma heading_end_spec (ctx s r : string) :
  heading_end (last_char None ctx) s = Some r <->
  exists h, s = h +:+ r /\ heading_match ctx h r.
Proof.
  unfold heading_end, heading_match. split.
  - destruct s as [|a [|c s']]; try discriminate.
    destruct (at_line_start _) eqn:Hstart; [|discriminate].
    destruct (Ascii.eqb_spec a "#") as [->|]; [|discriminate].
    destruct (Ascii.eqb_spec c "#") as [|Hc]; [discriminate|].
    cbn [andb negb]. intros [= <-].
    destruct (skip_while_split not_LF s') as (tail & Hs' & Htail).
    exists (String "#" (String c tail)). split.
    + rewrite !app_cons_str. now rewrite <- Hs'.
    + split; [now apply (line_start_spec ctx (String "#" (String c s')))|].
      split; [now exists c, tail|].
      apply at_end_of_line_spec, skip_while_stop.
  - intros (h & -> & Hstart & (c & tail & -> & Hc & Htail) & Hend).
    rewrite !app_cons_str.
    rewrite (proj2 (line_start_spec ctx _) Hstart), Ascii.eqb_refl.
    destruct (Ascii.eqb_spec c "#") as [|_]; [contradiction|]. cbn [andb negb].
    f_equal. apply skip_while_app; [exact Htail|]. now apply at_end_of_line_spec.
Qed.

Lemma heading_match_length (pre h post : string) :
  heading_match pre h post -> 2 <= String.length h.
Proof. intros (_ & (c & tail & -> & _) & _). cbn [String.length]. lia. Qed.

Lemma search_heading_unfold (b : option ascii) (s : string) :
  search_from first_heading_pattern b s =
  match heading_end b s with
  | Some r => Some ("", matched s r, r)
  | None =>
      match s with
      | String a s1 =>
          match search_from first_heading_pattern (Some a) s1 with
          | Some (pre, m, post) => Some (String a pre, m, post)
          | None => None
          end
      | "" => None
      end
  end.
Proof.
  destruct s as [|a s1]; cbn [search_from]; now rewrite match_at_first_heading.
Qed.

Lemma app_snoc_str (ctx : string) (a : ascii) (pre : string) :
  (ctx +:+ String a "") +:+ pre = ctx +:+ String a pre.
Proof. now rewrite app_assoc_str. Qed.

(** [re.search] with the heading pattern, after the text [ctx]. *)
Lemma search_heading_spec (s : string) :
  forall ctx,
    match search_from first_heading_pattern (last_char None ctx) s with
    | Some (pre, h, post) =>
        s = pre +:+ h +:+ post
        /\ heading_match (ctx +:+ pre) h post
        /\ forall pre' h' post',
             s = pre' +:+ h' +:+ post' -> heading_match (ctx +:+ pre') h' post' ->
             String.length pre <= String.length pre'
    | None =>
        forall pre' h' post',
          heading_match (ctx +:+ pre') h' post' -> s <> pre' +:+ h' +:+ post'
    end.
Proof.
  induction s as [|a s IH]; intros ctx; rewrite search_heading_unfold.
  - cbn [heading_end]. intros pre' h' post' Hm Hs.
    apply heading_match_length in Hm. apply (f_equal String.length) in Hs.
    rewrite !length_app_str in Hs. cbn [String.length] in Hs. lia.
  - destruct (heading_end (last_char None ctx) (String a s)) as [r|] eqn:Hend.
    + apply heading_end_spec in Hend as (h & Hs & Hm). rewrite Hs, matched_app.
      rewrite app_nil_l_str, app_nil_r_str. split; [reflexivity|].
      split; [exact Hm|]. intros; cbn [String.length]; lia.
    + assert (Hnot : forall h' post', String a s = h' +:+ post' ->
                       ~ heading_match ctx h' post').
      { intros h' post' Hs Hm.
        assert (Hsome : heading_end (last_char None ctx) (String a s) = Some post')
          by (apply heading_end_spec; eauto).
        congruence. }
      specialize (IH (ctx +:+ String a "")). rewrite last_char_app in IH.
      destruct (search_from first_heading_pattern (Some a) s) as [[[pre h] post]|].
      * destruct IH as (-> & Hm & Hleft). rewrite app_snoc_str in Hm.
        rewrite app_cons_str. split; [reflexivity|]. split; [exact Hm|].
        intros [|x pre'] h' post' Hs Hm'.
        -- exfalso. rewrite app_nil_r_str in Hm'. now apply (Hnot h' post').
        -- rewrite app_cons_str in Hs. injection Hs as <- Hs.
           cbn [String.length]. apply le_n_S. apply (Hleft pre' h' post' Hs).
           now rewrite app_snoc_str.
      * intros [|x pre'] h' post' Hm' Hs.
        -- rewrite app_nil_r_str in Hm'. now apply (Hnot h' post').
        -- rewrite app_cons_str in Hs. injection Hs as <- Hs.
           apply (IH pre' h' post'); [|exact Hs]. now rewrite app_snoc_str.
Qed.

Lemma re_search_heading_spec (content : string) :
  match re_search first_heading_pattern content with
  | Some (pre, h, post) => first_heading content pre h post
  | None => no_heading content
  end.
Proof.
  unfold re_search. pose proof (search_heading_spec content "") as H.
  cbn [last_char] in H.
  destruct (search_from first_heading_pattern None content) as [[[pre h] post]|].
  - exact H.
  - exact H.
Qed.

(** ** The placement rule *)

Lemma str_all_repeat (p : ascii -> bool) (s : string) (n : nat) :
  str_all p s = true -> str_all p (repeat_str s n) = true.
Proof.
  intros Hs. induction n as [|n IH]; [reflexivity|].
  cbn [repeat_str]. now rewrite str_all_app, Hs, IH.
Qed.

Lemma str_all_join (p : ascii -> bool) (l : list string) :
  Forall (fun s => str_all p s = true) l -> str_all p (join l) = true.
Proof.
  induction 1 as [|s l Hs _ IH]; [reflexivity|].
  now rewrite join_cons, str_all_app, Hs, IH.
Qed.

Lemma toc_line_all (p : ascii -> bool) (h : heading) :
  str_all p " -[](#)" = true -> p LF = true ->
  headings_all p [h] = true -> str_all p (toc_line h) = true.
Proof.
  intros Hfixed Hlf Hh. destruct h as [[level text] anchor].
  cbn [headings_all forallb] in Hh. rewrite andb_true_r in Hh.
  apply andb_true_iff in Hh as [Ht Ha].
  cbn [str_all] in Hfixed. repeat (apply andb_true_iff in Hfixed as [? Hfixed]).
  unfold toc_line, nl. rewrite !str_all_app, Ht, Ha.
  rewrite str_all_repeat by (cbn [str_all]; now rewrite H).
  cbn [str_all]. now rewrite H0, H, H1, H2, H3, H4, H5, Hlf.
Qed.

Lemma headings_all_cons (p : ascii -> bool) (h : heading) (hs : list heading) :
  headings_all p (h :: hs) = headings_all p [h] && headings_all p hs.
Proof. unfold headings_all. cbn [forallb]. now rewrite andb_true_r. Qed.

Lemma toc_lines_all (p : ascii -> bool) (hs : list heading) :
  str_all p " -[](#)" = true -> p LF = true ->
  headings_all p hs = true ->
  Forall (fun s => str_all p s = true) (map toc_line hs).
Proof.
  intros Hfixed Hlf. induction hs as [|h hs IH]; intros Hhs; [constructor|].
  rewrite headings_all_cons in Hhs. apply andb_true_iff in Hhs as [Hh Hhs].
  cbn [map]. constructor; [now apply toc_line_all|now apply IH].
Qed.

Lemma toc_content_no_backslash (hs : list heading) :
  headings_all not_backslash hs = true ->
  str_all not_backslash (toc_content hs +:+ nl) = true.
Proof.
  intros Hhs. unfold toc_content. rewrite join_cons, !str_all_app.
  rewrite str_all_join by (apply toc_lines_all; [reflexivity|reflexivity|exact Hhs]).
  reflexivity.
Qed.

Lemma app_inv_length (a b a' b' : string) :
  a +:+ b = a' +:+ b' -> String.length a = String.length a' -> a = a' /\ b = b'.
Proof.
  revert a'. induction a as [|x a IH]; intros [|x' a'] H Hlen; try discriminate.
  - now rewrite !app_nil_l_str in H.
  - rewrite !app_cons_str in H. injection H as -> H. injection Hlen as Hlen.
    destruct (IH a' H Hlen) as [-> ->]. auto.
Qed.

Lemma heading_match_unique (pre h post h' post' : string) :
  heading_match pre h post -> heading_match pre h' post' ->
  h +:+ post = h' +:+ post' -> h = h' /\ post = post'.
Proof.
  intros Hm Hm' Heq.
  assert (H1 : heading_end (last_char None pre) (h +:+ post) = Some post)
    by (apply heading_end_spec; eauto).
  assert (H2 : heading_end (last_char None pre) (h +:+ post) = Some post')
    by (apply heading_end_spec; exists h'; auto).
  rewrite H1 in H2. injection H2 as <-. split; [|reflexivity].
  rewrite <- (matched_app h post), Heq. apply matched_app.
Qed.

Lemma first_heading_unique (content pre h post pre' h' post' : string) :
  first_heading content pre h post -> first_heading content pre' h' post' ->
  pre = pre' /\ h = h' /\ post = post'.
Proof.
  intros (Hc & Hm & Hleft) (Hc' & Hm' & Hleft').
  pose proof (Hleft _ _ _ Hc' Hm') as L1. pose proof (Hleft' _ _ _ Hc Hm) as L2.
  rewrite Hc in Hc'. apply app_inv_length in Hc' as [-> Hrest]; [|lia].
  split; [reflexivity|]. now apply (heading_match_unique pre').
Qed.

(** What [update_file_toc] writes, case by case.  For headings whose
    texts and anchors hold no
    backslash, [update_file_toc] writes the following.  If the content
    has a block (the text [## Table of Contents] and a line feed,
    wherever it stands, then any number of list-item lines, then an
    empty line) every block, going from left to right, is replaced by
    the new block and an empty line.  Otherwise, if the heading pattern
    matches, the new block is inserted after the first match, after an
    empty line and followed by one.  Otherwise the new block and an
    empty line are put in front of the content.  One of the three cases
    always applies. *)
Theorem placement_rule (hs : list heading) (content : string) :
  headings_all not_backslash hs = true ->
  let T := toc_content hs in
  (has_block content ->
   exists out, new_content hs content = inr out
               /\ replaced (T +:+ nl) content out)
  /\ (no_block content ->
      forall pre h post,
        first_heading content pre h post ->
        new_content hs content
        = inr (pre +:+ h +:+ nl +:+ nl +:+ T +:+ nl +:+ post))
  /\ (no_block content -> no_heading content ->
      new_content hs content = inr (T +:+ nl +:+ content))
  /\ (has_block content
      \/ (no_block content
          /\ ((exists pre h post, first_heading content pre h post)
              \/ no_heading content))).
Proof.
  intros Hplain T. unfold new_content.
  pose proof (search_toc_none content None) as Hnone.
  change (search_from toc_pattern None content)
    with (re_search toc_pattern content) in Hnone.
  pose proof (re_search_heading_spec content) as Hhead.
  split; [|split; [|split]].
  - intros Hblock.
    destruct (re_search toc_pattern content) as [found|].
    + destruct (re_sub_toc_plain (T +:+ nl) content) as (out & Hsub & Hrep);
        [now apply toc_content_no_backslash|].
      exists out. fold T. now rewrite Hsub.
    + exfalso. apply (has_block_not_no_block content Hblock). now apply Hnone.
  - intros Hno pre h post Hfirst. rewrite (proj2 Hnone Hno).
    destruct (re_search first_heading_pattern content) as [[[pre0 h0] post0]|].
    + destruct (first_heading_unique _ _ _ _ _ _ _ Hhead Hfirst) as (-> & -> & ->).
      fold T. now rewrite !app_assoc_str.
    + destruct Hfirst as (Hc & Hm & _). now destruct (Hhead pre h post Hm).
  - intros Hno Hnohead. rewrite (proj2 Hnone Hno).
    destruct (re_search first_heading_pattern content) as [[[pre0 h0] post0]|].
    + destruct Hhead as (Hc & Hm & _). now destruct (Hnohead pre0 h0 post0 Hm).
    + reflexivity.
  - destruct (has_block_or_not content) as [Hb|Hno]; [now left|]. right.
    split; [exact Hno|].
    destruct (re_search first_heading_pattern content) as [[[pre0 h0] post0]|].
    + left. now exists pre0, h0, post0.
    + now right.
Qed.

(** The placement on a document with one heading and no block. *)
Lemma placement_rule_witness :
  headings_all not_backslash [(1, "Doc", "doc")] = true
  /\ new_content [(1, "Doc", "doc")] ("# Doc" +:+ nl +:+ "text")
     = inr ("" +:+ "# Doc" +:+ nl +:+ nl
            +:+ toc_content [(1, "Doc", "doc")] +:+ nl +:+ nl +:+ "text").
Proof.
  split; [reflexivity|].
  refine (proj1 (proj2
            (placement_rule [(1, "Doc", "doc")] ("# Doc" +:+ nl +:+ "text") eq_refl))
            _ "" "# Doc" (nl +:+ "text") _).
  - apply (search_toc_none _ None). vm_compute. reflexivity.
  - pose proof (re_search_heading_spec ("# Doc" +:+ nl +:+ "text")) as H.
    replace (re_search first_heading_pattern ("# Doc" +:+ nl +:+ "text"))
      with (Some ("", "# Doc", nl +:+ "text")) in H by (vm_compute; reflexivity).
    exact H.
Defined.

(** A subsection called Table of Contents.  In a document whose subsection is called
    Table of Contents, no line is [## Table of Contents]; by the words
    of the specification the new block goes after the first top-level
    heading.  The script finds [## Table of Contents] inside the line
    [### Table of Contents] and replaces from there. *)
Lemma placement_rule_counterexample :
  new_content doc_headings doc_with_sub_toc
  = inr ("# Doc" +:+ nl +:+ nl
         +:+ "### Table of Contents" +:+ nl
         +:+ "- [Doc](#doc)" +:+ nl
         +:+ "    - [Table of Contents](#table-of-contents)" +:+ nl
         +:+ nl +:+ "text")
  /\ spec_new_content doc_headings doc_with_sub_toc
     = "# Doc" +:+ nl +:+ nl
       +:+ "## Table of Contents" +:+ nl
       +:+ "- [Doc](#doc)" +:+ nl
       +:+ "    - [Table of Contents](#table-of-contents)" +:+ nl
       +:+ nl +:+ nl +:+ nl
       +:+ "### Table of Contents" +:+ nl +:+ nl +:+ "text"
  /\ new_content doc_headings doc_with_sub_toc
     <> inr (spec_new_content doc_headings doc_with_sub_toc).
Proof.
  split; [vm_compute; reflexivity|]. split; [vm_compute; reflexivity|].
  vm_compute. discriminate.
Qed.

(** ** Rewriting twice *)

Lemma str_all_impl (p q : ascii -> bool) (s : string) :
  (forall c, p c = true -> q c = true) -> str_all p s = true -> str_all q s = true.
Proof.
  intros Hpq. induction s as [|c s IH]; [reflexivity|]. cbn [str_all].
  intros H. apply andb_true_iff in H as [Hc Hs]. now rewrite (Hpq c Hc), IH.
Qed.

Lemma headings_all_impl (p q : ascii -> bool) (hs : list heading) :
  (forall c, p c = true -> q c = true) ->
  headings_all p hs = true -> headings_all q hs = true.
Proof.
  intros Hpq. unfold headings_all. rewrite !forallb_forall.
  intros H [[level text] anchor] Hin. specialize (H _ Hin). cbn in H.
  apply andb_true_iff in H as [Ht Ha].
  now rewrite (str_all_impl p q text Hpq Ht), (str_all_impl p q anchor Hpq Ha).
Qed.

Lemma toc_line_item (h : heading) :
  headings_all not_LF [h] = true -> item_line (toc_line h).
Proof.
  destruct h as [[level text] anchor]. cbn [headings_all forallb].
  rewrite andb_true_r. intros H. apply andb_true_iff in H as [Ht Ha].
  exists (repeat_str "  " (level - 1)), (" [" +:+ text +:+ "](#" +:+ anchor +:+ ")").
  split; [|split].
  - unfold toc_line. now rewrite !app_assoc_str.
  - now apply str_all_repeat.
  - rewrite !str_all_app, Ht, Ha. reflexivity.
Qed.

Lemma toc_lines_items (hs : list heading) :
  headings_all not_LF hs = true -> Forall item_line (map toc_line hs).
Proof.
  induction hs as [|h hs IH]; intros Hhs; [constructor|].
  rewrite headings_all_cons in Hhs. apply andb_true_iff in Hhs as [Hh Hhs].
  cbn [map]. constructor; [now apply toc_line_item|now apply IH].
Qed.

(** The text that [update_file_toc] generates is itself a block. *)
Lemma toc_content_block (hs : list heading) :
  headings_all not_LF hs = true -> toc_block (toc_content hs +:+ nl).
Proof.
  intros Hhs. exists (map toc_line hs). split; [|now apply toc_lines_items].
  unfold toc_content. now rewrite join_cons, app_assoc_str.
Qed.

Lemma scan_nil (q : scan_state) : scan q "" = None.
Proof. destruct q as [[|a k]|[]]; reflexivity. Qed.

Lemma scan_title_start (s : string) : scan (InTitle toc_title) s = toc_block_end s.
Proof. reflexivity. Qed.

Lemma drop_str_cons (j : nat) (s : string) (a : ascii) (k : string) :
  drop_str j s = String a k -> k = drop_str (S j) s.
Proof.
  revert s. induction j as [|j IH]; intros s H.
  - cbn in H. subst s. reflexivity.
  - destruct s as [|x s]; [discriminate|]. cbn [drop_str] in *. now apply IH.
Qed.

(** A block read from a state other than the start of the title: the
    scan fails on its first characters, except from inside an item
    line, which the title line then ends. *)
Lemma scan_block (b r : string) (q : scan_state) :
  toc_block b -> scan_reachable q ->
  scan q (b +:+ r) =
  match q with
  | InTitle k => if String.eqb k toc_title then Some r else None
  | InItems Body => Some r
  | InItems _ => None
  end.
Proof.
  intros (ls & -> & Hls) Hq. rewrite !app_assoc_str.
  pose proof (items_end_app ls r Hls) as Hitems.
  destruct q as [k|[| |]].
  - destruct Hq as [j ->].
    do 22 (destruct j as [|j];
           [vm_compute strip_prefix; vm_compute String.eqb; try reflexivity;
            try exact Hitems|]).
    reflexivity.
  - reflexivity.
  - reflexivity.
  - unfold scan, toc_title, nl. rewrite !app_assoc_str.
    change (items_end Body ("## Table of Contents" +:+ String LF "" +:+ join ls +:+ String LF "" +:+ r))
      with (items_end LineStart (join ls +:+ String LF "" +:+ r)).
    exact Hitems.
Qed.

Lemma both_refl_none (X : string -> string -> Prop) : both X None None.
Proof. exact I. Qed.

(** One character that both texts share takes the scan to the same
    state, or ends it the same way. *)
Lemma scan_cons (R : string) (c : ascii) (s out : string) (q : scan_state) :
  scan_reachable q ->
  replaced R s out ->
  (forall q', scan_reachable q' -> both (replaced R) (scan q' s) (scan q' out)) ->
  both (replaced R) (scan q (String c s)) (scan q (String c out)).
Proof.
  intros Hq Hrep IH.
  assert (Hline : forall l, both (replaced R) (items_end l (String c s))
                                 (items_end l (String c out))).
  { intros l. cbn [items_end].
    pose proof (IH (InItems LineStart) I) as HL.
    pose proof (IH (InItems Indent) I) as HI.
    pose proof (IH (InItems Body) I) as HB. cbn [scan] in HL, HI, HB.
    destruct l.
    - destruct (Ascii.eqb c LF); [exact Hrep|].
      destruct (is_blank c); [exact HI|].
      destruct (Ascii.eqb c "-"); [exact HB|exact I].
    - destruct (is_blank c); [exact HI|].
      destruct (Ascii.eqb c "-"); [exact HB|exact I].
    - destruct (Ascii.eqb c LF); [exact HL|exact HB]. }
  destruct q as [[|a k]|l].
  - exact (Hline LineStart).
  - cbn [scan strip_prefix]. destruct (Ascii.eqb a c); [|exact I].
    destruct Hq as [j Hj]. apply (IH (InTitle k)). exists (S j).
    now apply (drop_str_cons j toc_title a k).
  - exact (Hline l).
Qed.

(** Replacing the blocks of a text does not change what a scan that
    starts before them finds. *)
Lemma scan_replaced (R s out : string) :
  toc_block R -> replaced R s out ->
  forall q, scan_reachable q -> both (replaced R) (scan q s) (scan q out).
Proof.
  intros HR. induction 1 as [|b r out Hb Hrep IH|c s out Hnot Hrep IH]; intros q Hq.
  - rewrite scan_nil. exact I.
  - rewrite (scan_block b r q Hb Hq), (scan_block R out q HR Hq).
    destruct q as [k|[| |]]; [destruct (String.eqb k toc_title)| | |];
      first [exact Hrep|exact I].
  - now apply scan_cons.
Qed.

Lemma replaced_block_starts (R s out : string) :
  toc_block R -> replaced R s out -> block_starts s <-> block_starts out.
Proof.
  intros HR Hrep. rewrite !block_starts_spec.
  pose proof (scan_replaced R s out HR Hrep (InTitle toc_title)) as H.
  assert (Hq : scan_reachable (InTitle toc_title)) by now exists 0.
  specialize (H Hq).
  change (scan (InTitle toc_title) s) with (toc_block_end s) in H.
  change (scan (InTitle toc_title) out) with (toc_block_end out) in H.
  destruct (toc_block_end s) as [r|], (toc_block_end out) as [r'|];
    cbv beta iota delta [both] in H; try contradiction.
  - split; intros _; eexists; reflexivity.
  - split; intros Hx; now apply is_Some_None in Hx.
Qed.

(** A second replacement finds the text as the first one left it. *)
Lemma replaced_twice (R s out : string) :
  toc_block R -> replaced R s out -> replaced R out out.
Proof.
  intros HR. induction 1 as [|b r out Hb Hrep IH|c s out Hnot Hrep IH].
  - constructor.
  - now apply replaced_block.
  - apply replaced_keep; [|exact IH].
    intros Hstart. apply Hnot.
    apply (replaced_block_starts R (String c s) (String c out) HR); [|exact Hstart].
    now apply replaced_keep.
Qed.

Lemma replaced_inv (R s o : string) :
  replaced R s o ->
  match toc_block_end s with
  | Some r => exists o', o = R +:+ o' /\ replaced R r o'
  | None =>
      match s with
      | "" => o = ""
      | String c s' => exists o', o = String c o' /\ replaced R s' o'
      end
  end.
Proof.
  destruct 1 as [|b r out Hb Hrep|c s out Hnot Hrep].
  - reflexivity.
  - rewrite (proj2 (toc_block_end_spec (b +:+ r) r)) by eauto. eauto.
  - rewrite block_starts_spec in Hnot.
    destruct (toc_block_end (String c s)); [exfalso; eauto|]. eauto.
Qed.

(** The replacement is a function of the text. *)
Lemma replaced_unique (R s o1 : string) :
  replaced R s o1 -> forall o2, replaced R s o2 -> o1 = o2.
Proof.
  induction 1 as [|b r out Hb Hrep IH|c s out Hnot Hrep IH]; intros o2 H2;
    apply replaced_inv in H2.
  - exact (eq_sym H2).
  - rewrite (proj2 (toc_block_end_spec (b +:+ r) r)) in H2 by eauto.
    destruct H2 as (o' & -> & H2). f_equal. now apply IH.
  - rewrite block_starts_spec in Hnot.
    destruct (toc_block_end (String c s)); [exfalso; eauto|].
    destruct H2 as (o' & -> & H2). f_equal. now apply IH.
Qed.

Lemma no_block_replaced (R s : string) : no_block s -> replaced R s s.
Proof.
  induction s as [|c s IH]; intros Hno; [constructor|].
  apply no_block_cons in Hno as [Hstart Hno]. apply replaced_keep; auto.
Qed.

Lemma has_block_app (pre s : string) : has_block s -> has_block (pre +:+ s).
Proof.
  intros (p & b & q & Hb & ->). exists (pre +:+ p), b, q.
  split; [exact Hb|]. now rewrite app_assoc_str.
Qed.

Lemma has_block_start (b r : string) : toc_block b -> has_block (b +:+ r).
Proof. intros Hb. exists "", b, r. now rewrite app_nil_l_str. Qed.

Lemma replaced_has_block (R s out : string) :
  toc_block R -> replaced R s out -> has_block s -> has_block out.
Proof.
  intros HR. induction 1 as [|b r out Hb Hrep IH|c s out Hnot Hrep IH]; intros Hhas.
  - exfalso. exact (has_block_not_no_block "" Hhas no_block_nil).
  - now apply has_block_start.
  - apply (has_block_app (String c "") out). apply IH.
    destruct (has_block_or_not s) as [H|Hno]; [exact H|].
    exfalso. apply (has_block_not_no_block (String c s) Hhas).
    apply no_block_cons. auto.
Qed.

Lemma block_starts_heading (z : string) :
  block_starts z -> exists x, z = toc_heading +:+ x.
Proof.
  intros (b & r & (ls & -> & _) & ->). exists (nl +:+ join ls +:+ nl +:+ r).
  unfold toc_title. now rewrite !app_assoc_str.
Qed.

Lemma block_starts_hash (c : ascii) (s : string) :
  block_starts (String c s) -> c = "#"%char.
Proof.
  intros H. apply block_starts_heading in H as [x H].
  unfold toc_heading in H. rewrite app_cons_str in H. now injection H.
Qed.

(** A text without line feed that starts [y] followed by a line feed
    starts [y] itself. *)
Lemma starts_before_LF (t : string) :
  str_all not_LF t = true ->
  forall y x r, y +:+ String LF x = t +:+ r -> exists r', y = t +:+ r'.
Proof.
  induction t as [|a t IH]; intros Ht y x r H; [now exists y|].
  cbn [str_all] in Ht. apply andb_true_iff in Ht as [Ha Ht].
  destruct y as [|c y].
  - rewrite app_nil_l_str, app_cons_str in H. injection H as <- _.
    discriminate Ha.
  - rewrite !app_cons_str in H. injection H as -> H.
    destruct (IH Ht y x r H) as [r' ->]. exists r'. now rewrite app_cons_str.
Qed.

Lemma keep_prefix (R A z out : string) :
  (forall y1 y, A = y1 +:+ y -> y <> "" -> ~ block_starts (y +:+ z)) ->
  replaced R z out -> replaced R (A +:+ z) (A +:+ out).
Proof.
  intros Hfree Hrep. induction A as [|c A IH]; [exact Hrep|].
  rewrite !app_cons_str. apply replaced_keep.
  - rewrite <- app_cons_str. apply (Hfree "" (String c A)); [reflexivity|discriminate].
  - apply IH. intros y1 y -> Hy. apply (Hfree (String c y1) y); [reflexivity|exact Hy].
Qed.

Lemma no_block_suffix (pre s : string) : no_block (pre +:+ s) -> no_block s.
Proof.
  intros Hno p b q Hb ->. apply (Hno (pre +:+ p) b q Hb). now rewrite app_assoc_str.
Qed.

Lemma nl_app (z : string) : nl +:+ z = String LF z.
Proof. reflexivity. Qed.

(** The text after an inserted block: nothing before the block is
    taken for a block, provided the title text does not occur there. *)
Lemma inserted_replaced (R B post : string) :
  toc_block R -> no_block post -> ~ occurs toc_heading B ->
  replaced R (B +:+ nl +:+ nl +:+ R +:+ post) (B +:+ nl +:+ nl +:+ R +:+ post).
Proof.
  intros HR Hpost Hfree. rewrite !nl_app. apply keep_prefix.
  - intros y1 y -> Hy Hstart. apply block_starts_heading in Hstart as [x Hx].
    apply starts_before_LF in Hx as [r' ->]; [|reflexivity].
    apply Hfree. now exists y1, r'.
  - apply replaced_keep; [intros H; now apply block_starts_hash in H|].
    apply replaced_keep; [intros H; now apply block_starts_hash in H|].
    apply replaced_block; [exact HR|]. now apply no_block_replaced.
Qed.

(** With a block in the content, [update_file_toc] replaces. *)
Lemma new_content_replaces (hs : list heading) (content : string) :
  headings_all not_backslash hs = true ->
  has_block content ->
  exists out, new_content hs content = inr out
              /\ replaced (toc_content hs +:+ nl) content out.
Proof.
  intros Hplain Hblock. unfold new_content.
  pose proof (search_toc_none content None) as Hnone.
  change (search_from toc_pattern None content)
    with (re_search toc_pattern content) in Hnone.
  destruct (re_search toc_pattern content) as [found|].
  - destruct (re_sub_toc_plain (toc_content hs +:+ nl) content) as (out & Hsub & Hrep);
      [now apply toc_content_no_backslash|].
    exists out. now rewrite Hsub.
  - exfalso. apply (has_block_not_no_block content Hblock). now apply Hnone.
Qed.

Lemma new_content_fixed (hs : list heading) (out : string) :
  headings_all not_backslash hs = true ->
  has_block out ->
  replaced (toc_content hs +:+ nl) out out ->
  new_content hs out = inr out.
Proof.
  intros Hplain Hhas Hrep.
  destruct (new_content_replaces hs out Hplain Hhas) as (out2 & -> & Hrep2).
  f_equal. exact (replaced_unique _ _ _ Hrep2 _ Hrep).
Qed.

Lemma plain_char_spec (c : ascii) :
  plain_char c = true -> not_backslash c = true /\ not_LF c = true.
Proof. unfold plain_char. now rewrite andb_true_iff. Qed.

(** C1, as amended.  When the second run of the TOC Rewriter works from
    the same heading sequence as the first, it leaves the file as the
    first run wrote it: it finds the block or blocks the first run
    wrote and replaces them by the same text.  This is for headings
    whose texts and anchors hold no line feed and no backslash, and for
    a file in which, when it has no block yet, the text
    [## Table of Contents] does not occur up to the end of the first
    match of the heading pattern. *)
Theorem rewrite_twice_same_headings (hs : list heading) (content out : string) :
  headings_all plain_char hs = true ->
  (no_block content ->
   forall pre h post,
     first_heading content pre h post -> ~ occurs toc_heading (pre +:+ h)) ->
  new_content hs content = inr out ->
  new_content hs out = inr out.
Proof.
  intros Hplain Hfree Hrun.
  assert (Hbs : headings_all not_backslash hs = true)
    by (apply (headings_all_impl plain_char); [apply plain_char_spec|exact Hplain]).
  assert (Hlf : headings_all not_LF hs = true)
    by (apply (headings_all_impl plain_char); [apply plain_char_spec|exact Hplain]).
  pose proof (toc_content_block hs Hlf) as HR.
  destruct (has_block_or_not content) as [Hhas|Hno].
  - destruct (new_content_replaces hs content Hbs Hhas) as (out1 & Hout1 & Hrep).
    rewrite Hout1 in Hrun. injection Hrun as ->.
    apply new_content_fixed; [exact Hbs| |].
    + exact (replaced_has_block _ _ _ HR Hrep Hhas).
    + exact (replaced_twice _ _ _ HR Hrep).
  - unfold new_content in Hrun.
    pose proof (proj2 (search_toc_none content None) Hno) as Hnone.
    change (search_from toc_pattern None content)
      with (re_search toc_pattern content) in Hnone.
    rewrite Hnone in Hrun.
    pose proof (re_search_heading_spec content) as Hhead.
    destruct (re_search first_heading_pattern content) as [[[pre h] post]|].
    + injection Hrun as <-. specialize (Hfree Hno pre h post Hhead).
      destruct Hhead as (Hc & _ & _).
      assert (Hpost : no_block post).
      { apply (no_block_suffix (pre +:+ h)). now rewrite app_assoc_str, <- Hc. }
      pose proof (inserted_replaced (toc_content hs +:+ nl) (pre +:+ h) post
                    HR Hpost Hfree) as Hrep.
      rewrite !app_assoc_str in Hrep. rewrite !app_assoc_str.
      apply new_content_fixed; [exact Hbs| |exact Hrep].
      replace (pre +:+ h +:+ nl +:+ nl +:+ toc_content hs +:+ nl +:+ post)
        with ((pre +:+ h +:+ nl +:+ nl) +:+ (toc_content hs +:+ nl) +:+ post)
        by (now rewrite !app_assoc_str).
      apply has_block_app, has_block_start, HR.
    + injection Hrun as <-.
      rewrite <- app_assoc_str. apply new_content_fixed; [exact Hbs| |].
      * now apply has_block_start.
      * apply replaced_block; [exact HR|]. now apply no_block_replaced.
Qed.

Lemma occurs_length (t s : string) :
  occurs t s -> String.length t <= String.length s.
Proof. intros (pre & post & ->). rewrite !length_app_str. lia. Qed.

(** C1 as amended, on a document with one heading and no block. *)
Lemma rewrite_twice_same_headings_witness :
  headings_all plain_char [(1, "Doc", "doc")] = true
  /\ new_content [(1, "Doc", "doc")] ("# Doc" +:+ nl +:+ "text")
     = inr ("# Doc" +:+ nl +:+ nl
            +:+ "## Table of Contents" +:+ nl +:+ "- [Doc](#doc)" +:+ nl
            +:+ nl +:+ nl +:+ "text")
  /\ new_content [(1, "Doc", "doc")]
       ("# Doc" +:+ nl +:+ nl
        +:+ "## Table of Contents" +:+ nl +:+ "- [Doc](#doc)" +:+ nl
        +:+ nl +:+ nl +:+ "text")
     = inr ("# Doc" +:+ nl +:+ nl
            +:+ "## Table of Contents" +:+ nl +:+ "- [Doc](#doc)" +:+ nl
            +:+ nl +:+ nl +:+ "text").
Proof.
  split; [reflexivity|]. split; [vm_compute; reflexivity|].
  apply (rewrite_twice_same_headings [(1, "Doc", "doc")] ("# Doc" +:+ nl +:+ "text")).
  - reflexivity.
  - intros _ pre h post Hfirst Hocc.
    pose proof (re_search_heading_spec ("# Doc" +:+ nl +:+ "text")) as H.
    replace (re_search first_heading_pattern ("# Doc" +:+ nl +:+ "text"))
      with (Some ("", "# Doc", nl +:+ "text")) in H by (vm_compute; reflexivity).
    destruct (first_heading_unique _ _ _ _ _ _ _ Hfirst H) as (-> & -> & _).
    apply occurs_length in Hocc. vm_compute in Hocc. lia.
  - vm_compute. reflexivity.
Defined.

(** ** The scenario *)

(** C1 as stated fails.  The first run on [a.md] inserts the block;
    a second, fresh run extracts the headings again, finds the title of
    the inserted block among them, and writes a block with one more
    entry. *)
Lemma rewrite_twice_counterexample :
  files (snd (process_file here "./a.md" (fresh_indexer {["./a.md" := inr a_md]})))
  = {["./a.md" := inr a_md_once]}
  /\ files (snd (process_file here "./a.md" (fresh_indexer {["./a.md" := inr a_md_once]})))
     = {["./a.md" := inr a_md_twice]}
  /\ a_md_once <> a_md_twice.
Proof.
  split; [vm_compute; reflexivity|]. split; [vm_compute; reflexivity|].
  vm_compute. discriminate.
Qed.

(** C2 as stated fails in its third part.  [camelCaseWord] starts with
    a lower-case letter and has no underscore or hyphen: the term
    pattern matches nothing in either file, no key is entered, and the
    Technical Terms section of the index is empty. *)
Lemma scenario_counterexample :
  re_findall term_pattern a_md = []
  /\ re_findall term_pattern b_md = []
  /\ terms (snd (main here two_files ∅)) = ∅
  /\ files (snd (main here two_files ∅)) !! "./INDEX.md" = Some (inr scenario_index)
  /\ ~ (exists linked : gset string,
          terms (snd (main here two_files ∅)) !! "camelCaseWord" = Some linked
          /\ "a.md" ∈ linked /\ "b.md" ∈ linked).
Proof.
  split; [vm_compute; reflexivity|]. split; [vm_compute; reflexivity|].
  assert (Hterms : terms (snd (main here two_files ∅)) = ∅) by (vm_compute; reflexivity).
  split; [exact Hterms|]. split; [vm_compute; reflexivity|].
  rewrite Hterms. intros (linked & H & _). now rewrite lookup_empty in H.
Qed.

(** C2, as amended.  The run on the two files returns normally;
    [a.md] gets a block after its heading that links to [#intro];
    [b.md], which has no top-level heading, gets a block in front of
    its text with the entry for [#section]; and [INDEX.md] lists both
    files with their headings, with empty Technical Terms and Acronyms
    sections. *)
Theorem scenario_run :
  fst (main here two_files ∅) = inr tt
  /\ files (snd (main here two_files ∅)) !! "./a.md" = Some (inr a_md_once)
  /\ files (snd (main here two_files ∅)) !! "./b.md" = Some (inr b_md_once)
  /\ toc (snd (main here two_files ∅)) !! "a.md" = Some [(1, "Intro", "intro")]
  /\ toc (snd (main here two_files ∅)) !! "b.md" = Some [(2, "Section", "section")]
  /\ files (snd (main here two_files ∅)) !! "./INDEX.md" = Some (inr scenario_index)
  /\ terms (snd (main here two_files ∅)) = ∅
  /\ acronyms (snd (main here two_files ∅)) = ∅.
Proof.
  repeat split; vm_compute; reflexivity.
Qed.

(** From the second run on the file is stable: a third fresh run
    extracts the headings of the second and rewrites the same text. *)
Lemma third_run_stable :
  files (snd (process_file here "./a.md" (fresh_indexer {["./a.md" := inr a_md_twice]})))
  = {["./a.md" := inr a_md_twice]}.
Proof. vm_compute. reflexivity. Qed.

(** ** Files without headings in a run *)

Lemma fold_files_other (E : env) (q : string) (paths : list string) (st : state) :
  q ∉ paths ->
  files (fold_left (process_step E) paths st) !! q = files st !! q.
Proof.
  revert st. induction paths as [|p paths IH]; intros st Hq; [reflexivity|].
  apply not_elem_of_cons in Hq as [Hne Hq]. cbn [fold_left].
  rewrite IH by exact Hq. now apply process_step_fields.
Qed.

Lemma NoDup_map_middle {A B} (f : A -> B) (before after : list A) (p : A) :
  NoDup (map f (before ++ p :: after)) ->
  (forall q, q ∈ before -> f q <> f p) /\ (p ∉ before) /\ (p ∉ after)
  /\ (forall q, q ∈ after -> f q <> f p).
Proof.
  rewrite map_app. cbn [map]. intros Hnd.
  apply NoDup_app in Hnd as (_ & Hdisj & Hnd).
  apply NoDup_cons in Hnd as [Hp _].
  split; [|split; [|split]].
  - intros q Hq Heq. apply (Hdisj (f q)).
    + apply list_elem_of_fmap. now exists q.
    + rewrite Heq. apply elem_of_cons. now left.
  - intros Hin. apply (Hdisj (f p)).
    + apply list_elem_of_fmap. now exists p.
    + apply elem_of_cons. now left.
  - intros Hin. apply Hp. apply list_elem_of_fmap. now exists p.
  - intros q Hq Heq. apply Hp. rewrite <- Heq. apply list_elem_of_fmap. now exists q.
Qed.

(** C6.  In a run of a new indexer over files with distinct relative
    paths, a file in which no heading is found is not written: the
    turn of the loop that processes it leaves the whole file store as
    it was, so no table of contents is inserted, and at the end of the
    loop the file still has its text. *)
Theorem no_heading_no_write (E : env) (before after : list string)
    (file_path content : string) (st : state) :
  NoDup (map (fun p => relpath E p (root_dir E)) (before ++ file_path :: after)) ->
  toc st = ∅ ->
  files st !! file_path = Some (inr content) ->
  render E content = inr [] ->
  let st1 := snd (process_all E before st) in
  fst (process_file E file_path st1) = inr tt
  /\ files (snd (process_file E file_path st1)) = files st1
  /\ files st1 !! file_path = Some (inr content)
  /\ files (snd (process_all E (before ++ file_path :: after) st)) !! file_path
     = Some (inr content).
Proof.
  intros Hnd Htoc Hf Hr st1.
  apply NoDup_map_middle in Hnd as (Hrel & Hbefore & Hafter & _).
  assert (Hf1 : files st1 !! file_path = Some (inr content)).
  { unfold st1. rewrite process_all_run. cbn [snd].
    now rewrite fold_files_other. }
  assert (Hrec : forall s, toc s = toc st1 ->
            recorded (relpath E file_path (root_dir E)) (toc s) = []).
  { intros s ->. unfold recorded, st1. rewrite process_all_run. cbn [snd].
    rewrite fold_toc_other by exact Hrel. now rewrite Htoc, lookup_empty. }
  destruct (process_file_no_heading E file_path content st1 Hf1 Hr (Hrec st1 eq_refl))
    as (Hret & Hfiles & _).
  split; [exact Hret|]. split; [exact Hfiles|]. split; [exact Hf1|].
  rewrite process_all_run. cbn [snd]. rewrite fold_left_app. cbn [fold_left].
  rewrite fold_files_other by exact Hafter.
  unfold process_step, print, modify. cbn [snd].
  set (st2 := set_stdout _ _).
  assert (Hf2 : files st2 !! file_path = Some (inr content)).
  { unfold st2. rewrite <- Hf1. unfold st1. now rewrite process_all_run. }
  destruct (process_file_no_heading E file_path content st2 Hf2 Hr) as (_ & -> & _).
  - apply Hrec. unfold st2, st1. now rewrite process_all_run.
  - exact Hf2.
Qed.

(** C6, on a file without headings between the two files of the
    scenario. *)
Lemma no_heading_no_write_witness :
  NoDup (map (fun p => relpath here p (root_dir here))
           (["./a.md"] ++ "./notes.md" :: ["./b.md"]))
  /\ files (snd (process_all here (["./a.md"] ++ "./notes.md" :: ["./b.md"])
                   (initial_state here three_files ∅))) !! "./notes.md"
     = Some (inr "plain text").
Proof.
  assert (Hnd : NoDup (map (fun p => relpath here p (root_dir here))
                         (["./a.md"] ++ "./notes.md" :: ["./b.md"]))).
  { vm_compute. repeat (apply NoDup_cons; split; [|]).
    - rewrite !elem_of_cons, elem_of_nil. intros [|[|]]; discriminate || contradiction.
    - rewrite !elem_of_cons, elem_of_nil. intros [|]; discriminate || contradiction.
    - apply not_elem_of_nil.
    - apply NoDup_nil_2. }
  split; [exact Hnd|].
  refine (proj2 (proj2 (proj2
            (no_heading_no_write here ["./a.md"] ["./b.md"] "./notes.md" "plain text"
               (initial_state here three_files ∅) Hnd eq_refl _ eq_refl)))).
  vm_compute. reflexivity.
Defined.

(** The entry of a file without headings.  In a run of a new indexer
    over files with distinct relative
    paths, a file that is read and rendered without any heading has no
    entry when its turn comes, and gets one all the same: the truth
    test on [self.toc[rel_path]] enters its relative path with the
    empty list.  The entry is still there when the loop ends, so the
    text of the index has then, in its Files section, the subheading of
    that path with no list item under it. *)
Theorem empty_entry_in_index (E : env) (before after : list string)
    (file_path content : string) (st : state) :
  NoDup (map (fun p => relpath E p (root_dir E)) (before ++ file_path :: after)) ->
  toc st = ∅ ->
  files st !! file_path = Some (inr content) ->
  render E content = inr [] ->
  let rel_path := relpath E file_path (root_dir E) in
  let st1 := snd (process_all E before st) in
  let st2 := snd (process_all E (before ++ file_path :: after) st) in
  toc st1 !! rel_path = None
  /\ toc (snd (process_file E file_path st1)) = <[rel_path := []]> (toc st1)
  /\ toc st2 !! rel_path = Some []
  /\ exists entries_before entries_after,
       sorted_items (toc st2) = entries_before ++ (rel_path, []) :: entries_after
       /\ index_content st2 =
            ("# Documentation Index" +:+ nl +:+ nl)
            +:+ ("## Files" +:+ nl +:+ nl)
            +:+ join (map index_file_entry entries_before)
            +:+ ("### " +:+ rel_path +:+ nl +:+ nl +:+ nl)
            +:+ join (map index_file_entry entries_after)
            +:+ ("## Technical Terms" +:+ nl +:+ nl)
            +:+ join (map index_glossary_entry (sorted_items (terms st2)))
            +:+ nl
            +:+ ("## Acronyms" +:+ nl +:+ nl)
            +:+ join (map index_glossary_entry (sorted_items (acronyms st2))).
Proof.
  intros Hnd Htoc Hf Hr rel_path st1 st2.
  apply NoDup_map_middle in Hnd as (Hrel & Hbefore & _ & Hafter).
  assert (Hst1 : st1 = fold_left (process_step E) before st)
    by (unfold st1; now rewrite process_all_run).
  assert (Htoc1 : toc st1 !! rel_path = None).
  { rewrite Hst1, fold_toc_other by exact Hrel. now rewrite Htoc, lookup_empty. }
  assert (Hf1 : files st1 !! file_path = Some (inr content)).
  { rewrite Hst1. now rewrite fold_files_other. }
  split; [exact Htoc1|].
  split.
  { exact (proj1 (empty_entry_kept E file_path content [] st1 Hf1 Hr Htoc1
                    (fun q Hq => False_ind _ (proj1 (elem_of_nil q) Hq)))). }
  set (st1' := snd (print ("Processing " +:+ file_path) st1)).
  assert (Hst2 : st2 = snd (process_all E after (snd (process_file E file_path st1')))).
  { unfold st2. rewrite !process_all_run. cbn [snd].
    rewrite fold_left_app. cbn [fold_left]. now rewrite <- Hst1. }
  rewrite Hst2.
  exact (proj2 (empty_entry_kept E file_path content after st1' Hf1 Hr Htoc1 Hafter)).
Qed.

(** The same on a file without headings between the two files of the
    scenario. *)
Lemma empty_entry_in_index_witness :
  NoDup (map (fun p => relpath here p (root_dir here))
           (["./a.md"] ++ "./notes.md" :: ["./b.md"]))
  /\ toc (snd (process_all here (["./a.md"] ++ "./notes.md" :: ["./b.md"])
                 (initial_state here three_files ∅))) !! "notes.md"
     = Some [].
Proof.
  assert (Hnd : NoDup (map (fun p => relpath here p (root_dir here))
                         (["./a.md"] ++ "./notes.md" :: ["./b.md"]))).
  { vm_compute. repeat (apply NoDup_cons; split; [|]).
    - rewrite !elem_of_cons, elem_of_nil. intros [|[|]]; discriminate || contradiction.
    - rewrite !elem_of_cons, elem_of_nil. intros [|]; discriminate || contradiction.
    - apply not_elem_of_nil.
    - apply NoDup_nil_2. }
  split; [exact Hnd|].
  refine (proj1 (proj2 (proj2
            (empty_entry_in_index here ["./a.md"] ["./b.md"] "./notes.md" "plain text"
               (initial_state here three_files ∅) Hnd eq_refl _ eq_refl)))).
  vm_compute. reflexivity.
Defined.

(** * Further properties of the methods *)

(** ** Anchors and heading texts ([extract_headings]) *)

Lemma anchor_char_kept (c : ascii) :
  let c' := lower_char c in
  Ascii.eqb c' "." || Ascii.eqb c' "(" || Ascii.eqb c' ")" = false ->
  anchor_char (if Ascii.eqb c' " " then "-"%char else c') = true.
Proof. destruct c as [[] [] [] [] [] [] [] []]; vm_compute; congruence. Qed.

Lemma anchor_of_chars (text : string) : str_all anchor_char (anchor_of text) = true.
Proof.
  induction text as [|c s IH]; [reflexivity|].
  rewrite anchor_of_cons. cbv zeta.
  destruct (_ || _ || _) eqn:Hdrop; [exact IH|].
  cbn [str_all]. now rewrite (anchor_char_kept c Hdrop), IH.
Qed.

Lemma anchor_of_fixed (s : string) :
  str_all anchor_char s = true -> anchor_of s = s.
Proof.
  induction s as [|c s IH]; [reflexivity|]. cbn [str_all].
  intros [Hc Hs]%andb_true_iff. rewrite anchor_of_cons. cbv zeta.
  unfold anchor_char in Hc.
  apply andb_true_iff in Hc as [Hc H4]. apply andb_true_iff in Hc as [Hc H3].
  apply andb_true_iff in Hc as [Hc H2]. apply andb_true_iff in Hc as [Hc H1].
  apply Ascii.eqb_eq in Hc. rewrite Hc.
  apply negb_true_iff in H1, H2, H3, H4. rewrite H1, H2, H3, H4. cbn [orb].
  now rewrite IH.
Qed.

(** X2.  No anchor holds a space, a period, a parenthesis or a capital
    letter, whatever the text; and an anchor is its own anchor. *)
Theorem anchor_of_clean (text : string) :
  str_all anchor_char (anchor_of text) = true
  /\ anchor_of (anchor_of text) = anchor_of text
  /\ (forall c, anchor_char c = true ->
        is_upper_az c = false
        /\ c <> " "%char /\ c <> "."%char /\ c <> "("%char /\ c <> ")"%char).
Proof.
  split; [apply anchor_of_chars|].
  split; [apply anchor_of_fixed, anchor_of_chars|].
  intros c. destruct c as [[] [] [] [] [] [] [] []]; vm_compute;
    intros H; try discriminate H; repeat split; discriminate.
Qed.

(** ** [str.strip] *)

Lemma rev_app_spec (s acc : string) : String.rev_app s acc = String.rev s +:+ acc.
Proof.
  revert acc. induction s as [|c s IH]; intros acc; [reflexivity|].
  unfold String.rev. cbn [String.rev_app]. rewrite IH, (IH (String c "")).
  now rewrite app_assoc_str.
Qed.

Lemma rev_cons_str (c : ascii) (s : string) :
  String.rev (String c s) = String.rev s +:+ String c "".
Proof. unfold String.rev at 1. cbn [String.rev_app]. apply rev_app_spec. Qed.

Lemma rev_app_str (a b : string) :
  String.rev (a +:+ b) = String.rev b +:+ String.rev a.
Proof.
  induction a as [|c a IH].
  - cbn. now rewrite app_nil_r_str.
  - rewrite app_cons_str, !rev_cons_str, IH. apply app_assoc_str.
Qed.

Lemma rev_rev_str (s : string) : String.rev (String.rev s) = s.
Proof.
  induction s as [|c s IH]; [reflexivity|].
  now rewrite rev_cons_str, rev_app_str, IH.
Qed.

Lemma str_all_rev (p : ascii -> bool) (s : string) :
  str_all p (String.rev s) = str_all p s.
Proof.
  induction s as [|c s IH]; [reflexivity|].
  rewrite rev_cons_str, str_all_app, IH. cbn [str_all].
  rewrite andb_true_r. apply andb_comm.
Qed.

Lemma lstrip_skip (s : string) : lstrip s = skip_while is_space s.
Proof.
  induction s as [|c s IH]; [reflexivity|]. cbn [lstrip skip_while].
  now destruct (is_space c).
Qed.

Lemma last_char_rev (s : string) :
  last_char None (String.rev s) = match s with String c _ => Some c | "" => None end.
Proof.
  destruct s as [|c s]; [reflexivity|]. rewrite rev_cons_str. apply last_char_app.
Qed.

Lemma head_rev (s : string) :
  match String.rev s with String c _ => Some c | "" => None end = last_char None s.
Proof.
  rewrite <- (rev_rev_str s) at 2. now rewrite last_char_rev.
Qed.

Lemma last_char_app_r (d : option ascii) (a b : string) :
  b <> "" -> last_char d (a +:+ b) = last_char None b.
Proof.
  intros Hb. revert d. induction a as [|c a IH]; intros d.
  - rewrite app_nil_l_str. destruct b as [|x b]; [contradiction|]. reflexivity.
  - rewrite app_cons_str. cbn [last_char]. apply IH.
Qed.

(** What [strip] leaves: the text between a run of white space at the
    start and one at the end, with white space at neither end. *)
Lemma strip_spec (s : string) :
  exists l r,
    s = l +:+ strip s +:+ r
    /\ str_all is_space l = true /\ str_all is_space r = true
    /\ starts_without_space (strip s) /\ ends_without_space (strip s).
Proof.
  unfold strip. rewrite !lstrip_skip.
  destruct (skip_while_split is_space s) as (l & Hs & Hl).
  set (m := skip_while is_space s) in *.
  destruct (skip_while_split is_space (String.rev m)) as (w & Hm & Hw).
  set (x := skip_while is_space (String.rev m)) in *.
  exists l, (String.rev w). split; [|split; [exact Hl|split]].
  - rewrite Hs at 1. f_equal.
    rewrite <- (rev_rev_str m), Hm, rev_app_str. reflexivity.
  - now rewrite str_all_rev.
  - pose proof (skip_while_stop is_space (String.rev m)) as Hx. fold x in Hx.
    pose proof (skip_while_stop is_space s) as Hhead. fold m in Hhead.
    split.
    + unfold starts_without_space.
      pose proof (head_rev x) as Hh.
      destruct (String.rev x) as [|c t] eqn:Hrx; [exact I|].
      (* the last character of [x] is the last character of [rev m],
         which is the first of [m] *)
      assert (x <> "") as Hne.
      { intros Hx0. rewrite Hx0 in Hrx. discriminate. }
      assert (last_char None x = last_char None (String.rev m)) as Hl2.
      { rewrite Hm. symmetry. now apply last_char_app_r. }
      rewrite last_char_rev in Hl2. rewrite <- Hh in Hl2.
      destruct m as [|c0 m0]; [discriminate|]. injection Hl2 as ->. exact Hhead.
    + unfold ends_without_space. rewrite last_char_rev.
      destruct x as [|c t]; [exact I|exact Hx].
Qed.

(** X3.  The text on record for a heading is the text of the element
    without the white space around it: what is cut off at either end
    is white space only, and what stays neither starts nor ends with
    white space. *)
Theorem heading_text_trimmed (h : nat * string) :
  let text := snd (fst (heading_entry h)) in
  exists l r,
    snd h = l +:+ text +:+ r
    /\ str_all is_space l = true /\ str_all is_space r = true
    /\ starts_without_space text /\ ends_without_space text.
Proof. destruct h as [level raw]. cbn. apply strip_spec. Qed.

(** ** What the matcher accepts *)

Lemma last_char_app_gen (d : option ascii) (a b : string) :
  last_char d (a +:+ b) = last_char (last_char d a) b.
Proof.
  revert d. induction a as [|c a IH]; intros d; [reflexivity|].
  rewrite app_cons_str. cbn [last_char]. apply IH.
Qed.

(** A position the matcher returns lies after a text of the language of
    the pattern. *)
Lemma matches_lang (r : regex) :
  forall c c', In c' (matches r c) ->
    exists m, rest c = m +:+ rest c' /\ lang r m
              /\ before c' = last_char (before c) m.
Proof.
  induction r as [|a|neg rs|r1 IH1 r2 IH2|r1 IH1 r2 IH2|r1 IH1| | |]; intros c c' Hin.
  - cbn in Hin. destruct Hin as [<-|[]]. exists "". repeat split. constructor.
  - cbn [matches] in Hin. unfold step_char in Hin.
    destruct (rest c) as [|x s'] eqn:Hr; [destruct Hin|].
    destruct (Ascii.eqb_spec a x) as [<-|]; [|destruct Hin].
    destruct Hin as [<-|[]]. exists (String a ""). repeat split. constructor.
  - cbn [matches] in Hin. unfold step_char in Hin.
    destruct (rest c) as [|x s'] eqn:Hr; [destruct Hin|].
    destruct (in_set neg rs x) eqn:Hx; [|destruct Hin].
    destruct Hin as [<-|[]]. exists (String x ""). repeat split. now constructor.
  - cbn [matches] in Hin. apply in_flat_map in Hin as (c1 & H1 & H2).
    apply IH1 in H1 as (m1 & E1 & L1 & B1). apply IH2 in H2 as (m2 & E2 & L2 & B2).
    exists (m1 +:+ m2). split; [|split].
    + now rewrite E1, E2, app_assoc_str.
    + now constructor.
    + now rewrite B2, B1, last_char_app_gen.
  - cbn [matches] in Hin. apply in_app_or in Hin as [H|H].
    + apply IH1 in H as (m & E & L & B). exists m. repeat split; auto using lang.
    + apply IH2 in H as (m & E & L & B). exists m. repeat split; auto using lang.
  - cbn [matches] in Hin.
    remember (S (String.length (rest c))) as fuel eqn:Hf. clear Hf.
    revert c c' Hin. induction fuel as [|f IHf]; intros c c' Hin.
    + cbn in Hin. destruct Hin as [<-|[]]. exists "". repeat split. constructor.
    + cbn [star_loop] in Hin. apply in_app_or in Hin as [Hin|Hin].
      * apply in_flat_map in Hin as (c1 & H1 & H2).
        destruct (String.length (rest c1) <? String.length (rest c)); [|destruct H2].
        apply IH1 in H1 as (m1 & E1 & L1 & B1).
        apply IHf in H2 as (m2 & E2 & L2 & B2).
        exists (m1 +:+ m2). split; [|split].
        -- now rewrite E1, E2, app_assoc_str.
        -- now constructor.
        -- now rewrite B2, B1, last_char_app_gen.
      * destruct Hin as [<-|[]]. exists "". repeat split. constructor.
  - cbn [matches] in Hin. destruct (at_line_start c); [|destruct Hin].
    destruct Hin as [<-|[]]. exists "". repeat split. constructor.
  - cbn [matches] in Hin. destruct (at_line_end c); [|destruct Hin].
    destruct Hin as [<-|[]]. exists "". repeat split. constructor.
  - cbn [matches] in Hin. destruct (at_word_boundary c); [|destruct Hin].
    destruct Hin as [<-|[]]. exists "". repeat split. constructor.
Qed.

Lemma lang_chars (P : ascii -> bool) (r : regex) (m : string) :
  lang r m -> atoms_in P r -> str_all P m = true.
Proof.
  induction 1 as [|a|neg rs x Hx|r1 r2 m1 m2 _ IH1 _ IH2|r1 r2 m _ IH|r1 r2 m _ IH
                 |r|r m1 m2 _ IH1 _ IH2| | |]; cbn [atoms_in]; intros Ha;
    try reflexivity.
  - cbn. now rewrite Ha.
  - cbn. now rewrite (Ha x Hx).
  - destruct Ha as [A1 A2]. now rewrite str_all_app, IH1, IH2.
  - apply IH, Ha.
  - apply IH, Ha.
  - now rewrite str_all_app, IH1, IH2.
Qed.

(** A pattern between two [\b]: its match starts and ends at a word
    boundary. *)
Lemma matches_between_wordb (r : regex) (c c' : cursor) :
  In c' (matches (RCat [RWordB; r; RWordB]) c) ->
  at_word_boundary c = true /\ In c' (matches r c) /\ at_word_boundary c' = true.
Proof.
  unfold RCat. cbn [fold_right matches]. intros Hin.
  apply in_flat_map in Hin as (c0 & H0 & Hin).
  destruct (at_word_boundary c) eqn:Hb; [|destruct H0].
  destruct H0 as [<-|[]]. apply in_flat_map in Hin as (c1 & H1 & Hin).
  apply in_flat_map in Hin as (c2 & H2 & Hin).
  destruct (at_word_boundary c1) eqn:Hb1; [|destruct H2].
  destruct H2 as [<-|[]]. destruct Hin as [<-|[]]. auto.
Qed.

(** The same for a pattern of three parts. *)
Lemma matches_between_wordb2 (r1 r2 : regex) (c c' : cursor) :
  In c' (matches (RCat [RWordB; r1; r2; RWordB]) c) ->
  at_word_boundary c = true /\ In c' (matches (RSeq r1 r2) c)
  /\ at_word_boundary c' = true.
Proof.
  intros Hin. apply (matches_between_wordb (RSeq r1 r2)).
  unfold RCat in *. cbn [fold_right] in *. cbn [matches] in *.
  apply in_flat_map in Hin as (c0 & H0 & Hin).
  apply in_flat_map. exists c0. split; [exact H0|].
  apply in_flat_map in Hin as (c1 & H1 & Hin).
  apply in_flat_map in Hin as (c2 & H2 & Hin).
  apply in_flat_map. exists c2. split; [|exact Hin].
  apply in_flat_map. now exists c1.
Qed.

(** ** What [re.findall] returns *)

Lemma match_at_some (r : regex) (c : cursor) (s' : string) :
  match_at r c = Some s' ->
  exists c', In c' (matches r c) /\ rest c' = s'.
Proof.
  unfold match_at. destruct (matches r c) as [|c' l]; [discriminate|].
  intros [= <-]. exists c'. split; [now left|reflexivity].
Qed.

Lemma findall_from_sound (r : regex) (fuel : nat) :
  forall (pre s m : string),
    In m (findall_from r fuel (Cursor (last_char None pre) s)) ->
    exists p q,
      s = p +:+ m +:+ q
      /\ exists c', In c' (matches r (Cursor (last_char None (pre +:+ p)) (m +:+ q)))
                    /\ rest c' = q.
Proof.
  induction fuel as [|f IH]; intros pre s m Hin; [destruct Hin|].
  cbn [findall_from] in Hin.
  assert (forall a s1, s = String a s1 ->
            In m (findall_from r f (Cursor (Some a) s1)) ->
            exists p q, s = p +:+ m +:+ q
              /\ exists c', In c' (matches r (Cursor (last_char None (pre +:+ p)) (m +:+ q)))
                            /\ rest c' = q) as Hadv.
  { intros a s1 -> H.
    replace (Some a) with (last_char None (pre +:+ String a "")) in H
      by apply last_char_app.
    apply IH in H as (p & q & -> & c' & Hc & Hq).
    exists (String a p), q. split; [reflexivity|].
    exists c'. split; [|exact Hq].
    now rewrite <- app_snoc_str. }
  destruct (match_at r (Cursor (last_char None pre) s)) as [s'|] eqn:Hm; cbn [rest] in Hin.
  - pose proof Hm as Hm'. apply match_at_some in Hm' as (c' & Hc & <-).
    pose proof (matches_lang r _ _ Hc) as (m0 & E & L & B). cbn [rest before] in E, B.
    assert (matched s (rest c') = m0) as Hmat by (rewrite E; apply matched_app).
    rewrite Hmat in Hin.
    assert (m = m0 -> exists p q, s = p +:+ m +:+ q
              /\ exists c', In c' (matches r (Cursor (last_char None (pre +:+ p)) (m +:+ q)))
                            /\ rest c' = q) as Hhere.
    { intros ->. exists "", (rest c'). split; [exact E|].
      exists c'. rewrite app_nil_r_str, <- E. now split. }
    destruct (String.length (rest c') <? String.length s) eqn:Hlt.
    + destruct Hin as [<-|Hin]; [now apply Hhere|].
      unfold cursor_after in Hin. cbn [rest before] in Hin. rewrite Hmat in Hin.
      rewrite <- last_char_app_gen in Hin.
      apply IH in Hin as (p & q & Hs & c1 & Hc1 & Hq).
      exists (m0 +:+ p), q. split.
      * now rewrite E, Hs, app_assoc_str.
      * exists c1. now rewrite <- app_assoc_str.
    + destruct Hin as [<-|Hin]; [now apply Hhere|].
      unfold advance in Hin. cbn [rest] in Hin.
      destruct s as [|a s1]; [destruct Hin|]. now apply (Hadv a s1).
  - unfold advance in Hin. cbn [rest] in Hin.
    destruct s as [|a s1]; [destruct Hin|]. now apply (Hadv a s1).
Qed.

(** Every text that [re.findall] returns is matched by the pattern
    somewhere in the subject. *)
Lemma re_findall_sound (r : regex) (s m : string) :
  In m (re_findall r s) ->
  exists pre post,
    s = pre +:+ m +:+ post
    /\ exists c', In c' (matches r (Cursor (last_char None pre) (m +:+ post)))
                  /\ rest c' = post.
Proof.
  unfold re_findall. intros Hin.
  apply (findall_from_sound r _ "" s m) in Hin as (p & q & -> & c' & Hc & Hq).
  exists p, q. split; [reflexivity|]. now exists c'.
Qed.

(** ** The shape of acronyms and terms ([extract_terms_and_acronyms]) *)

Ltac inv_lang :=
  repeat match goal with
    | H : lang (RSeq _ _) _ |- _ => inversion H; subst; clear H
    | H : lang (RAlt _ _) _ |- _ => inversion H; subst; clear H
    | H : lang (RChr _) _ |- _ => inversion H; subst; clear H
    | H : lang (RSet _ _) _ |- _ => inversion H; subst; clear H
    | H : lang REps _ |- _ => inversion H; subst; clear H
    end.

Lemma app_inv_tail_str (a b c : string) : a +:+ c = b +:+ c -> a = b.
Proof.
  intros H. apply (app_inv_length a c b c H).
  apply (f_equal String.length) in H. rewrite !length_app_str in H. lia.
Qed.

Lemma last_char_all (P : ascii -> bool) (d : option ascii) (s : string) :
  str_all P s = true -> s <> "" ->
  exists c, last_char d s = Some c /\ P c = true.
Proof.
  revert d. induction s as [|a s IH]; intros d Hall Hne; [contradiction|].
  cbn [str_all] in Hall. apply andb_true_iff in Hall as [Ha Hs].
  destruct s as [|b s]; [exists a; now split|].
  cbn [last_char]. now apply (IH (Some a)).
Qed.

Lemma set_AZ_spec (x : ascii) : in_set false [("A", "Z")]%char x = is_upper_az x.
Proof. destruct x as [[] [] [] [] [] [] [] []]; reflexivity. Qed.

Lemma set_az_spec (x : ascii) : in_set false [("a", "z")]%char x = is_lower_az x.
Proof. destruct x as [[] [] [] [] [] [] [] []]; reflexivity. Qed.

Lemma set_azAZ_spec (x : ascii) :
  in_set false [("a", "z"); ("A", "Z")]%char x = is_ascii_letter x.
Proof. destruct x as [[] [] [] [] [] [] [] []]; reflexivity. Qed.

Lemma upper_is_word (x : ascii) : is_upper_az x = true -> is_word x = true.
Proof. destruct x as [[] [] [] [] [] [] [] []]; vm_compute; congruence. Qed.

Lemma lower_is_word (x : ascii) : is_lower_az x = true -> is_word x = true.
Proof. destruct x as [[] [] [] [] [] [] [] []]; vm_compute; congruence. Qed.

Lemma letter_is_word (x : ascii) : is_ascii_letter x = true -> is_word x = true.
Proof. destruct x as [[] [] [] [] [] [] [] []]; vm_compute; congruence. Qed.

Lemma lang_star_set (neg : bool) (rs : list (ascii * ascii)) (w : string) :
  lang (RStar (RSet neg rs)) w -> str_all (in_set neg rs) w = true.
Proof. intros H. apply (lang_chars _ _ _ H). cbn. auto. Qed.

(** A match that starts with a word character at a word boundary has
    no word character before it; one that ends with a word character
    at a word boundary has none after it. *)
Lemma boundary_before (pre : string) (x : ascii) (s : string) :
  at_word_boundary (Cursor (last_char None pre) (String x s)) = true ->
  is_word x = true -> no_word_before pre.
Proof.
  unfold at_word_boundary, no_word_before. cbn [before rest]. intros H Hx.
  rewrite Hx in H. destruct (last_char None pre) as [a|]; [|exact I].
  now destruct (is_word a).
Qed.

Lemma boundary_after (x : ascii) (post : string) :
  at_word_boundary (Cursor (Some x) post) = true ->
  is_word x = true -> no_word_after post.
Proof.
  unfold at_word_boundary, no_word_after. cbn [before rest]. intros H Hx.
  rewrite Hx in H. destruct post as [|a post]; [exact I|].
  now destruct (is_word a).
Qed.

Lemma str_all_ext (p q : ascii -> bool) (s : string) :
  (forall c, p c = q c) -> str_all p s = str_all q s.
Proof.
  intros H. induction s as [|a s IH]; [reflexivity|]. cbn [str_all].
  now rewrite H, IH.
Qed.

Lemma lang_acronym_body (m : string) :
  lang (RSeq (RAtLeast2 set_AZ) (ROpt (RChr "s"))) m ->
  exists x y w t,
    m = String x (String y (w +:+ t))
    /\ is_upper_az x = true /\ is_upper_az y = true
    /\ str_all is_upper_az w = true /\ (t = "" \/ t = "s").
Proof.
  unfold RAtLeast2, ROpt, set_AZ. intros L.
  inversion L as [| | |r1 r2 m1 m2 L1 L2| | | | | | |]; subst. clear L.
  inversion L1 as [| | |r1 r2 mx m3 Lx L3| | | | | | |]; subst. clear L1.
  inversion L3 as [| | |r1 r2 my mw Ly Lw| | | | | | |]; subst. clear L3.
  inversion Lx as [| |neg rs x Hx| | | | | | | |]; subst. clear Lx.
  inversion Ly as [| |neg rs y Hy| | | | | | | |]; subst. clear Ly.
  apply lang_star_set in Lw.
  rewrite (str_all_ext _ _ _ set_AZ_spec) in Lw. rewrite set_AZ_spec in Hx, Hy.
  exists x, y, mw, m2. repeat split; try assumption.
  inversion L2 as [| | | |r1 r2 m Ls|r1 r2 m Le| | | | |]; subst.
  - inversion Ls; subst. now right.
  - inversion Le; subst. now left.
Qed.

(** X4.  Every acronym that the pattern finds in a text is two or more
    capital letters A to Z, with or without one lower-case s after
    them; it occurs in the text, and there it is a whole word: no
    letter, digit or underscore stands right before or right after
    it. *)
Theorem acronyms_are_capital_words (content m : string) :
  In m (re_findall acronym_pattern content) ->
  exists pre post caps,
    content = pre +:+ m +:+ post
    /\ (m = caps \/ m = caps +:+ "s")
    /\ str_all is_upper_az caps = true
    /\ 2 <= String.length caps
    /\ no_word_before pre /\ no_word_after post.
Proof.
  intros Hin. apply re_findall_sound in Hin as (pre & post & Hc & c' & Hm & Hq).
  apply matches_between_wordb2 in Hm as (Hb & Hm & Hb').
  apply matches_lang in Hm as (m0 & E & L & B). cbn [rest before] in E, B.
  rewrite Hq in E. apply app_inv_tail_str in E as <-.
  destruct c' as [b' r']. cbn [rest before] in *. subst r' b'.
  apply lang_acronym_body in L as (x & y & w & t & -> & Hx & Hy & Hw & Ht).
  exists pre, post, (String x (String y w)).
  split; [exact Hc|]. split; [|split; [|split; [|split]]].
  - destruct Ht as [->| ->]; [left; now rewrite app_nil_r_str|right; reflexivity].
  - cbn [str_all]. now rewrite Hx, Hy, Hw.
  - cbn [String.length]. lia.
  - apply (boundary_before pre x _ Hb). now apply upper_is_word.
  - assert (str_all is_word (String x (String y (w +:+ t))) = true) as Hall.
    { cbn [str_all]. rewrite (upper_is_word x Hx), (upper_is_word y Hy), str_all_app.
      rewrite (str_all_impl is_upper_az is_word w upper_is_word Hw).
      destruct Ht as [->| ->]; reflexivity. }
    destruct (last_char_all is_word (last_char None pre) _ Hall) as (c & Hl & Hcw);
      [discriminate|].
    rewrite Hl in Hb'. now apply (boundary_after c post Hb').
Qed.

Lemma acronyms_are_capital_words_witness :
  In "APIs" (re_findall acronym_pattern "The APIs of HTTP2 and XML.")
  /\ exists pre post caps,
       "The APIs of HTTP2 and XML." = pre +:+ "APIs" +:+ post
       /\ ("APIs" = caps \/ "APIs" = caps +:+ "s")
       /\ str_all is_upper_az caps = true
       /\ 2 <= String.length caps
       /\ no_word_before pre /\ no_word_after post.
Proof.
  assert (In "APIs" (re_findall acronym_pattern "The APIs of HTTP2 and XML.")) as H
    by (vm_compute; auto).
  split; [exact H|]. exact (acronyms_are_capital_words _ _ H).
Defined.

Lemma lang_plus_az (m : string) :
  lang (RPlus set_az) m ->
  exists l w, m = String l w /\ is_lower_az l = true /\ str_all is_lower_az w = true.
Proof.
  unfold RPlus, set_az. intros L.
  inversion L as [| | |r1 r2 m1 m2 L1 L2| | | | | | |]; subst. clear L.
  inversion L1 as [| |neg rs x Hx| | | | | | | |]; subst. clear L1.
  apply lang_star_set in L2.
  rewrite (str_all_ext _ _ _ set_az_spec) in L2. rewrite set_az_spec in Hx.
  now exists x, m2.
Qed.

Lemma lang_camel (m : string) :
  lang camel_case m ->
  exists u1 a u2 b,
    m = String u1 (a +:+ String u2 b)
    /\ is_upper_az u1 = true /\ is_upper_az u2 = true
    /\ a <> "" /\ b <> "" /\ str_all is_ascii_letter m = true.
Proof.
  intros L. assert (str_all is_ascii_letter m = true) as Hall.
  { apply (lang_chars _ _ _ L).
    unfold camel_case, RCat, RPlus, set_AZ, set_az, set_azAZ.
    cbn [fold_right atoms_in].
    repeat split; try exact I; intros x;
      rewrite ?set_AZ_spec, ?set_az_spec, ?set_azAZ_spec;
      unfold is_ascii_letter; intros ->; auto using orb_true_r. }
  revert Hall. unfold camel_case, RCat in L. cbn [fold_right] in L.
  inversion L as [| | |r1 r2 m1 m2 L1 L2| | | | | | |]; subst. clear L.
  inversion L1 as [| |neg rs u1 Hu1| | | | | | | |]; subst. clear L1.
  inversion L2 as [| | |r1 r2 ma m3 La L3| | | | | | |]; subst. clear L2.
  inversion L3 as [| | |r1 r2 m4 m5 L4 L5| | | | | | |]; subst. clear L3.
  inversion L4 as [| |neg rs u2 Hu2| | | | | | | |]; subst. clear L4.
  inversion L5 as [| | |r1 r2 mb m6 Lb L6| | | | | | |]; subst. clear L5.
  apply lang_plus_az in La as (la & wa & -> & _ & _).
  apply lang_plus_az in Lb as (lb & wb & -> & _ & _).
  rewrite set_AZ_spec in Hu1, Hu2. intros Hall.
  exists u1, (String la wa), u2, (String lb wb +:+ m6).
  repeat split; try assumption; try discriminate.
Qed.

Lemma lang_joined_tail (sep : ascii) (w : string) :
  lang (RStar (RSeq (RChr sep) (RPlus set_az))) w ->
  forall d, is_word d = true ->
    exists c, last_char (Some d) w = Some c /\ is_word c = true.
Proof.
  intros L. remember (RStar (RSeq (RChr sep) (RPlus set_az))) as r eqn:Hr.
  induction L as [| | | | | |r0|r0 m1 m2 L1 _ L2 IH2| | |]; try discriminate Hr.
  - intros d Hd. now exists d.
  - injection Hr as ->. intros d Hd.
    inversion L1 as [| | |r1 r2 ms mp Ls Lp| | | | | | |]; subst. clear L1.
    inversion Ls; subst. apply lang_plus_az in Lp as (l & w & -> & Hl & Hw).
    rewrite last_char_app_gen.
    assert (str_all is_word (String sep "" +:+ String l w) = true \/ True) as _ by now right.
    destruct (last_char_all is_word (Some sep) (String l w)) as (c & Hc & Hcw);
      [|discriminate|].
    { cbn [str_all]. rewrite (lower_is_word l Hl).
      now rewrite (str_all_impl is_lower_az is_word w lower_is_word Hw). }
    change (last_char (Some d) (String sep "" +:+ String l w))
      with (last_char (Some sep) (String l w)).
    rewrite Hc. now apply IH2.
Qed.

Lemma lang_joined (sep : ascii) (m : string) :
  lang (joined_by sep) m ->
  exists l a b,
    m = String l a +:+ String sep b
    /\ is_lower_az l = true /\ b <> ""
    /\ forall d, exists c, last_char d m = Some c /\ is_word c = true.
Proof.
  unfold joined_by, RCat. cbn [fold_right]. intros L.
  inversion L as [| | |r1 r2 ma m2 La L2| | | | | | |]; subst. clear L.
  inversion L2 as [| | |r1 r2 ms m3 Ls L3| | | | | | |]; subst. clear L2.
  inversion L3 as [| | |r1 r2 mb m4 Lb L4| | | | | | |]; subst. clear L3.
  inversion L4 as [| | |r1 r2 mt m5 Lt L5| | | | | | |]; subst. clear L4.
  inversion L5; subst. clear L5. inversion Ls; subst. clear Ls.
  apply lang_plus_az in La as (la & wa & -> & Hla & Hwa).
  apply lang_plus_az in Lb as (lb & wb & -> & Hlb & Hwb).
  exists la, wa, (String lb wb +:+ mt +:+ "").
  split; [reflexivity|]. split; [exact Hla|]. split; [discriminate|].
  intros d. rewrite app_nil_r_str, !last_char_app_gen.
  replace (last_char (last_char d (String la wa)) (String sep "")) with (Some sep)
    by reflexivity.
  destruct (last_char_all is_word (Some sep) (String lb wb)) as (c & Hc & Hcw);
    [|discriminate|].
  { cbn [str_all]. rewrite (lower_is_word lb Hlb).
    now rewrite (str_all_impl is_lower_az is_word wb lower_is_word Hwb). }
  rewrite Hc. now apply (lang_joined_tail sep).
Qed.

(** X5.  Every technical term that the pattern finds in a text is made
    of ASCII letters, underscores and hyphens; after its first
    character and before its last it has a capital letter, an
    underscore or a hyphen (so it is never a plain word); it occurs in
    the text, and there it is a whole word: no letter, digit or
    underscore stands right before or right after it. *)
Theorem terms_are_joined_words (content m : string) :
  In m (re_findall term_pattern content) ->
  exists pre post,
    content = pre +:+ m +:+ post
    /\ str_all term_char m = true
    /\ (exists a c b, m = a +:+ String c b /\ a <> "" /\ b <> ""
                      /\ joint_char c = true)
    /\ no_word_before pre /\ no_word_after post.
Proof.
  intros Hin. apply re_findall_sound in Hin as (pre & post & Hc & c' & Hm & Hq).
  apply matches_between_wordb in Hm as (Hb & Hm & Hb').
  apply matches_lang in Hm as (m0 & E & L & B). cbn [rest before] in E, B.
  rewrite Hq in E. apply app_inv_tail_str in E as <-.
  destruct c' as [b' r']. cbn [rest before] in *. subst r' b'.
  exists pre, post. split; [exact Hc|]. split.
  { apply (lang_chars _ _ _ L).
    unfold camel_case, joined_by, RCat, RPlus, set_AZ, set_az, set_azAZ.
    cbn [fold_right atoms_in].
    repeat split; try exact I; try reflexivity; intros x;
      rewrite ?set_AZ_spec, ?set_az_spec, ?set_azAZ_spec;
      unfold term_char, is_ascii_letter; intros ->; rewrite ?orb_true_r; reflexivity. }
  inversion L as [| | | |r1 r2 m0 Lc|r1 r2 m0 Lj| | | | |]; subst; clear L.
  - apply lang_camel in Lc as (u1 & a & u2 & b & -> & Hu1 & Hu2 & Ha & Hb0 & Hall).
    split; [|split].
    + exists (String u1 a), u2, b. repeat split; try assumption; try discriminate.
      unfold joint_char. now rewrite Hu2.
    + apply (boundary_before pre u1 _ Hb). now apply upper_is_word.
    + destruct (last_char_all is_word (last_char None pre) (String u1 (a +:+ String u2 b)))
        as (c & Hl & Hcw); [|discriminate|].
      { apply (str_all_impl is_ascii_letter is_word _ letter_is_word Hall). }
      rewrite Hl in Hb'. now apply (boundary_after c post Hb').
  - assert (exists sep, lang (joined_by sep) m /\ joint_char sep = true)
      as (sep & Lj' & Hsep).
    { inversion Lj; subst; [exists "_"%char|exists "-"%char]; now split. }
    clear Lj. apply lang_joined in Lj' as (l & a & b & -> & Hl & Hb0 & Hlast).
    split; [|split].
    + exists (String l a), sep, b. repeat split; try assumption; discriminate.
    + apply (boundary_before pre l _ Hb). now apply lower_is_word.
    + destruct (Hlast (last_char None pre)) as (c & Hlc & Hcw).
      rewrite Hlc in Hb'. now apply (boundary_after c post Hb').
Qed.

Lemma terms_are_joined_words_witness :
  In "doc_indexer" (re_findall term_pattern "Run doc_indexer on the read-only tree.")
  /\ exists pre post,
       "Run doc_indexer on the read-only tree." = pre +:+ "doc_indexer" +:+ post
       /\ str_all term_char "doc_indexer" = true
       /\ (exists a c b, "doc_indexer" = a +:+ String c b /\ a <> "" /\ b <> ""
                         /\ joint_char c = true)
       /\ no_word_before pre /\ no_word_after post.
Proof.
  assert (In "doc_indexer"
            (re_findall term_pattern "Run doc_indexer on the read-only tree.")) as H
    by (vm_compute; auto).
  split; [exact H|]. exact (terms_are_joined_words _ _ H).
Defined.

(** ** The acronyms of a text, word by word *)

Lemma words_from_cur (s cur : string) :
  words_from cur s
  = emit_word (cur +:+ matched s (skip_while is_word s))
    ++ words (skip_while is_word s).
Proof.
  revert cur. induction s as [|a s IH]; intros cur.
  - cbn. rewrite app_nil_r_str. now rewrite app_nil_r.
  - cbn [words_from skip_while]. destruct (is_word a) eqn:Ha.
    + rewrite IH, matched_cons by apply length_skip_while.
      now rewrite app_snoc_str.
    + rewrite matched_self, app_nil_r_str. unfold words. cbn [words_from].
      rewrite Ha. reflexivity.
Qed.

Lemma skip_while_app_stop (p : ascii -> bool) (w t : string) :
  match t with String c _ => p c = false | "" => True end ->
  skip_while p (w +:+ t) = skip_while p w +:+ t.
Proof.
  intros Ht. induction w as [|a w IH].
  - rewrite app_nil_l_str. destruct t as [|c t]; [reflexivity|].
    cbn [skip_while]. now rewrite Ht.
  - rewrite app_cons_str. cbn [skip_while]. destruct (p a); [exact IH|reflexivity].
Qed.

Lemma skip_while_all (p : ascii -> bool) (w : string) :
  str_all p w = true -> skip_while p w = "".
Proof.
  induction w as [|a w IH]; [reflexivity|]. cbn [str_all skip_while].
  intros [-> Hw]%andb_true_iff. now apply IH.
Qed.

Lemma str_all_skip (p q : ascii -> bool) (w : string) :
  str_all p w = true -> str_all p (skip_while q w) = true.
Proof.
  induction w as [|a w IH]; [reflexivity|]. cbn [str_all skip_while].
  intros [Ha Hw]%andb_true_iff. destruct (q a); [now apply IH|].
  cbn [str_all]. now rewrite Ha, Hw.
Qed.

(** A greedy run over a character set whose continuation fails in
    front of a character of the set as long as the character before
    satisfies [Q]. *)
Lemma star_set_then_in (p : ascii -> bool) (Q : option ascii -> Prop)
    (k : cursor -> list cursor) :
  (forall b a s, Q b -> p a = true -> k (Cursor b (String a s)) = []) ->
  (forall a, p a = true -> Q (Some a)) ->
  forall (fuel : nat) (b : option ascii) (s : string),
    Q b -> String.length s < fuel ->
    flat_map k (star_loop (step_char p) fuel (Cursor b s))
    = k (skip_cursor p (Cursor b s)).
Proof.
  intros Hk HQ. induction fuel as [|f IH]; intros b s Hb Hlen; [lia|].
  cbn [star_loop]. destruct s as [|a s'].
  - cbn. unfold skip_cursor. cbn. apply app_nil_r.
  - unfold skip_cursor. cbn [rest before skip_while].
    change (step_char p (Cursor b (String a s')))
      with (if p a then [Cursor (Some a) s'] else []).
    destruct (p a) eqn:Hp.
    + cbn [flat_map rest]. cbn [String.length] in *.
      rewrite (proj2 (Nat.ltb_lt _ _)) by lia.
      rewrite app_nil_r, flat_map_app, IH by (auto; lia). cbn [flat_map].
      rewrite (Hk b a s' Hb Hp). rewrite !app_nil_r.
      unfold skip_cursor. cbn [before rest].
      rewrite matched_cons by apply length_skip_while. reflexivity.
    + cbn [flat_map app]. rewrite app_nil_r, matched_self. reflexivity.
Qed.

Lemma matches_acronym_tail (c : ascii) (r : string) :
  is_word c = true ->
  matches acronym_tail (Cursor (Some c) r) =
  match r with
  | "" => [Cursor (Some c) ""]
  | String z r' =>
      (if Ascii.eqb "s" z
       then if match r' with String z' _ => is_word z' | "" => false end
            then [] else [Cursor (Some z) r']
       else [])
      ++ (if is_word z then [] else [Cursor (Some c) r])
  end.
Proof.
  intros Hc. unfold acronym_tail, ROpt. cbn [matches]. unfold step_char. cbn [rest].
  destruct r as [|z r'].
  - cbn [app flat_map]. unfold at_word_boundary. cbn [before rest]. now rewrite Hc.
  - rewrite flat_map_app. f_equal.
    + destruct (Ascii.eqb_spec "s" z) as [<-|]; [|reflexivity].
      cbn [flat_map]. unfold at_word_boundary. cbn [before rest].
      change (is_word "s") with true.
      destruct r' as [|z' r'']; [reflexivity|].
      now destruct (is_word z').
    + cbn [flat_map]. unfold at_word_boundary. cbn [before rest]. rewrite Hc.
      now destruct (is_word z).
Qed.

Lemma skip_while_ext (p q : ascii -> bool) (s : string) :
  (forall c, p c = q c) -> skip_while p s = skip_while q s.
Proof.
  intros H. induction s as [|a s IH]; [reflexivity|]. cbn [skip_while].
  now rewrite H, IH.
Qed.

Lemma upper_not_word_false (z : ascii) : is_word z = false -> is_upper_az z = false.
Proof. destruct z as [[] [] [] [] [] [] [] []]; vm_compute; congruence. Qed.

Lemma skip_cursor_before (p : ascii -> bool) (y : ascii) (s : string) :
  exists c, before (skip_cursor p (Cursor (Some y) s)) = Some c
            /\ (c = y \/ p c = true).
Proof.
  unfold skip_cursor. cbn [before rest].
  destruct (skip_while_split p s) as (w & Hs & Hw).
  pose proof (matched_app w (skip_while p s)) as Hm. rewrite <- Hs in Hm.
  rewrite Hm.
  destruct w as [|a w]; [exists y; split; [reflexivity|now left]|].
  destruct (last_char_all p (Some y) (String a w) Hw) as (c & Hc & Hpc); [discriminate|].
  exists c. split; [exact Hc|now right].
Qed.

(** The acronym pattern at the start of a word [w] that the text [t]
    follows: it matches the whole word or nothing. *)
Lemma match_at_acronym_word (b : option ascii) (w t : string) :
  match b with Some c => is_word c = false | None => True end ->
  w <> "" -> str_all is_word w = true -> no_word_after t ->
  match_at acronym_pattern (Cursor b (w +:+ t))
  = if is_acronym w then Some t else None.
Proof.
  intros Hb Hne Hw Ht.
  assert (match t with String c _ => is_upper_az c = false | "" => True end) as Htu.
  { destruct t as [|z t]; [exact I|]. now apply upper_not_word_false. }
  unfold match_at, acronym_pattern, RCat. cbn [fold_right].
  change (RSeq (ROpt (RChr "s")) (RSeq RWordB REps)) with acronym_tail.
  destruct w as [|x w1]; [contradiction|]. rewrite app_cons_str.
  cbn [str_all] in Hw. apply andb_true_iff in Hw as [Hx Hw1].
  assert (at_word_boundary (Cursor b (String x (w1 +:+ t))) = true) as Hbd.
  { unfold at_word_boundary. cbn [before rest]. rewrite Hx.
    destruct b as [c|]; [now rewrite Hb|reflexivity]. }
  cbn [matches]. rewrite Hbd. rewrite flat_map_single.
  change (flat_map (matches acronym_tail)
            (matches (RAtLeast2 set_AZ) (Cursor b (String x (w1 +:+ t)))))
    with (matches (RSeq (RAtLeast2 set_AZ) acronym_tail) (Cursor b (String x (w1 +:+ t)))).
  unfold RAtLeast2, set_AZ. rewrite matches_seq_assoc, matches_set_seq, set_AZ_spec.
  unfold is_acronym. cbn [skip_while].
  destruct (is_upper_az x) eqn:Hux.
  2:{ cbn [String.length]. rewrite Nat.sub_diag. reflexivity. }
  rewrite matches_seq_assoc.
  destruct w1 as [|y w2].
  { rewrite app_nil_l_str. cbn [skip_while String.length].
    rewrite matches_set_seq. destruct t as [|z t']; [reflexivity|].
    rewrite set_AZ_spec, Htu. reflexivity. }
  rewrite app_cons_str, matches_set_seq, set_AZ_spec. cbn [skip_while].
  cbn [str_all] in Hw1. apply andb_true_iff in Hw1 as [Hy Hw2].
  destruct (is_upper_az y) eqn:Huy.
  2:{ cbn [String.length].
      replace (S (S (String.length w2)) - S (String.length w2)) with 1 by lia.
      reflexivity. }
  cbn [matches rest].
  change (fun c : cursor => step_char (in_set false [("A", "Z")]%char) c)
    with (step_char (in_set false [("A", "Z")]%char)).
  rewrite (star_set_then_in (in_set false [("A", "Z")]%char)
             (fun b => exists c, b = Some c /\ is_word c = true)).
  2:{ intros b0 a s (c & -> & Hc) Ha. rewrite set_AZ_spec in Ha.
      rewrite (matches_acronym_tail c _ Hc).
      rewrite (upper_is_word a Ha).
      destruct (Ascii.eqb_spec "s" a) as [<-|]; [discriminate|reflexivity]. }
  2:{ intros a Ha. rewrite set_AZ_spec in Ha. exists a. split; [reflexivity|].
      now apply upper_is_word. }
  2:{ exists y. split; [reflexivity|]. exact Hy. }
  2:{ lia. }
  destruct (skip_cursor_before (in_set false [("A", "Z")]%char) y (w2 +:+ t))
    as (c & Hc & Hcy).
  assert (is_word c = true) as Hcw.
  { destruct Hcy as [->|Hcu]; [exact Hy|]. rewrite set_AZ_spec in Hcu.
    now apply upper_is_word. }
  remember (skip_cursor (in_set false [("A", "Z")]%char) (Cursor (Some y) (w2 +:+ t)))
    as c3 eqn:Hc3.
  assert (rest c3 = skip_while is_upper_az w2 +:+ t) as Hr3.
  { subst c3. unfold skip_cursor. cbn [rest].
    rewrite (skip_while_ext _ is_upper_az _ set_AZ_spec).
    now apply skip_while_app_stop. }
  destruct c3 as [b3 r3]. cbn [before rest] in Hc, Hr3. subst b3 r3.
  rewrite (matches_acronym_tail c _ Hcw).
  assert (str_all is_word (skip_while is_upper_az w2) = true) as Hu
    by now apply str_all_skip.
  pose proof (skip_while_stop is_upper_az w2) as Hstop.
  set (u := skip_while is_upper_az w2) in *.
  replace (2 <=? String.length (String x (String y w2)) - String.length u) with true.
  2:{ symmetry. apply Nat.leb_le. cbn [String.length].
      pose proof (length_skip_while is_upper_az w2). fold u in H. lia. }
  cbn [andb].
  destruct u as [|z u'].
  - rewrite app_nil_l_str. cbn [String.eqb orb].
    destruct t as [|z t']; [reflexivity|].
    unfold no_word_after in Ht. rewrite Ht.
    destruct (Ascii.eqb_spec "s" z) as [<-|]; [discriminate|reflexivity].
  - rewrite app_cons_str. cbn [str_all] in Hu.
    apply andb_true_iff in Hu as [Hz Hu']. rewrite Hz, app_nil_r.
    cbn [String.eqb orb].
    destruct (Ascii.eqb_spec "s" z) as [<-|Hzs].
    + rewrite Ascii.eqb_refl. destruct u' as [|z' u''].
      * rewrite app_nil_l_str. cbn [String.eqb].
        destruct t as [|z t']; [reflexivity|].
        unfold no_word_after in Ht. now rewrite Ht.
      * rewrite app_cons_str. cbn [str_all] in Hu'.
        apply andb_true_iff in Hu' as [Hz' _]. rewrite Hz'. reflexivity.
    + destruct (Ascii.eqb_spec z "s") as [->|]; [contradiction|reflexivity].
Qed.

Lemma match_at_acronym_no_boundary (c : cursor) :
  at_word_boundary c = false -> match_at acronym_pattern c = None.
Proof.
  intros H. unfold match_at, acronym_pattern, RCat. cbn [fold_right matches].
  now rewrite H.
Qed.

Lemma match_at_acronym_not_upper (b : option ascii) (s : string) :
  match s with String z _ => is_upper_az z = false | "" => True end ->
  match_at acronym_pattern (Cursor b s) = None.
Proof.
  intros H. unfold match_at, acronym_pattern, RCat. cbn [fold_right].
  change (RSeq (ROpt (RChr "s")) (RSeq RWordB REps)) with acronym_tail.
  cbn [matches]. destruct (at_word_boundary (Cursor b s)); [|reflexivity].
  rewrite flat_map_single.
  change (flat_map (matches acronym_tail) (matches (RAtLeast2 set_AZ) (Cursor b s)))
    with (matches (RSeq (RAtLeast2 set_AZ) acronym_tail) (Cursor b s)).
  unfold RAtLeast2, set_AZ. rewrite matches_seq_assoc, matches_set_seq.
  destruct s as [|z s']; [reflexivity|]. now rewrite set_AZ_spec, H.
Qed.

Lemma words_cons_other (a : ascii) (s : string) :
  is_word a = false -> words (String a s) = words s.
Proof. intros Ha. unfold words. cbn [words_from]. now rewrite Ha. Qed.

(** The scan of [re.findall] for acronyms, from the start of a word or
    from a position between two words, and from the inside of a word. *)
Lemma scan_acronyms (n : nat) :
  forall (fuel : nat) (b : option ascii) (s : string),
    String.length s < n -> String.length s < fuel ->
    (no_word_here b ->
     findall_from acronym_pattern fuel (Cursor b s)
     = List.filter is_acronym (words s))
    /\ (word_before b ->
        findall_from acronym_pattern fuel (Cursor b s)
        = List.filter is_acronym (words (skip_while is_word s))).
Proof.
  induction n as [|n IH]; intros fuel b s Hn Hf; [lia|].
  destruct fuel as [|f]; [lia|]. cbn [findall_from]. unfold advance. cbn [rest].
  destruct s as [|z s'].
  - split; intros Hb.
    + rewrite match_at_acronym_not_upper by exact I. reflexivity.
    + rewrite match_at_acronym_not_upper by exact I. reflexivity.
  - cbn [String.length] in Hn, Hf.
    destruct (IH f (Some z) s' ltac:(lia) ltac:(lia)) as [IH1 IH2].
    destruct (is_word z) eqn:Hz.
    + split; intros Hb.
      * (* the start of a word *)
        destruct (skip_while_split is_word (String z s')) as (w & Hs & Hw).
        set (t := skip_while is_word (String z s')) in *.
        assert (no_word_after t) as Ht.
        { pose proof (skip_while_stop is_word (String z s')) as Hstop. fold t in Hstop.
          unfold no_word_after. now destruct t. }
        assert (w <> "") as Hne.
        { intros ->. rewrite app_nil_l_str in Hs.
          pose proof (skip_while_stop is_word (String z s')) as Hstop. fold t in Hstop.
          rewrite <- Hs in Hstop. congruence. }
        assert (skip_while is_word t = t) as Htt.
        { destruct t as [|c t']; [reflexivity|]. cbn [skip_while].
          unfold no_word_after in Ht. now rewrite Ht. }
        assert (String.length t < String.length (String z s')) as Hlt.
        { pose proof (f_equal String.length Hs) as Hl.
          rewrite length_app_str in Hl. rewrite Hl.
          destruct w; [contradiction|cbn [String.length]; lia]. }
        unfold words at 1. rewrite words_from_cur. fold t.
        rewrite app_nil_l_str.
        assert (matched (String z s') t = w) as Hmw.
        { rewrite Hs at 1. apply matched_app. }
        rewrite Hmw. destruct w as [|x w']; [contradiction|]. cbn [emit_word app].
        cbn [List.filter].
        rewrite Hs at 1. rewrite (match_at_acronym_word b _ t Hb Hne Hw Ht).
        destruct (is_acronym (String x w')) eqn:Hacr.
        -- rewrite (proj2 (Nat.ltb_lt _ _) Hlt). rewrite Hmw. f_equal.
           unfold cursor_after. cbn [before rest]. rewrite Hmw.
           destruct (last_char_all is_word b (String x w') Hw Hne) as (c & Hc & Hcw).
           rewrite Hc.
           cbn [String.length] in Hlt.
           destruct (IH f (Some c) t ltac:(lia) ltac:(lia)) as [_ IHt].
           rewrite IHt by (now exists c). now rewrite Htt.
        -- rewrite IH2 by (now exists z).
           replace (skip_while is_word s') with t; [reflexivity|].
           unfold t. cbn [skip_while]. now rewrite Hz.
      * (* inside a word *)
        destruct Hb as (c & -> & Hc).
        rewrite match_at_acronym_no_boundary.
        2:{ unfold at_word_boundary. cbn [before rest]. now rewrite Hc, Hz. }
        rewrite IH2 by (now exists z). cbn [skip_while]. now rewrite Hz.
    + assert (match_at acronym_pattern (Cursor b (String z s')) = None) as ->.
      { apply match_at_acronym_not_upper. now apply upper_not_word_false. }
      split; intros Hb.
      * rewrite IH1 by exact Hz. now rewrite words_cons_other.
      * rewrite IH1 by exact Hz. cbn [skip_while]. rewrite Hz.
        now rewrite words_cons_other.
Qed.

(** X6.  The acronyms of a text are read word by word: cut the text
    into its words (the longest runs of letters, digits and
    underscores); the acronyms found are, in the order of the text,
    exactly the words that consist of two or more capital letters A to
    Z and at most one s after them.  A word with a digit, an
    underscore or any other lower-case letter gives nothing, not even
    for its capital part. *)
Theorem acronyms_word_by_word (content : string) :
  re_findall acronym_pattern content = List.filter is_acronym (words content).
Proof.
  unfold re_findall.
  apply (scan_acronyms (S (String.length content)) _ None content); [lia|lia|exact I].
Qed.

(** ** The glossaries after a run *)

Lemma re_findall_occurs (r : regex) (s m : string) :
  In m (re_findall r s) -> occurs m s.
Proof.
  intros H. apply re_findall_sound in H as (pre & post & -> & _).
  now exists pre, post.
Qed.

Lemma indexed_occurs (E : env) (pat : regex) (st : state) (paths : list string)
    (key r : string) :
  indexed E pat st paths key r ->
  exists p content,
    p ∈ paths /\ relpath E p (root_dir E) = r
    /\ files st !! p = Some (inr content) /\ occurs key content.
Proof.
  intros (p & content & raws & Hp & Hr & [Hf _] & Hk).
  exists p, content. repeat split; try assumption.
  apply re_findall_occurs with pat. now apply list_elem_of_In.
Qed.

(** X7.  After the loop of [main] over distinct paths, started with
    empty glossaries, every file that a term or an acronym is listed
    with is one of the processed files, under its relative path, and
    the text that was read from it contains the term or acronym. *)
Theorem glossary_files_contain_key (E : env) (paths : list string) (st : state) :
  NoDup paths ->
  terms st = ∅ ->
  acronyms st = ∅ ->
  let st' := snd (process_all E paths st) in
  forall key r,
    r ∈ files_of key (terms st') \/ r ∈ files_of key (acronyms st') ->
    exists p content,
      p ∈ paths /\ relpath E p (root_dir E) = r
      /\ files st !! p = Some (inr content) /\ occurs key content.
Proof.
  intros Hnd Ht Ha st' key r. subst st'. rewrite process_all_run. cbn [snd].
  intros [H|H].
  - apply (fold_files_of E terms term_pattern (terms_step E) paths Hnd) in H.
    destruct H as [H|H]; [|now apply indexed_occurs in H].
    rewrite Ht in H. unfold files_of in H. rewrite lookup_empty in H.
    cbn in H. now apply elem_of_empty in H.
  - apply (fold_files_of E acronyms acronym_pattern (acronyms_step E) paths Hnd) in H.
    destruct H as [H|H]; [|now apply indexed_occurs in H].
    rewrite Ha in H. unfold files_of in H. rewrite lookup_empty in H.
    cbn in H. now apply elem_of_empty in H.
Qed.

Lemma glossary_files_contain_key_witness :
  NoDup ["./x.md"]
  /\ exists p content,
       p ∈ ["./x.md"] /\ relpath here p (root_dir here) = "x.md"
       /\ files (fresh_indexer {["./x.md" := inr "Use the API."]}) !! p
          = Some (inr content)
       /\ occurs "API" content.
Proof.
  assert (NoDup ["./x.md"]) as Hnd.
  { apply NoDup_cons. split; [apply not_elem_of_nil|apply NoDup_nil_2]. }
  split; [exact Hnd|].
  assert ("x.md" ∈ files_of "API"
            (acronyms (snd (process_all here ["./x.md"]
                              (fresh_indexer {["./x.md" := inr "Use the API."]})))))
    as H by (vm_compute; reflexivity).
  exact (glossary_files_contain_key here ["./x.md"]
           (fresh_indexer {["./x.md" := inr "Use the API."]})
           Hnd eq_refl eq_refl "API" "x.md" (or_intror H)).
Defined.

(** ** The order of the files *)

Section Order.
Variable E : env.

Lemma step_outcome (st : state) (p : string) :
  quiet (process_step E st p) = apply_outcome E p (outcome E p (quiet st)) (quiet st).
Proof.
  unfold process_step. rewrite process_file_run, process_file_body_run.
  unfold outcome, apply_outcome, print, modify. cbn [snd].
  destruct st as [tm ac tc fs lk out]. unfold quiet, set_stdout. cbn [files toc locked terms acronyms stdout].
  destruct (fs !! p) as [[e|content]|]; [reflexivity| |reflexivity].
  destruct (render E content) as [e|raws]; [reflexivity|]. cbv zeta.
  unfold extracted. cbn [files toc locked terms acronyms stdout].
  destruct (recorded (relpath E p (root_dir E)) tc ++ map heading_entry raws)
    as [|h hs] eqn:Hhs; [reflexivity|].
  destruct (new_content (h :: hs) content) as [e|new]; [reflexivity|].
  destruct (lk !! p) as [e|]; reflexivity.
Qed.

Lemma step_quiet (st1 st2 : state) (p : string) :
  quiet st1 = quiet st2 -> quiet (process_step E st1 p) = quiet (process_step E st2 p).
Proof. intros H. now rewrite !step_outcome, H. Qed.

Lemma fold_quiet (paths : list string) :
  forall st1 st2, quiet st1 = quiet st2 ->
    quiet (fold_left (process_step E) paths st1)
    = quiet (fold_left (process_step E) paths st2).
Proof.
  induction paths as [|p l IH]; intros st1 st2 H; [exact H|].
  cbn [fold_left]. apply IH. now apply step_quiet.
Qed.

Lemma dd_add_lookup (k x k' : string) (d : gmap string (gset string)) :
  dd_add k x d !! k' = if decide (k' = k) then Some (files_of k d ∪ {[x]}) else d !! k'.
Proof.
  unfold dd_add, files_of. destruct (decide (k' = k)) as [->|Hne].
  - apply lookup_insert_eq.
  - now apply lookup_insert_ne.
Qed.

Lemma add_all_commute (k1 k2 : list string) (x1 x2 : string)
    (d : gmap string (gset string)) :
  add_all k1 x1 (add_all k2 x2 d) = add_all k2 x2 (add_all k1 x1 d).
Proof.
  apply map_eq. intros k. rewrite !add_all_lookup, !files_of_add_all.
  destruct (decide (k ∈ k1)), (decide (k ∈ k2)); try reflexivity.
  f_equal. rewrite <- !(assoc_L (∪)). f_equal. apply (comm_L (∪)).
Qed.

Lemma outcome_frame (p q : string) (o : option _) (st : state) :
  p <> q -> relpath E p (root_dir E) <> relpath E q (root_dir E) ->
  outcome E p (apply_outcome E q o st) = outcome E p st.
Proof.
  intros Hpq Hrel. destruct o as [[[[ts acs] hs] w]|]; [|reflexivity].
  unfold outcome, apply_outcome. cbn [files toc locked].
  assert (forall fs : gmap string (exn + string),
            match w with Some out => <[q := inr out]> fs | None => fs end !! p = fs !! p)
    as ->.
  { intros fs. destruct w; [now apply lookup_insert_ne|reflexivity]. }
  unfold recorded. rewrite lookup_insert_ne by congruence. reflexivity.
Qed.

Lemma apply_outcome_commute (p q : string) (o1 o2 : option _) (st : state) :
  p <> q -> relpath E p (root_dir E) <> relpath E q (root_dir E) ->
  apply_outcome E p o1 (apply_outcome E q o2 st)
  = apply_outcome E q o2 (apply_outcome E p o1 st).
Proof.
  intros Hpq Hrel.
  destruct o1 as [[[[ts1 acs1] hs1] w1]|], o2 as [[[[ts2 acs2] hs2] w2]|];
    try reflexivity.
  unfold apply_outcome. cbn [terms acronyms toc files locked stdout]. f_equal.
  - apply add_all_commute.
  - apply add_all_commute.
  - now apply insert_insert_ne.
  - destruct w1, w2; try reflexivity. now apply insert_insert_ne.
Qed.

Lemma step_swap (st : state) (p q : string) :
  relpath E p (root_dir E) <> relpath E q (root_dir E) ->
  quiet (process_step E (process_step E st p) q)
  = quiet (process_step E (process_step E st q) p).
Proof.
  intros Hrel. assert (p <> q) as Hpq by congruence.
  rewrite (step_outcome (process_step E st p) q), (step_outcome (process_step E st q) p).
  rewrite !step_outcome.
  rewrite (outcome_frame q p) by congruence.
  rewrite (outcome_frame p q) by congruence.
  symmetry. now apply apply_outcome_commute.
Qed.

Lemma fold_permutation (l1 l2 : list string) :
  l1 ≡ₚ l2 ->
  NoDup (map (fun p => relpath E p (root_dir E)) l1) ->
  forall st, quiet (fold_left (process_step E) l1 st)
             = quiet (fold_left (process_step E) l2 st).
Proof.
  induction 1 as [|x l l' _ IH|x y l|l l' l'' H1 IH1 H2 IH2]; intros Hnd st.
  - reflexivity.
  - cbn [fold_left]. apply IH. cbn [map] in Hnd. now apply NoDup_cons in Hnd as [_ ?].
  - cbn [fold_left]. apply fold_quiet. apply step_swap.
    cbn [map] in Hnd. apply NoDup_cons in Hnd as [Hy _].
    intros Heq. apply Hy. rewrite <- Heq. now left.
  - rewrite IH1 by exact Hnd. apply IH2.
    apply (NoDup_Permutation_proper _ _ (Permutation_map (fun p => relpath E p (root_dir E)) H1)).
    exact Hnd.
Qed.

End Order.

Lemma index_content_quiet (st : state) : index_content (quiet st) = index_content st.
Proof. reflexivity. Qed.

(** X8.  The order in which the files are processed does not matter:
    for two orderings of the same files with distinct relative paths,
    the loop of [main] leaves the same terms, acronyms and tables of
    contents on record and the same text in every file, and the index
    generated afterwards is the same. *)
Theorem process_order_irrelevant (E : env) (paths1 paths2 : list string) (st : state) :
  paths1 ≡ₚ paths2 ->
  NoDup (map (fun p => relpath E p (root_dir E)) paths1) ->
  let s1 := snd (process_all E paths1 st) in
  let s2 := snd (process_all E paths2 st) in
  terms s1 = terms s2 /\ acronyms s1 = acronyms s2 /\ toc s1 = toc s2
  /\ files s1 = files s2 /\ locked s1 = locked s2
  /\ index_content s1 = index_content s2.
Proof.
  intros Hperm Hnd s1 s2. subst s1 s2. rewrite !process_all_run. cbn [snd].
  pose proof (fold_permutation E paths1 paths2 Hperm Hnd st) as H.
  set (s1 := fold_left (process_step E) paths1 st) in *.
  set (s2 := fold_left (process_step E) paths2 st) in *.
  rewrite <- (index_content_quiet s1), <- (index_content_quiet s2), H.
  repeat split;
    [exact (f_equal terms H)|exact (f_equal acronyms H)|exact (f_equal toc H)
    |exact (f_equal files H)|exact (f_equal locked H)].
Qed.

Lemma process_order_irrelevant_witness :
  ["./a.md"; "./b.md"] ≡ₚ ["./b.md"; "./a.md"]
  /\ NoDup (map (fun p => relpath here p (root_dir here)) ["./a.md"; "./b.md"])
  /\ files (snd (process_all here ["./a.md"; "./b.md"] (initial_state here two_files ∅)))
     = files (snd (process_all here ["./b.md"; "./a.md"] (initial_state here two_files ∅))).
Proof.
  assert (Hp : ["./a.md"; "./b.md"] ≡ₚ ["./b.md"; "./a.md"]) by apply perm_swap.
  assert (Hnd : NoDup (map (fun p => relpath here p (root_dir here))
                         ["./a.md"; "./b.md"])).
  { vm_compute. repeat (apply NoDup_cons; split; [|]).
    - rewrite !elem_of_cons, elem_of_nil. intros [|]; discriminate || contradiction.
    - apply not_elem_of_nil.
    - apply NoDup_nil_2. }
  split; [exact Hp|]. split; [exact Hnd|].
  exact (proj1 (proj2 (proj2 (proj2
           (process_order_irrelevant here ["./a.md"; "./b.md"] ["./b.md"; "./a.md"]
              (initial_state here two_files ∅) Hp Hnd))))).
Defined.

(** ** More on [update_file_toc] *)

Lemma new_content_inserts (hs : list heading) (content : string) :
  no_block content ->
  exists pre post,
    content = pre +:+ post
    /\ (new_content hs content
        = inr (pre +:+ nl +:+ nl +:+ toc_content hs +:+ nl +:+ post)
        \/ (pre = ""
            /\ new_content hs content = inr (toc_content hs +:+ nl +:+ post))).
Proof.
  intros Hno. unfold new_content.
  pose proof (proj2 (search_toc_none content None) Hno) as Hnone.
  change (search_from toc_pattern None content)
    with (re_search toc_pattern content) in Hnone.
  rewrite Hnone.
  pose proof (re_search_heading_spec content) as Hh.
  destruct (re_search first_heading_pattern content) as [[[pre m] post]|].
  - destruct Hh as (Hc & _). exists (pre +:+ m), post. split.
    + now rewrite app_assoc_str.
    + left. now rewrite !app_assoc_str.
  - exists "", content. split; [reflexivity|]. right. now split.
Qed.

(** The template parser refuses a text at its first backslash when a
    letter that starts no escape follows it. *)
Lemma parse_escape_bad (e : ascii) (b : string) :
  bad_escape_letter e = true -> parse_escape (String e b) = None.
Proof.
  unfold parse_escape.
  destruct e as [[] [] [] [] [] [] [] []]; vm_compute; congruence.
Qed.

Lemma parse_template_bad (a : string) (e : ascii) (b : string) :
  str_all not_backslash a = true -> bad_escape_letter e = true ->
  forall fuel, String.length (a +:+ String BSLASH (String e b)) <= fuel ->
    parse_template_from fuel (a +:+ String BSLASH (String e b)) = None.
Proof.
  intros Ha He. induction a as [|c a IH]; intros fuel Hlen.
  - rewrite app_nil_l_str in *. destruct fuel as [|f]; [cbn in Hlen; lia|].
    cbn [parse_template_from]. rewrite Ascii.eqb_refl.
    now rewrite parse_escape_bad.
  - rewrite app_cons_str in *. cbn [str_all] in Ha.
    apply andb_true_iff in Ha as [Hc Ha].
    destruct fuel as [|f]; [cbn in Hlen; lia|].
    cbn [parse_template_from]. unfold not_backslash in Hc.
    apply negb_true_iff in Hc. rewrite Hc.
    rewrite IH; [reflexivity|exact Ha|cbn [String.length] in Hlen; lia].
Qed.

Lemma new_content_bad_escape (hs : list heading) (content a : string)
    (e : ascii) (b : string) :
  has_block content ->
  toc_content hs +:+ nl = a +:+ String BSLASH (String e b) ->
  str_all not_backslash a = true -> bad_escape_letter e = true ->
  exists x, new_content hs content = inl x.
Proof.
  intros Hblock Heq Ha He. unfold new_content.
  pose proof (search_toc_none content None) as Hnone.
  change (search_from toc_pattern None content)
    with (re_search toc_pattern content) in Hnone.
  destruct (re_search toc_pattern content) as [found|].
  - unfold re_sub, parse_template. rewrite Heq.
    rewrite (parse_template_bad a e b Ha He) by lia. now eexists.
  - exfalso. apply (has_block_not_no_block content Hblock). now apply Hnone.
Qed.

(** X10.  Where a table of contents exists already, the new one goes
    through the replacement template of [re.sub]: if its first
    backslash (it comes from a heading) is followed by a letter that
    starts no escape, the rewrite raises.  [process_file] catches it:
    the file keeps its text and one error line is printed, but the
    headings of the file stay on record, as do its terms. *)
Theorem bad_escape_keeps_file (E : env) (file_path content : string)
    (raws : list (nat * string)) (st : state) (a : string) (e : ascii) (b : string) :
  files st !! file_path = Some (inr content) ->
  render E content = inr raws ->
  let rel_path := relpath E file_path (root_dir E) in
  let hs := recorded rel_path (toc st) ++ map heading_entry raws in
  has_block content ->
  toc_content hs +:+ nl = a +:+ String BSLASH (String e b) ->
  str_all not_backslash a = true ->
  bad_escape_letter e = true ->
  let st' := snd (process_file E file_path st) in
  files st' = files st
  /\ toc st' !! rel_path = Some hs
  /\ terms st' = add_all (re_findall term_pattern content) rel_path (terms st)
  /\ exists x, stdout st' = stdout st ++ [error_line file_path x].
Proof.
  intros Hf Hr rel_path hs Hblock Heq Ha He st'. subst st'.
  destruct (new_content_bad_escape hs content a e b Hblock Heq Ha He) as (x & Hx).
  rewrite process_file_run, process_file_body_run, Hf, Hr. cbv zeta.
  fold rel_path. fold hs.
  assert (hs <> []) as Hne.
  { intros H0. rewrite H0 in Heq.
    assert (str_all not_backslash (toc_content [] +:+ nl) = true) as Hplain
      by (vm_compute; reflexivity).
    rewrite Heq, str_all_app, Ha in Hplain. cbn [str_all andb] in Hplain.
    change (not_backslash BSLASH) with false in Hplain. discriminate. }
  unfold extracted. fold rel_path. fold hs. clearbody hs.
  destruct hs as [|h hs']; [contradiction|].
  rewrite Hx. cbn [snd]. unfold logged, set_stdout.
  cbn [files toc terms stdout].
  repeat split.
  - apply lookup_insert_eq.
  - now exists x.
Qed.

Lemma bad_escape_keeps_file_witness :
  has_block regex_notes
  /\ bad_escape_letter "d" = true
  /\ files (snd (process_file here "./r.md"
                   (fresh_indexer {["./r.md" := inr regex_notes]})))
     = files (fresh_indexer {["./r.md" := inr regex_notes]}).
Proof.
  assert (has_block regex_notes) as Hblock.
  { destruct (has_block_or_not regex_notes) as [H|H]; [exact H|exfalso].
    apply (search_toc_none regex_notes None) in H. vm_compute in H. discriminate. }
  split; [exact Hblock|]. split; [reflexivity|].
  refine (proj1 (bad_escape_keeps_file here "./r.md" regex_notes
                   [(1, "Match \d+"); (2, "Table of Contents")]
                   (fresh_indexer {["./r.md" := inr regex_notes]})
                   ("## Table of Contents" +:+ nl +:+ "- [Match ") "d"
                   ("+](#match-\d+)" +:+ nl
                    +:+ "  - [Table of Contents](#table-of-contents)" +:+ nl +:+ nl)
                   _ _ Hblock _ _ _)).
  all: vm_compute; reflexivity.
Defined.

(** X11.  What [update_file_toc] writes is found again: whenever the
    headings hold no line feed and no backslash, the new text contains
    a table of contents that [toc_pattern] matches, so the next run
    takes the replacing branch. *)
Theorem written_toc_is_found (hs : list heading) (content out : string) :
  headings_all plain_char hs = true ->
  new_content hs content = inr out ->
  has_block out /\ exists found, re_search toc_pattern out = Some found.
Proof.
  intros Hplain Hnew.
  assert (headings_all not_backslash hs = true /\ headings_all not_LF hs = true)
    as [Hbs Hlf].
  { split; apply (headings_all_impl plain_char); try exact Hplain;
      intros c Hc; now apply plain_char_spec in Hc. }
  pose proof (toc_content_block hs Hlf) as HR.
  assert (has_block out) as Hout.
  { destruct (has_block_or_not content) as [Hb|Hno].
    - destruct (new_content_replaces hs content Hbs Hb) as (out' & Hn & Hrep).
      rewrite Hn in Hnew. injection Hnew as <-.
      now apply (replaced_has_block _ _ _ HR Hrep).
    - destruct (new_content_inserts hs content Hno) as (pre & post & _ & [Hn|[_ Hn]]);
        rewrite Hn in Hnew; injection Hnew as <-.
      + do 3 apply has_block_app. rewrite <- app_assoc_str.
        now apply has_block_start.
      + rewrite <- app_assoc_str. now apply has_block_start. }
  split; [exact Hout|].
  pose proof (search_toc_none out None) as Hnone.
  change (search_from toc_pattern None out) with (re_search toc_pattern out) in Hnone.
  destruct (re_search toc_pattern out) as [found|]; [now exists found|].
  exfalso. apply (has_block_not_no_block out Hout). now apply Hnone.
Qed.

Lemma written_toc_is_found_witness :
  headings_all plain_char [(1, "Doc", "doc")] = true
  /\ has_block ("# Doc" +:+ nl +:+ nl
                +:+ "## Table of Contents" +:+ nl +:+ "- [Doc](#doc)" +:+ nl
                +:+ nl +:+ nl +:+ "text").
Proof.
  split; [reflexivity|].
  refine (proj1 (written_toc_is_found [(1, "Doc", "doc")] ("# Doc" +:+ nl +:+ "text")
                   _ eq_refl _)).
  vm_compute. reflexivity.
Defined.

(** ** [process_file], [generate_index] and [main] *)

Section Run.
Variable E : env.

Lemma process_file_outcome (st : state) (p : string) :
  quiet (snd (process_file E p st)) = apply_outcome E p (outcome E p st) (quiet st).
Proof.
  rewrite process_file_run, process_file_body_run.
  unfold outcome, apply_outcome.
  destruct st as [tm ac tc fs lk out]. unfold quiet, set_stdout.
  cbn [files toc locked terms acronyms stdout].
  destruct (fs !! p) as [[e|content]|]; [reflexivity| |reflexivity].
  destruct (render E content) as [e|raws]; [reflexivity|]. cbv zeta.
  unfold extracted. cbn [files toc locked terms acronyms stdout].
  destruct (recorded (relpath E p (root_dir E)) tc ++ map heading_entry raws)
    as [|h hs] eqn:Hhs; [reflexivity|].
  destruct (new_content (h :: hs) content) as [e|new]; [reflexivity|].
  destruct (lk !! p) as [e|]; reflexivity.
Qed.

Lemma files_apply_outcome (p : string) (st : state) :
  files (apply_outcome E p (outcome E p st) (quiet st))
  = match outcome E p st with
    | Some (_, _, _, Some out) => <[p := inr out]> (files st)
    | _ => files st
    end.
Proof.
  destruct (outcome E p st) as [[[[ts acs] hs] [out|]]|]; reflexivity.
Qed.

Lemma process_file_files (st : state) (p : string) :
  files (snd (process_file E p st))
  = match outcome E p st with
    | Some (_, _, _, Some out) => <[p := inr out]> (files st)
    | _ => files st
    end.
Proof.
  rewrite <- files_apply_outcome, <- process_file_outcome. reflexivity.
Qed.

Lemma outcome_written (st : state) (p out : string) ts acs hs :
  outcome E p st = Some (ts, acs, hs, Some out) ->
  locked st !! p = None
  /\ exists content, files st !! p = Some (inr content)
                     /\ hs <> [] /\ new_content hs content = inr out.
Proof.
  unfold outcome.
  destruct (files st !! p) as [[e|content]|]; try discriminate.
  destruct (render E content) as [e|raws]; try discriminate.
  destruct (recorded _ _ ++ _) as [|h l]; [discriminate|].
  destruct (new_content (h :: l) content) as [e|new] eqn:Hn; [discriminate|].
  destruct (locked st !! p) as [e|] eqn:Hl; [discriminate|].
  intros [= <- <- <- <-]. split; [reflexivity|]. exists content. now repeat split.
Qed.

Lemma process_file_frame (st : state) (p : string) :
  let st' := snd (process_file E p st) in
  (forall q, q <> p -> files st' !! q = files st !! q)
  /\ (files st !! p = None -> files st' = files st)
  /\ (forall q, is_Some (files st !! q) -> is_Some (files st' !! q))
  /\ (forall q, is_Some (locked st !! q) -> files st' !! q = files st !! q)
  /\ locked st' = locked st.
Proof.
  cbv zeta. rewrite process_file_files.
  pose proof (proj1 (process_file_fields E p st)) as Hlk. cbv zeta in Hlk.
  pose proof (outcome_written st p) as Hw.
  destruct (outcome E p st) as [[[[ts acs] hs] [out|]]|].
  2-3: (repeat split; auto).
  destruct (Hw out ts acs hs eq_refl) as (Hl & content & Hf & _).
  split; [|split; [|split; [|split]]].
  - intros q Hq. now apply lookup_insert_ne.
  - rewrite Hf. discriminate.
  - intros q Hq. destruct (decide (q = p)) as [->|Hne].
    + rewrite lookup_insert_eq. now eexists.
    + now rewrite lookup_insert_ne.
  - intros q [e Hq]. destruct (decide (q = p)) as [->|Hne].
    + rewrite Hl in Hq. discriminate.
    + now apply lookup_insert_ne.
  - exact Hlk.
Qed.

End Run.

(** X12.  [process_file] changes at most the file it is given: every
    other file keeps its text; a path that does not exist is not
    created; no file is removed; and a file that cannot be opened for
    writing keeps its text, the one processed included. *)
Theorem process_file_touches_one_file (E : env) (file_path : string) (st : state) :
  let st' := snd (process_file E file_path st) in
  (forall q, q <> file_path -> files st' !! q = files st !! q)
  /\ (files st !! file_path = None -> files st' = files st)
  /\ (forall q, is_Some (files st !! q) -> is_Some (files st' !! q))
  /\ (forall q, is_Some (locked st !! q) -> files st' !! q = files st !! q)
  /\ locked st' = locked st.
Proof. apply process_file_frame. Qed.

Section Main.
Variable E : env.

Lemma fold_locked (paths : list string) (st : state) :
  locked (fold_left (process_step E) paths st) = locked st.
Proof.
  revert st. induction paths as [|p l IH]; intros st; [reflexivity|].
  cbn [fold_left]. rewrite IH. exact (proj1 (process_step_fields E p st)).
Qed.

Lemma locked_loop_state (tree : node) (ro : gmap string exn) :
  locked (loop_state E tree ro) = ro.
Proof. unfold loop_state. now rewrite fold_locked. Qed.

Lemma main_unfold (tree : node) (ro : gmap string exn) :
  main E tree ro =
  let L := loop_state E tree ro in
  match ro !! index_path E with
  | Some e => (inl e, set_stdout (fun out => out ++ ["Generating main index..."]) L)
  | None =>
      (inr tt,
       set_stdout (fun out => out ++ [done_line])
         (set_files (fun fs => <[index_path E := inr (index_content L)]> fs)
            (set_stdout (fun out => out ++ ["Generating main index..."]) L)))
  end.
Proof.
  cbv zeta.
  unfold main, main_from.
  unfold bind at 1. unfold print at 1. unfold modify at 1.
  unfold bind at 1. unfold print at 1. unfold modify at 1.
  unfold bind at 1. rewrite process_all_run.
  replace (set_stdout
             (fun out =>
                out ++ ["Processing "
                        +:+ nat_to_string (length (find_markdown_files E tree))
                        +:+ " files..."])
             (set_stdout (fun out => out ++ ["Finding markdown files..."])
                (initial_state E tree ro)))
    with (announced E tree ro) by reflexivity.
  fold (loop_state E tree ro).
  pose proof (locked_loop_state tree ro) as Hl.
  set (L := loop_state E tree ro) in *.
  unfold generate_index, write_file. unfold bind, print, modify.
  cbn [locked set_stdout]. rewrite Hl.
  destruct (ro !! index_path E); reflexivity.
Qed.

End Main.

(** X13.  A run of [main] ends normally whenever [INDEX.md] can be
    opened for writing, whatever happened to the single files: the
    index is then written from the tables as the loop left them, and
    the closing line is the last one printed. *)
Theorem main_completes (E : env) (tree : node) (ro : gmap string exn) :
  ro !! index_path E = None ->
  let L := loop_state E tree ro in
  fst (main E tree ro) = inr tt
  /\ files (snd (main E tree ro)) = <[index_path E := inr (index_content L)]> (files L)
  /\ stdout (snd (main E tree ro))
     = stdout L ++ ["Generating main index..."; done_line]
  /\ terms (snd (main E tree ro)) = terms L
  /\ acronyms (snd (main E tree ro)) = acronyms L
  /\ toc (snd (main E tree ro)) = toc L.
Proof.
  intros Hro L. rewrite main_unfold, Hro. cbv zeta. fold L. cbn.
  repeat split. now rewrite <- app_assoc.
Qed.

Lemma main_completes_witness :
  (∅ : gmap string exn) !! index_path here = None
  /\ fst (main here two_files ∅) = inr tt.
Proof.
  split; [reflexivity|].
  exact (proj1 (main_completes here two_files ∅ eq_refl)).
Defined.

(** X14.  When [INDEX.md] cannot be opened for writing, the exception
    leaves [main]: nothing catches it.  By then every file has been
    processed; the store is as the loop left it, and the closing line
    is not printed. *)
Theorem main_fails_on_index (E : env) (tree : node) (ro : gmap string exn) (e : exn) :
  ro !! index_path E = Some e ->
  let L := loop_state E tree ro in
  fst (main E tree ro) = inl e
  /\ files (snd (main E tree ro)) = files L
  /\ stdout (snd (main E tree ro)) = stdout L ++ ["Generating main index..."].
Proof.
  intros Hro L. rewrite main_unfold, Hro. cbv zeta. fold L. cbn. now repeat split.
Qed.

Lemma main_fails_on_index_witness :
  ({["./INDEX.md" := Exn "Permission denied"]} : gmap string exn) !! index_path here
  = Some (Exn "Permission denied")
  /\ fst (main here two_files {["./INDEX.md" := Exn "Permission denied"]})
     = inl (Exn "Permission denied").
Proof.
  split; [reflexivity|].
  exact (proj1 (main_fails_on_index here two_files
                  {["./INDEX.md" := Exn "Permission denied"]}
                  (Exn "Permission denied") eq_refl)).
Defined.

Section Main_frame.
Variable E : env.

Lemma process_step_frame (st : state) (p q : string) :
  q <> p \/ is_Some (locked st !! q) ->
  files (process_step E st p) !! q = files st !! q.
Proof.
  unfold process_step.
  set (st0 := snd (print ("Processing " +:+ p) st)).
  assert (files st0 = files st /\ locked st0 = locked st) as [Hf Hl] by now split.
  destruct (process_file_frame E st0 p) as (H1 & _ & _ & H4 & _).
  rewrite <- Hf, <- Hl. intros [Hq|Hq]; [now apply H1|now apply H4].
Qed.

Lemma fold_files_locked (q : string) (paths : list string) (st : state) :
  is_Some (locked st !! q) ->
  files (fold_left (process_step E) paths st) !! q = files st !! q.
Proof.
  revert st. induction paths as [|p l IH]; intros st Hq; [reflexivity|].
  cbn [fold_left]. rewrite IH.
  - apply process_step_frame. now right.
  - now rewrite (proj1 (process_step_fields E p st)).
Qed.

Lemma toc_step_is_Some (st : state) (p k : string) :
  is_Some (toc st !! k) -> is_Some (toc (process_step E st p) !! k).
Proof.
  intros Hk. pose proof (process_step_fields E p st) as (_ & _ & H). cbv zeta in H.
  destruct (files st !! p) as [[e|content]|].
  - destruct H as (_ & _ & ->). exact Hk.
  - destruct (render E content) as [e|raws].
    + destruct H as (_ & _ & ->). exact Hk.
    + destruct H as (_ & _ & ->).
      destruct (decide (k = relpath E p (root_dir E))) as [->|Hne].
      * rewrite lookup_insert_eq. now eexists.
      * now rewrite lookup_insert_ne.
  - destruct H as (_ & _ & ->). exact Hk.
Qed.

Lemma toc_fold_is_Some (paths : list string) (st : state) (k : string) :
  is_Some (toc st !! k) -> is_Some (toc (fold_left (process_step E) paths st) !! k).
Proof.
  revert st. induction paths as [|p l IH]; intros st Hk; [exact Hk|].
  cbn [fold_left]. apply IH. now apply toc_step_is_Some.
Qed.

(** A file of the list that can be read and rendered has an entry in
    the table of contents after the loop. *)
Lemma processed_has_entry (paths : list string) (st : state) (p content : string)
    (raws : list (nat * string)) :
  p ∈ paths ->
  files st !! p = Some (inr content) ->
  render E content = inr raws ->
  is_Some (toc (fold_left (process_step E) paths st) !! relpath E p (root_dir E)).
Proof.
  intros Hp Hf Hr.
  apply list_elem_of_split_l in Hp as (l1 & l2 & -> & Hnot).
  rewrite fold_left_app. cbn [fold_left]. apply toc_fold_is_Some.
  set (st1 := fold_left (process_step E) l1 st).
  assert (files st1 !! p = Some (inr content)) as Hf1.
  { unfold st1. now rewrite fold_files_other. }
  pose proof (process_step_fields E p st1) as (_ & _ & H). cbv zeta in H.
  rewrite Hf1, Hr in H. destruct H as (_ & _ & ->).
  rewrite lookup_insert_eq. now eexists.
Qed.

End Main_frame.

(** X15.  A run of [main] changes no file but the Markdown files it
    found and [INDEX.md]; and a file that cannot be opened for writing
    keeps its text, whichever it is. *)
Theorem main_touches_only_found (E : env) (tree : node) (ro : gmap string exn)
    (q : string) :
  ((q ∉ find_markdown_files E tree) /\ q <> index_path E) \/ is_Some (ro !! q) ->
  files (snd (main E tree ro)) !! q = files (initial_state E tree ro) !! q.
Proof.
  intros Hq.
  assert (files (loop_state E tree ro) !! q = files (initial_state E tree ro) !! q) as HL.
  { unfold loop_state. destruct Hq as [[Hq _]|Hq].
    - now rewrite fold_files_other.
    - now rewrite fold_files_locked. }
  rewrite main_unfold. cbv zeta.
  destruct (ro !! index_path E) as [e|] eqn:Hro; cbn [snd files set_stdout set_files].
  - exact HL.
  - rewrite lookup_insert_ne; [exact HL|].
    intros <-. destruct Hq as [[_ Hq]|[x Hq]]; [now apply Hq|].
    rewrite Hro in Hq. discriminate.
Qed.

Lemma main_touches_only_found_witness :
  (("./notes.txt" ∉ find_markdown_files here two_files)
   /\ "./notes.txt" <> index_path here)
  /\ files (snd (main here two_files ∅)) !! "./notes.txt"
     = files (initial_state here two_files ∅) !! "./notes.txt".
Proof.
  assert (("./notes.txt" ∉ find_markdown_files here two_files)
          /\ "./notes.txt" <> index_path here) as H.
  { split; [|discriminate].
    assert (find_markdown_files here two_files = ["./a.md"; "./b.md"]) as ->
      by (vm_compute; reflexivity).
    rewrite !elem_of_cons, elem_of_nil. intros [|[|]]; discriminate || contradiction. }
  split; [exact H|].
  exact (main_touches_only_found here two_files ∅ "./notes.txt" (or_introl H)).
Defined.

(** X16.  The index of an earlier run is a Markdown file like any
    other: an [INDEX.md] in the root directory is among the files
    found, it is processed, and when it can be read and rendered it has
    its own entry in the table of contents that the new index is
    written from. *)
Theorem old_index_is_indexed (E : env) (es : list (string * node))
    (d : exn + string) (ro : gmap string exn) (content : string)
    (raws : list (nat * string)) :
  In ("INDEX.md", File d) es ->
  files (initial_state E (Dir es) ro) !! index_path E = Some (inr content) ->
  render E content = inr raws ->
  In (index_path E) (find_markdown_files E (Dir es))
  /\ is_Some (toc (loop_state E (Dir es) ro) !! relpath E (index_path E) (root_dir E))
  /\ toc (snd (main E (Dir es) ro)) = toc (loop_state E (Dir es) ro).
Proof.
  intros Hin Hf Hr.
  assert (In (index_path E) (find_markdown_files E (Dir es))) as Hfound.
  { unfold find_markdown_files. cbn [walk flat_map]. apply in_or_app. left.
    unfold index_path. apply in_map. apply filter_In. split; [|reflexivity].
    apply in_file_names. now exists d. }
  split; [exact Hfound|]. split.
  - unfold loop_state. apply processed_has_entry with content raws.
    + now apply list_elem_of_In.
    + exact Hf.
    + exact Hr.
  - rewrite main_unfold. cbv zeta. now destruct (ro !! index_path E).
Qed.

Lemma old_index_is_indexed_witness :
  In ("INDEX.md", File (inr empty_index)) indexed_before
  /\ In (index_path here) (find_markdown_files here (Dir indexed_before))
  /\ is_Some (toc (loop_state here (Dir indexed_before) ∅)
                !! relpath here (index_path here) (root_dir here)).
Proof.
  assert (In ("INDEX.md", File (inr empty_index)) indexed_before) as Hin
    by (right; now left).
  split; [exact Hin|].
  refine ((fun H => conj (proj1 H) (proj1 (proj2 H)))
            (old_index_is_indexed here indexed_before (inr empty_index) ∅ empty_index
               [(1, "Documentation Index"); (2, "Files"); (2, "Technical Terms");
                (2, "Acronyms")] Hin _ _)).
  all: vm_compute; reflexivity.
Defined.

(** X17.  A run that finds no Markdown file still writes an index: the
    title and the three section headings with nothing under them, and
    it reports zero files. *)
Theorem nothing_found_empty_index (E : env) (tree : node) (ro : gmap string exn) :
  find_markdown_files E tree = [] ->
  ro !! index_path E = None ->
  fst (main E tree ro) = inr tt
  /\ files (snd (main E tree ro)) !! index_path E = Some (inr empty_index)
  /\ stdout (snd (main E tree ro))
     = ["Finding markdown files..."; "Processing 0 files...";
        "Generating main index..."; done_line].
Proof.
  intros Hnone Hro. rewrite main_unfold, Hro. cbv zeta.
  unfold loop_state, announced. rewrite Hnone.
  cbn [fold_left snd fst files stdout set_stdout set_files initial_state length].
  split; [reflexivity|]. split; [|reflexivity].
  rewrite lookup_insert_eq. reflexivity.
Qed.

Lemma nothing_found_empty_index_witness :
  find_markdown_files here no_documents = []
  /\ files (snd (main here no_documents ∅)) !! index_path here
     = Some (inr empty_index).
Proof.
  split; [reflexivity|].
  exact (proj1 (proj2 (nothing_found_empty_index here no_documents ∅ eq_refl eq_refl))).
Defined.

(** ** More on [find_markdown_files] *)

Lemma drop_str_last (s : string) :
  forall a x, last_char (Some a) s = Some x ->
    drop_str (String.length s) (String a s) = String x "".
Proof.
  induction s as [|b s IH]; intros a x H.
  - cbn in *. now injection H as ->.
  - cbn [String.length drop_str last_char] in *. now apply IH.
Qed.

Lemma endswith_char (s : string) (c : ascii) :
  endswith s (String c "")
  = match last_char None s with Some x => Ascii.eqb x c | None => false end.
Proof.
  unfold endswith. destruct s as [|a s]; [reflexivity|].
  cbn [String.length last_char].
  replace (S (String.length s) - 1) with (String.length s) by lia.
  destruct (last_char_default s a) as (x & Hx). rewrite Hx.
  rewrite (drop_str_last s a x Hx). cbn [String.eqb].
  rewrite andb_true_r. now destruct (Ascii.eqb x c).
Qed.

Lemma path_join_valid (top f : string) :
  valid_name f -> path_join top f = join_prefix top +:+ f.
Proof.
  intros [Hne Hf]. unfold path_join, join_prefix, startswith.
  destruct f as [|c f]; [contradiction|]. cbn [str_all] in Hf.
  apply andb_true_iff in Hf as [Hc _]. unfold no_slash in Hc.
  apply negb_true_iff, Ascii.eqb_neq in Hc.
  cbn [String.prefix]. destruct (ascii_dec "/" c) as [<-|_]; [contradiction|].
  destruct (String.eqb top "" || endswith top "/"); [reflexivity|].
  now rewrite app_assoc_str.
Qed.

Lemma join_prefix_child (top n : string) :
  valid_name n -> join_prefix (join_prefix top +:+ n) = join_prefix top +:+ n +:+ "/".
Proof.
  intros [Hne Hn]. unfold join_prefix at 1.
  assert (String.eqb (join_prefix top +:+ n) "" = false) as ->.
  { apply String.eqb_neq. intros H. apply (f_equal String.length) in H.
    rewrite length_app_str in H. destruct n; [contradiction|cbn in H; lia]. }
  rewrite endswith_char, last_char_app_r by exact Hne.
  destruct (last_char_all no_slash None n Hn Hne) as (x & -> & Hx).
  unfold no_slash in Hx. apply negb_true_iff in Hx. rewrite Hx. cbn [orb].
  now rewrite app_assoc_str.
Qed.

Lemma app_inv_head_str (p a b : string) : p +:+ a = p +:+ b -> a = b.
Proof.
  induction p as [|c p IH]; [trivial|]. rewrite !app_cons_str.
  intros [= H]. now apply IH.
Qed.

Lemma slash_free_head (n1 n2 x y : string) :
  str_all no_slash n1 = true -> str_all no_slash n2 = true ->
  n1 +:+ "/" +:+ x = n2 +:+ "/" +:+ y -> n1 = n2.
Proof.
  revert n2. induction n1 as [|a n1 IH]; intros n2 H1 H2 Heq.
  - destruct n2 as [|b n2]; [reflexivity|]. rewrite app_nil_l_str, app_cons_str in Heq.
    injection Heq as <- _. cbn in H2. discriminate.
  - destruct n2 as [|b n2].
    + rewrite app_nil_l_str, app_cons_str in Heq. injection Heq as -> _.
      cbn in H1. discriminate.
    + rewrite !app_cons_str in Heq. injection Heq as <- Heq.
      cbn [str_all] in H1, H2. apply andb_true_iff in H1 as [_ H1].
      apply andb_true_iff in H2 as [_ H2]. f_equal. now apply IH.
Qed.

Lemma slash_free_whole (f n x : string) :
  str_all no_slash f = true -> f <> n +:+ "/" +:+ x.
Proof.
  intros Hf ->. rewrite !str_all_app in Hf. cbn in Hf.
  rewrite andb_false_r in Hf. discriminate.
Qed.

Lemma NoDup_map_inj {A B} (f : A -> B) (l : list A) :
  (forall x y, In x l -> In y l -> f x = f y -> x = y) ->
  NoDup l -> NoDup (map f l).
Proof.
  intros Hinj Hnd. induction Hnd as [|a l Ha Hnd IH]; [apply NoDup_nil_2|].
  cbn [map]. apply NoDup_cons. split.
  - intros Hin. apply list_elem_of_In, in_map_iff in Hin as (y & Hy & Hyl).
    apply Ha. apply list_elem_of_In.
    rewrite <- (Hinj y a); [exact Hyl|now right|now left|exact Hy].
  - apply IH. intros x y Hx Hy. apply Hinj; now right.
Qed.

Lemma NoDup_filter_list {A} (p : A -> bool) (l : list A) :
  NoDup l -> NoDup (List.filter p l).
Proof.
  intros Hnd. induction Hnd as [|a l Ha Hnd IH]; [apply NoDup_nil_2|].
  cbn [List.filter]. destruct (p a); [|exact IH].
  apply NoDup_cons. split; [|exact IH].
  intros Hin. apply Ha. apply list_elem_of_In. apply list_elem_of_In in Hin.
  now apply filter_In in Hin as [? _].
Qed.

Lemma NoDup_file_names (es : list (string * node)) :
  NoDup (map fst es) -> NoDup (file_names es).
Proof.
  unfold file_names. induction es as [|e es IH]; intros Hnd; [apply NoDup_nil_2|].
  cbn [map] in Hnd. apply NoDup_cons in Hnd as [He Hnd].
  cbn [List.filter]. destruct (negb (is_dir (snd e))); [|now apply IH].
  cbn [map]. apply NoDup_cons. split; [|now apply IH].
  intros Hin. apply He. apply list_elem_of_In. apply list_elem_of_In in Hin.
  apply in_map_iff in Hin as (y & Hy & Hyl). apply filter_In in Hyl as [Hyl _].
  apply in_map_iff. now exists y.
Qed.

(** Every path listed below [top] starts with [top] and a separator. *)
Lemma listed_under (n : node) :
  wf_tree n ->
  forall top p, In p (flat_map listed (walk top n)) ->
    exists x, p = join_prefix top +:+ x.
Proof.
  induction n as [d|es IH] using node_entries_ind; intros Hwf top p Hin.
  - destruct Hin.
  - inversion Hwf as [|es' Hnd Hall]; subst. cbn [walk flat_map] in Hin.
    apply in_app_or in Hin as [Hin|Hin].
    + cbn [listed] in Hin. apply in_map_iff in Hin as (f & <- & Hf).
      apply filter_In in Hf as [Hf _]. apply in_file_names in Hf as (d & Hd).
      rewrite List.Forall_forall in Hall. destruct (Hall _ Hd) as [Hv _].
      exists f. now apply path_join_valid.
    + apply in_flat_map in Hin as (t & Ht & Hp).
      apply in_flat_map in Ht as (e & He & Ht).
      rewrite List.Forall_forall in Hall, IH.
      destruct (Hall _ He) as [Hv Hw].
      destruct (IH e He Hw (path_join top (fst e)) p) as (x & ->).
      { apply in_flat_map. now exists t. }
      rewrite (path_join_valid top (fst e) Hv), (join_prefix_child top _ Hv).
      exists (fst e +:+ "/" +:+ x). now rewrite !app_assoc_str.
Qed.

Lemma listed_in_child (top : string) (e : string * node) (p : string) :
  valid_name (fst e) -> wf_tree (snd e) ->
  In p (flat_map listed (walk (path_join top (fst e)) (snd e))) ->
  exists x, p = join_prefix top +:+ fst e +:+ "/" +:+ x.
Proof.
  intros Hv Hw Hin. apply (listed_under _ Hw) in Hin as (x & ->).
  rewrite (path_join_valid top (fst e) Hv), (join_prefix_child top _ Hv).
  exists x. now rewrite !app_assoc_str.
Qed.

Lemma flat_map_walk (top : string) (es : list (string * node)) :
  flat_map listed (flat_map (fun e => walk (path_join top (fst e)) (snd e)) es)
  = flat_map (fun e => flat_map listed (walk (path_join top (fst e)) (snd e))) es.
Proof.
  induction es as [|e es IH]; [reflexivity|].
  cbn [flat_map]. now rewrite flat_map_app, IH.
Qed.

Lemma listed_nodup (n : node) :
  wf_tree n -> forall top, NoDup (flat_map listed (walk top n)).
Proof.
  induction n as [d|es IH] using node_entries_ind; intros Hwf top.
  - apply NoDup_nil_2.
  - inversion Hwf as [|es' Hnd Hall]; subst. cbn [walk flat_map].
    rewrite flat_map_walk. rewrite List.Forall_forall in Hall, IH.
    apply NoDup_app. split; [|split].
    + cbn [listed]. apply NoDup_map_inj.
      * intros x y Hx Hy Heq.
        apply filter_In in Hx as [Hx _]. apply filter_In in Hy as [Hy _].
        apply in_file_names in Hx as (dx & Hx). apply in_file_names in Hy as (dy & Hy).
        destruct (Hall _ Hx) as [Hvx _]. destruct (Hall _ Hy) as [Hvy _].
        rewrite (path_join_valid top x Hvx), (path_join_valid top y Hvy) in Heq.
        now apply app_inv_head_str in Heq.
      * apply NoDup_filter_list. now apply NoDup_file_names.
    + intros p Hown Hsub. apply list_elem_of_In in Hown, Hsub.
      cbn [listed] in Hown. apply in_map_iff in Hown as (f & <- & Hf).
      apply filter_In in Hf as [Hf _]. apply in_file_names in Hf as (d & Hd).
      destruct (Hall _ Hd) as [Hvf _].
      apply in_flat_map in Hsub as (e & He & Hp).
      destruct (Hall _ He) as [Hve Hwe].
      apply (listed_in_child top e _ Hve Hwe) in Hp as (x & Hp).
      rewrite (path_join_valid top f Hvf) in Hp.
      apply app_inv_head_str in Hp.
      now apply (slash_free_whole f (fst e) x (proj2 Hvf)).
    + clear Hwf. induction es as [|e es IHes]; [apply NoDup_nil_2|].
      cbn [flat_map]. cbn [map] in Hnd. apply NoDup_cons in Hnd as [He Hnd].
      apply NoDup_app. split; [|split].
      * destruct (Hall e (or_introl eq_refl)) as [_ Hwe].
        apply (IH e (or_introl eq_refl) Hwe).
      * intros p Hp Hrest. apply list_elem_of_In in Hp, Hrest.
        destruct (Hall e (or_introl eq_refl)) as [Hve Hwe].
        apply (listed_in_child top e _ Hve Hwe) in Hp as (x & Hp).
        apply in_flat_map in Hrest as (e' & He' & Hp').
        destruct (Hall e' (or_intror He')) as [Hve' Hwe'].
        apply (listed_in_child top e' _ Hve' Hwe') in Hp' as (y & Hp').
        rewrite Hp in Hp'. apply app_inv_head_str in Hp'.
        apply slash_free_head in Hp'; [|exact (proj2 Hve)|exact (proj2 Hve')].
        apply He. apply list_elem_of_In. rewrite Hp'. now apply in_map.
      * apply IHes; [|exact Hnd|].
        -- intros x Hx. apply IH. now right.
        -- intros x Hx. apply Hall. now right.
Qed.

(** X18.  No file is listed twice: in a tree in which the names of a
    directory are distinct, not empty and without a slash, as a file
    system has them, the paths that [find_markdown_files] returns are
    pairwise distinct, whatever the root directory is. *)
Theorem find_markdown_files_nodup (E : env) (tree : node) :
  wf_tree tree -> NoDup (find_markdown_files E tree).
Proof. intros Hwf. now apply listed_nodup. Qed.

Lemma find_markdown_files_nodup_witness :
  wf_tree two_files /\ NoDup (find_markdown_files here two_files).
Proof.
  assert (wf_tree two_files) as Hwf.
  { apply wf_dir.
    - cbn [map fst]. repeat (apply NoDup_cons; split; [|]).
      + rewrite !elem_of_cons, elem_of_nil. intros [|]; discriminate || contradiction.
      + apply not_elem_of_nil.
      + apply NoDup_nil_2.
    - repeat constructor; discriminate. }
  split; [exact Hwf|]. exact (find_markdown_files_nodup here two_files Hwf).
Defined.

(** ** The test on file names *)

Lemma take_drop_str (n : nat) (s : string) : take_str n s +:+ drop_str n s = s.
Proof.
  revert s. induction n as [|n IH]; intros s; [reflexivity|].
  destruct s as [|c s]; [reflexivity|]. cbn [take_str drop_str].
  now rewrite app_cons_str, IH.
Qed.

Lemma drop_str_app (a b : string) : drop_str (String.length a) (a +:+ b) = b.
Proof. induction a as [|c a IH]; [reflexivity|]. now rewrite app_cons_str. Qed.

Lemma endswith_spec (s suf : string) :
  endswith s suf = true <-> exists stem, s = stem +:+ suf.
Proof.
  unfold endswith. split.
  - intros [Heq _]%andb_true_iff. apply String.eqb_eq in Heq.
    exists (take_str (String.length s - String.length suf) s).
    rewrite <- Heq at 2. symmetry. apply take_drop_str.
  - intros (stem & ->). rewrite length_app_str.
    replace (String.length stem + String.length suf - String.length suf)
      with (String.length stem) by lia.
    rewrite drop_str_app, String.eqb_refl. apply Nat.leb_le. lia.
Qed.

Lemma endswith_last (s suf : string) (c : ascii) :
  endswith s suf = true -> last_char None suf = Some c -> last_char None s = Some c.
Proof.
  intros (stem & ->)%endswith_spec Hc. rewrite last_char_app_r; [exact Hc|].
  intros ->. discriminate.
Qed.

Lemma not_markdown_by_last (name : string) (c : ascii) :
  last_char None name = Some c -> c <> "d"%char -> c <> "n"%char ->
  is_markdown_name name = false.
Proof.
  intros Hc Hd Hn. unfold is_markdown_name. apply orb_false_iff. split.
  - destruct (endswith name ".md") eqn:H; [|reflexivity].
    apply (endswith_last _ _ "d") in H; [|reflexivity]. congruence.
  - destruct (endswith name ".markdown") eqn:H; [|reflexivity].
    apply (endswith_last _ _ "n") in H; [|reflexivity]. congruence.
Qed.

(** X19.  What makes a file a Markdown file is the end of its name and
    nothing else: the name is [.md] or [.markdown] after any text, the
    empty one included.  The test is case sensitive, and a further
    extension after [.md] defeats it. *)
Theorem markdown_name_by_suffix (name : string) :
  (is_markdown_name name = true
   <-> exists stem, name = stem +:+ ".md" \/ name = stem +:+ ".markdown")
  /\ is_markdown_name (name +:+ ".MD") = false
  /\ is_markdown_name (name +:+ ".md.bak") = false.
Proof.
  split; [|split].
  - unfold is_markdown_name. rewrite orb_true_iff, !endswith_spec. split.
    + intros [(stem & ->)|(stem & ->)]; exists stem; [now left|now right].
    + intros (stem & [->| ->]); [left|right]; now exists stem.
  - apply (not_markdown_by_last _ "D"); [|discriminate|discriminate].
    now rewrite last_char_app_r.
  - apply (not_markdown_by_last _ "k"); [|discriminate|discriminate].
    now rewrite last_char_app_r.
Qed.

(** ** What the loop prints *)

Section Log.
Variable E : env.

Lemma process_file_body_stdout (p : string) (st : state) :
  stdout (snd (process_file_body E p st)) = stdout st.
Proof.
  rewrite process_file_body_run.
  destruct (files st !! p) as [[e|content]|]; try reflexivity.
  destruct (render E content) as [e|raws]; try reflexivity. cbv zeta.
  destruct (recorded _ _ ++ _) as [|h hs]; [reflexivity|].
  destruct (new_content (h :: hs) content) as [e|out]; [reflexivity|].
  destruct (locked st !! p); reflexivity.
Qed.

Lemma process_step_log (st : state) (p : string) :
  exists raised, stdout (process_step E st p) = stdout st ++ log_entry p raised.
Proof.
  unfold process_step. rewrite process_file_run.
  set (st0 := snd (print ("Processing " +:+ p) st)).
  assert (stdout st0 = stdout st ++ ["Processing " +:+ p]) as H0 by reflexivity.
  pose proof (process_file_body_stdout p st0) as Hb.
  destruct (process_file_body E p st0) as [[e|[]] st1]; cbn [snd] in *.
  - exists (Some e). unfold logged, set_stdout. cbn [stdout].
    rewrite Hb, H0. unfold log_entry. now rewrite <- app_assoc.
  - exists None. now rewrite Hb, H0.
Qed.

Lemma fold_log (paths : list string) :
  forall st, exists raised : list (option exn),
    length raised = length paths
    /\ stdout (fold_left (process_step E) paths st)
       = stdout st ++ concat (zip_with log_entry paths raised).
Proof.
  induction paths as [|p l IH]; intros st.
  - exists []. split; [reflexivity|]. cbn. now rewrite app_nil_r.
  - cbn [fold_left]. destruct (process_step_log st p) as (r & Hr).
    destruct (IH (process_step E st p)) as (rs & Hlen & Hrs).
    exists (r :: rs). split; [cbn; now rewrite Hlen|].
    rewrite Hrs, Hr. cbn [zip_with concat]. now rewrite <- app_assoc.
Qed.

End Log.

(** X20.  The loop of [main] prints, for every file in turn, the line
    that announces it and right after it at most one error line for
    that file: one or two lines for each file, in the order of the
    files, and nothing else. *)
Theorem loop_log_shape (E : env) (paths : list string) (st : state) :
  exists raised : list (option exn),
    length raised = length paths
    /\ stdout (snd (process_all E paths st))
       = stdout st ++ concat (zip_with log_entry paths raised).
Proof. rewrite process_all_run. apply fold_log. Qed.

(** ** Terms and acronyms apart *)

Lemma lower_not_upper (c : ascii) : is_lower_az c = true -> is_upper_az c = false.
Proof. destruct c as [[] [] [] [] [] [] [] []]; vm_compute; congruence. Qed.

Lemma is_acronym_second_lower (u l : ascii) (r : string) :
  is_lower_az l = true -> is_acronym (String u (String l r)) = false.
Proof.
  intros Hl. unfold is_acronym. cbn [skip_while].
  rewrite (lower_not_upper l Hl). destruct (is_upper_az u); cbn [String.length].
  - replace (S (S (String.length r)) - S (String.length r)) with 1 by lia. reflexivity.
  - rewrite Nat.sub_diag. reflexivity.
Qed.

Lemma is_acronym_first_lower (l : ascii) (r : string) :
  is_lower_az l = true -> is_acronym (String l r) = false.
Proof.
  intros Hl. unfold is_acronym. cbn [skip_while].
  rewrite (lower_not_upper l Hl). now rewrite Nat.sub_diag.
Qed.

Lemma lang_camel_second (m : string) :
  lang camel_case m ->
  exists u l r, m = String u (String l r) /\ is_lower_az l = true.
Proof.
  unfold camel_case, RCat. cbn [fold_right]. intros L.
  inversion L as [| | |r1 r2 m1 m2 L1 L2| | | | | | |]; subst. clear L.
  inversion L1 as [| |neg rs u1 Hu1| | | | | | | |]; subst. clear L1.
  inversion L2 as [| | |r1 r2 ma m3 La L3| | | | | | |]; subst. clear L2.
  apply lang_plus_az in La as (la & wa & -> & Hla & _).
  exists u1, la, (wa +:+ m3). now split.
Qed.

Lemma re_findall_acronyms (text : string) :
  re_findall acronym_pattern text = List.filter is_acronym (words text).
Proof.
  unfold re_findall.
  apply (scan_acronyms (S (String.length text)) _ None text); [lia|lia|exact I].
Qed.

(** X21.  No text is both a technical term and an acronym: what the
    term pattern finds never has the form of an acronym, so the
    acronym pattern finds it in no text. *)
Theorem term_is_no_acronym (content m : string) :
  In m (re_findall term_pattern content) ->
  is_acronym m = false
  /\ forall text, ~ In m (re_findall acronym_pattern text).
Proof.
  intros Hin.
  assert (is_acronym m = false) as Hno.
  { apply re_findall_sound in Hin as (pre & post & _ & c' & Hm & Hq).
    apply matches_between_wordb in Hm as (_ & Hm & _).
    apply matches_lang in Hm as (m0 & E & L & _). cbn [rest] in E.
    rewrite Hq in E. apply app_inv_tail_str in E as <-.
    inversion L as [| | | |r1 r2 m0 Lc|r1 r2 m0 Lj| | | | |]; subst; clear L.
    - apply lang_camel_second in Lc as (u & l & r & -> & Hl).
      now apply is_acronym_second_lower.
    - assert (exists sep, lang (joined_by sep) m) as (sep & Lj').
      { inversion Lj; subst; [now exists "_"%char|now exists "-"%char]. }
      apply lang_joined in Lj' as (l & a & b & -> & Hl & _).
      rewrite app_cons_str. now apply is_acronym_first_lower. }
  split; [exact Hno|]. intros text Hacr.
  rewrite re_findall_acronyms in Hacr. apply filter_In in Hacr as [_ Hacr].
  congruence.
Qed.

Lemma term_is_no_acronym_witness :
  In "doc_indexer" (re_findall term_pattern "Run doc_indexer on the read-only tree.")
  /\ is_acronym "doc_indexer" = false.
Proof.
  assert (In "doc_indexer"
            (re_findall term_pattern "Run doc_indexer on the read-only tree.")) as H
    by (vm_compute; auto).
  split; [exact H|]. exact (proj1 (term_is_no_acronym _ _ H)).
Defined.

(** ** Extracting twice *)

Lemma add_all_idem (keys : list string) (x : string) (d : gmap string (gset string)) :
  add_all keys x (add_all keys x d) = add_all keys x d.
Proof.
  apply map_eq. intros k. rewrite !add_all_lookup, !files_of_add_all.
  destruct (decide (k ∈ keys)); [|reflexivity].
  f_equal. rewrite <- (assoc_L (∪)). f_equal. apply (idemp_L (∪)).
Qed.

(** X22.  The glossaries are dictionaries of sets, the table of
    contents is a dictionary of lists: extracting the terms and
    acronyms of the same text for the same file a second time changes
    nothing, while extracting its headings a second time puts every
    heading on record once more. *)
Theorem extracting_twice (E : env) (content rel_path : string)
    (raws : list (nat * string)) (st : state) :
  render E content = inr raws ->
  let s1 := snd (extract_terms_and_acronyms content rel_path st) in
  let t1 := snd (extract_headings E content rel_path st) in
  snd (extract_terms_and_acronyms content rel_path s1) = s1
  /\ recorded rel_path (toc t1) = recorded rel_path (toc st) ++ map heading_entry raws
  /\ recorded rel_path (toc (snd (extract_headings E content rel_path t1)))
     = (recorded rel_path (toc st) ++ map heading_entry raws) ++ map heading_entry raws.
Proof.
  intros Hr s1 t1. subst s1 t1.
  rewrite !extract_terms_and_acronyms_run, !extract_headings_run, Hr. cbn [snd].
  split; [|split].
  - destruct st as [tm ac tc fs lk out]. unfold set_acronyms, set_terms.
    cbn [terms acronyms toc files locked stdout]. now rewrite !add_all_idem.
  - destruct raws as [|h raws]; [now rewrite app_nil_r|].
    unfold set_toc, recorded. cbn [toc]. now rewrite lookup_insert_eq.
  - destruct raws as [|h raws]; [now rewrite !app_nil_r|].
    unfold set_toc, recorded. cbn [toc]. now rewrite !lookup_insert_eq.
Qed.

Lemma extracting_twice_witness :
  render here a_md = inr [(1, "Intro")]
  /\ recorded "a.md"
       (toc (snd (extract_headings here a_md "a.md"
                    (snd (extract_headings here a_md "a.md" (fresh_indexer ∅))))))
     = (recorded "a.md" (toc (fresh_indexer ∅)) ++ map heading_entry [(1, "Intro")])
       ++ map heading_entry [(1, "Intro")].
Proof.
  split; [reflexivity|].
  exact (proj2 (proj2 (extracting_twice here a_md "a.md" [(1, "Intro")]
                         (fresh_indexer ∅) eq_refl))).
Defined.

(** ** The write of [update_file_toc] *)

Lemma update_file_toc_run (E : env) (file_path content : string) (st : state) :
  let hs := recorded (relpath E file_path (root_dir E)) (toc st) in
  update_file_toc E file_path content st
  = let st1 := snd (toc_item (relpath E file_path (root_dir E)) st) in
    match new_content hs content with
    | inl e => (inl e, st1)
    | inr out =>
        match locked st !! file_path with
        | Some e => (inl e, st1)
        | None => (inr tt, set_files (fun fs => <[file_path := inr out]> fs) st1)
        end
    end.
Proof.
  cbv zeta. unfold update_file_toc, bind, toc_item, recorded, lift, write_file.
  destruct (toc st !! relpath E file_path (root_dir E)) as [hs|]; cbn [default snd].
  - change (id hs) with hs.
    destruct (new_content hs content); unfold raise, ret; cbn [locked]; reflexivity.
  - destruct (new_content [] content); unfold raise, ret; cbn [locked set_toc]; reflexivity.
Qed.

(** X9.  In a text without an existing table of contents the new text
    is computed without any exception, whatever the headings are (a
    backslash in a heading is no obstacle here): it is the old text
    with two line feeds, the table of contents and a line feed put in
    at one place, or with the table of contents and a line feed in
    front of it.  [update_file_toc] writes this text when the file can
    be opened for writing; when it cannot, the exception of the
    opening is the one raised, and the file keeps its text. *)
Theorem new_toc_written_whole (E : env) (file_path content : string) (st : state) :
  no_block content ->
  let hs := recorded (relpath E file_path (root_dir E)) (toc st) in
  exists pre post out,
    content = pre +:+ post
    /\ (out = pre +:+ nl +:+ nl +:+ toc_content hs +:+ nl +:+ post
        \/ (pre = "" /\ out = toc_content hs +:+ nl +:+ post))
    /\ new_content hs content = inr out
    /\ (locked st !! file_path = None ->
        fst (update_file_toc E file_path content st) = inr tt
        /\ files (snd (update_file_toc E file_path content st))
           = <[file_path := inr out]> (files st))
    /\ (forall e, locked st !! file_path = Some e ->
        fst (update_file_toc E file_path content st) = inl e
        /\ files (snd (update_file_toc E file_path content st)) = files st).
Proof.
  intros Hno hs.
  assert (forall x, files (snd (toc_item x st)) = files st) as Hti.
  { intros x. unfold toc_item. now destruct (toc st !! x). }
  pose proof (update_file_toc_run E file_path content st) as Hrun. cbv zeta in Hrun.
  fold hs in Hrun.
  destruct (new_content_inserts hs content Hno) as (pre & post & Hc & Hn).
  assert (exists out,
            (out = pre +:+ nl +:+ nl +:+ toc_content hs +:+ nl +:+ post
             \/ (pre = "" /\ out = toc_content hs +:+ nl +:+ post))
            /\ new_content hs content = inr out) as (out & Hout & Hnew).
  { destruct Hn as [Hn|[Hp Hn]]; eexists; (split; [|exact Hn]); [now left|now right]. }
  exists pre, post, out. split; [exact Hc|]. split; [exact Hout|].
  split; [exact Hnew|]. rewrite Hrun, Hnew. split.
  - intros ->. cbn [fst snd files set_files]. now rewrite Hti.
  - intros e ->. cbn [fst snd]. now rewrite Hti.
Qed.

Lemma new_toc_written_whole_witness :
  no_block "# Doc"
  /\ fst (update_file_toc here "./d.md" "# Doc" one_document) = inr tt
  /\ files (snd (update_file_toc here "./d.md" "# Doc" one_document)) !! "./d.md"
     = Some (inr ("# Doc" +:+ nl +:+ nl
                  +:+ "## Table of Contents" +:+ nl
                  +:+ "- [C:\dir](#c:\dir)" +:+ nl +:+ nl)).
Proof.
  assert (no_block "# Doc") as H.
  { apply (search_toc_none "# Doc" None). vm_compute. reflexivity. }
  split; [exact H|].
  destruct (new_toc_written_whole here "./d.md" "# Doc" one_document H)
    as (pre & post & out & _ & _ & _ & Hw & _).
  destruct (Hw eq_refl) as [H1 H2]. split; [exact H1|].
  vm_compute. reflexivity.
Defined.

(** ** Where the placement goes wrong *)

(** C4.  The placement rule of the specification and the script part
    ways on two kinds of input.  In a document whose subsection is
    called Table of Contents no line is [## Table of Contents], so the
    new block belongs after the first top-level heading; the script
    finds [## Table of Contents] inside the line
    [### Table of Contents], takes it for an existing block and
    replaces from the second [#] on: the items of the new block land
    under the subsection heading, and nothing is put after the first
    top-level heading.  This is what [process_file] writes for such a
    file.  And in a document whose first line is a lone [#], the
    heading pattern lets the line feed stand for the character that is
    not a [#]: the match runs to the end of the next line, and the new
    block is put after that line, which is no heading. *)
Theorem placement_rule_diverges :
  new_content doc_headings doc_with_sub_toc
  = inr ("# Doc" +:+ nl +:+ nl
         +:+ "### Table of Contents" +:+ nl
         +:+ "- [Doc](#doc)" +:+ nl
         +:+ "    - [Table of Contents](#table-of-contents)" +:+ nl
         +:+ nl +:+ "text")
  /\ spec_new_content doc_headings doc_with_sub_toc
     = "# Doc" +:+ nl +:+ nl
       +:+ "## Table of Contents" +:+ nl
       +:+ "- [Doc](#doc)" +:+ nl
       +:+ "    - [Table of Contents](#table-of-contents)" +:+ nl
       +:+ nl +:+ nl +:+ nl
       +:+ "### Table of Contents" +:+ nl +:+ nl +:+ "text"
  /\ files (snd (process_file here "./doc.md"
                   (fresh_indexer {["./doc.md" := inr doc_with_sub_toc]})))
       !! "./doc.md"
     = Some (inr ("# Doc" +:+ nl +:+ nl
                  +:+ "### Table of Contents" +:+ nl
                  +:+ "- [Doc](#doc)" +:+ nl
                  +:+ "    - [Table of Contents](#table-of-contents)" +:+ nl
                  +:+ nl +:+ "text"))
  /\ new_content bare_hash_headings doc_with_bare_hash
     = inr ("#" +:+ nl +:+ "foo" +:+ nl +:+ nl
            +:+ "## Table of Contents" +:+ nl
            +:+ "- [](#)" +:+ nl
            +:+ nl +:+ nl +:+ "bar")
  /\ spec_new_content bare_hash_headings doc_with_bare_hash
     = "## Table of Contents" +:+ nl
       +:+ "- [](#)" +:+ nl
       +:+ nl
       +:+ "#" +:+ nl +:+ "foo" +:+ nl +:+ "bar".
Proof. repeat split; vm_compute; reflexivity. Qed.

(** ** The index file that [generate_index] writes *)

Lemma generate_index_run (E : env) (st : state) :
  generate_index E st
  = match locked st !! index_path E with
    | Some e => (inl e, st)
    | None =>
        (inr tt, set_files (fun fs => <[index_path E := inr (index_content st)]> fs) st)
    end.
Proof.
  unfold generate_index, write_file, bind.
  destruct (locked st !! index_path E); reflexivity.
Qed.

(** The keys of a glossary in sorted order, each with its files in
    sorted order. *)
Lemma glossary_listing (d : gmap string (gset string)) :
  let l := map (fun kv : string * gset string => (fst kv, sorted_set (snd kv)))
               (sorted_items d) in
  StronglySorted String.le (map fst l) /\ NoDup (map fst l)
  /\ (forall k s, d !! k = Some s -> exists fs, (k, fs) ∈ l)
  /\ (forall k fs, (k, fs) ∈ l ->
        exists s, d !! k = Some s /\ fs ≡ₚ elements s
                  /\ StronglySorted String.le fs /\ NoDup fs).
Proof.
  cbv zeta.
  assert (map fst (map (fun kv : string * gset string => (fst kv, sorted_set (snd kv)))
                       (sorted_items d))
          = map fst (sorted_items d)) as Hkeys.
  { rewrite map_map. now apply map_ext. }
  rewrite Hkeys. split; [apply sorted_items_keys|]. split; [apply sorted_items_keys|].
  split.
  - intros k s Hk. exists (sorted_set s).
    apply list_elem_of_In, in_map_iff. exists (k, s). split; [reflexivity|].
    apply list_elem_of_In. now apply sorted_items_elem.
  - intros k fs Hin. apply list_elem_of_In, in_map_iff in Hin as ([k' s] & [= <- <-] & Hin).
    apply list_elem_of_In, sorted_items_elem in Hin. exists s.
    split; [exact Hin|]. apply sorted_set_spec.
Qed.

(** C9.  The [INDEX.md] that [generate_index] writes, when the file can
    be opened for writing, is the following text, in this order.  The
    title.  The heading of the Files section, and for every file of the
    table-of-contents mapping, the paths in increasing lexicographic
    order, a subheading with the path, one list item for each of its
    headings, indented by two blanks for each level above the first and
    linking to the path with the anchor, and an empty line.  The
    heading of the Technical Terms section, and for every term of the
    mapping, the terms in increasing lexicographic order, a list item
    with the term in bold type and under it one link for each of its
    files, the files in increasing lexicographic order, each once; then
    an empty line.  The heading of the Acronyms section, with the
    acronyms listed in the same way. *)
Theorem generated_index_layout (E : env) (st : state) :
  locked st !! index_path E = None ->
  let heading_item := fun (path : string) (h : heading) =>
        match h with
        | (level, text, anchor) =>
            repeat_str "  " (level - 1) +:+ "- [" +:+ text +:+ "](" +:+ path
              +:+ "#" +:+ anchor +:+ ")" +:+ nl
        end in
  let file_entry := fun (item : string * list heading) =>
        "### " +:+ fst item +:+ nl +:+ nl
        +:+ join (map (heading_item (fst item)) (snd item)) +:+ nl in
  let file_link := fun (f : string) => "  - [" +:+ f +:+ "](" +:+ f +:+ ")" +:+ nl in
  let key_entry := fun (item : string * list string) =>
        "- **" +:+ fst item +:+ "**" +:+ nl +:+ join (map file_link (snd item)) in
  let lists := fun (d : gmap string (gset string)) (l : list (string * list string)) =>
        StronglySorted String.le (map fst l) /\ NoDup (map fst l)
        /\ (forall k s, d !! k = Some s -> exists fs, (k, fs) ∈ l)
        /\ (forall k fs, (k, fs) ∈ l ->
              exists s, d !! k = Some s /\ fs ≡ₚ elements s
                        /\ StronglySorted String.le fs /\ NoDup fs) in
  exists (fl : list (string * list heading)) (tl al : list (string * list string)),
    fst (generate_index E st) = inr tt
    /\ files (snd (generate_index E st)) !! index_path E
       = Some (inr (("# Documentation Index" +:+ nl +:+ nl)
                    +:+ ("## Files" +:+ nl +:+ nl)
                    +:+ join (map file_entry fl)
                    +:+ ("## Technical Terms" +:+ nl +:+ nl)
                    +:+ join (map key_entry tl)
                    +:+ nl
                    +:+ ("## Acronyms" +:+ nl +:+ nl)
                    +:+ join (map key_entry al)))
    /\ (fl ≡ₚ map_to_list (toc st)
        /\ StronglySorted String.le (map fst fl) /\ NoDup (map fst fl))
    /\ lists (terms st) tl
    /\ lists (acronyms st) al.
Proof.
  intros Hl heading_item file_entry file_link key_entry lists.
  exists (sorted_items (toc st)),
         (map (fun kv : string * gset string => (fst kv, sorted_set (snd kv)))
              (sorted_items (terms st))),
         (map (fun kv : string * gset string => (fst kv, sorted_set (snd kv)))
              (sorted_items (acronyms st))).
  rewrite generate_index_run, Hl. cbn [fst snd files set_files].
  split; [reflexivity|]. split.
  { rewrite lookup_insert_eq. do 2 f_equal.
    unfold index_content, join. cbn [fold_right]. rewrite app_nil_r_str.
    rewrite !map_map. reflexivity. }
  split; [split; [apply sorted_items_perm|apply sorted_items_keys]|].
  split; apply glossary_listing.
Qed.

Lemma generated_index_layout_witness :
  locked (loop_state here two_files ∅) !! index_path here = None
  /\ fst (generate_index here (loop_state here two_files ∅)) = inr tt
  /\ files (snd (generate_index here (loop_state here two_files ∅))) !! "./INDEX.md"
     = Some (inr scenario_index).
Proof.
  assert (locked (loop_state here two_files ∅) !! index_path here = None) as H
    by (vm_compute; reflexivity).
  split; [exact H|].
  destruct (generated_index_layout here (loop_state here two_files ∅) H)
    as (fl & tl & al & H1 & _).
  split; [exact H1|]. vm_compute. reflexivity.
Defined.

(** C10.  In a run of a new indexer over files with distinct relative
    paths, a file that is read and rendered without any heading has no
    entry when its turn comes, and gets one all the same: the truth
    test on [self.toc[rel_path]] enters its relative path with the
    empty list.  The entry is still there when the loop ends, so the
    [INDEX.md] that [generate_index] writes then has, in its Files
    section, among the entries of the other files, the subheading of
    that path with an empty line and no list item under it. *)
Theorem empty_entry_in_generated_index (E : env) (before after : list string)
    (file_path content : string) (st : state) :
  NoDup (map (fun p => relpath E p (root_dir E)) (before ++ file_path :: after)) ->
  toc st = ∅ ->
  files st !! file_path = Some (inr content) ->
  render E content = inr [] ->
  locked st !! index_path E = None ->
  let rel_path := relpath E file_path (root_dir E) in
  let st1 := snd (process_all E before st) in
  let st2 := snd (process_all E (before ++ file_path :: after) st) in
  let heading_item := fun (path : string) (h : heading) =>
        match h with
        | (level, text, anchor) =>
            repeat_str "  " (level - 1) +:+ "- [" +:+ text +:+ "](" +:+ path
              +:+ "#" +:+ anchor +:+ ")" +:+ nl
        end in
  let file_entry := fun (item : string * list heading) =>
        "### " +:+ fst item +:+ nl +:+ nl
        +:+ join (map (heading_item (fst item)) (snd item)) +:+ nl in
  toc st1 !! rel_path = None
  /\ toc (snd (process_file E file_path st1)) = <[rel_path := []]> (toc st1)
  /\ toc st2 !! rel_path = Some []
  /\ fst (generate_index E st2) = inr tt
  /\ exists (entries_before entries_after : list (string * list heading))
            (glossaries : string),
       entries_before ++ (rel_path, []) :: entries_after ≡ₚ map_to_list (toc st2)
       /\ StronglySorted String.le
            (map fst (entries_before ++ (rel_path, []) :: entries_after))
       /\ files (snd (generate_index E st2)) !! index_path E
          = Some (inr (("# Documentation Index" +:+ nl +:+ nl)
                       +:+ ("## Files" +:+ nl +:+ nl)
                       +:+ join (map file_entry entries_before)
                       +:+ ("### " +:+ rel_path +:+ nl +:+ nl +:+ nl)
                       +:+ join (map file_entry entries_after)
                       +:+ ("## Technical Terms" +:+ nl +:+ nl)
                       +:+ glossaries)).
Proof.
  intros Hnd Htoc Hf Hr Hl rel_path st1 st2 heading_item file_entry.
  pose proof (empty_entry_in_index E before after file_path content st Hnd Htoc Hf Hr)
    as (H1 & H2 & H3 & entries_before & entries_after & Hsplit & Htext).
  fold rel_path in H1, H2, H3, Hsplit, Htext. fold st1 in H1, H2. fold st2 in H3, Hsplit, Htext.
  split; [exact H1|]. split; [exact H2|]. split; [exact H3|].
  assert (locked st2 !! index_path E = None) as Hl2.
  { unfold st2. rewrite process_all_run. cbn [snd]. now rewrite fold_locked. }
  rewrite generate_index_run, Hl2. cbn [fst snd files set_files].
  split; [reflexivity|].
  exists entries_before, entries_after,
    (join (map index_glossary_entry (sorted_items (terms st2)))
     +:+ nl +:+ ("## Acronyms" +:+ nl +:+ nl)
     +:+ join (map index_glossary_entry (sorted_items (acronyms st2)))).
  split; [rewrite <- Hsplit; apply sorted_items_perm|].
  split; [rewrite <- Hsplit; apply sorted_items_keys|].
  rewrite lookup_insert_eq, Htext. reflexivity.
Qed.

Lemma empty_entry_in_generated_index_witness :
  NoDup (map (fun p => relpath here p (root_dir here))
           (["./a.md"] ++ "./notes.md" :: ["./b.md"]))
  /\ fst (generate_index here
            (snd (process_all here (["./a.md"] ++ "./notes.md" :: ["./b.md"])
                    (initial_state here three_files ∅)))) = inr tt
  /\ files (snd (generate_index here
                   (snd (process_all here (["./a.md"] ++ "./notes.md" :: ["./b.md"])
                           (initial_state here three_files ∅))))) !! "./INDEX.md"
     = Some (inr ("# Documentation Index" +:+ nl +:+ nl
                  +:+ "## Files" +:+ nl +:+ nl
                  +:+ "### a.md" +:+ nl +:+ nl
                  +:+ "- [Intro](a.md#intro)" +:+ nl +:+ nl
                  +:+ "### b.md" +:+ nl +:+ nl
                  +:+ "  - [Section](b.md#section)" +:+ nl +:+ nl
                  +:+ "### notes.md" +:+ nl +:+ nl +:+ nl
                  +:+ "## Technical Terms" +:+ nl +:+ nl
                  +:+ nl
                  +:+ "## Acronyms" +:+ nl +:+ nl)).
Proof.
  assert (Hnd : NoDup (map (fun p => relpath here p (root_dir here))
                         (["./a.md"] ++ "./notes.md" :: ["./b.md"]))).
  { vm_compute. repeat (apply NoDup_cons; split; [|]).
    - rewrite !elem_of_cons, elem_of_nil. intros [|[|]]; discriminate || contradiction.
    - rewrite !elem_of_cons, elem_of_nil. intros [|]; discriminate || contradiction.
    - apply not_elem_of_nil.
    - apply NoDup_nil_2. }
  split; [exact Hnd|].
  assert (files (initial_state here three_files ∅) !! "./notes.md"
          = Some (inr "plain text")) as Hf by (vm_compute; reflexivity).
  split.
  - exact (proj1 (proj2 (proj2 (proj2
             (empty_entry_in_generated_index here ["./a.md"] ["./b.md"] "./notes.md"
                "plain text" (initial_state here three_files ∅)
                Hnd eq_refl Hf eq_refl eq_refl))))).
  - vm_compute. reflexivity.
Defined.
